(** * FlyKnight networking module: a shallow embedding of [network.py]

    The host side of the LAN multiplayer layer ([GameServer]) is embedded
    as a state-and-exception monad over a record of the server's fields.
    Python values are a small universe of picklable data; the two
    dictionaries that the server iterates over ([clients],
    [client_addresses]) are insertion-ordered association lists, all
    other dictionaries are finite maps.  Everything the server does to
    the outside (lock operations, sends, closes, thread starts) is
    appended to a ghost [trace]. *)

From Equations Require Import Equations.
From stdpp Require Import gmap strings list fin_maps sorting.
From Stdlib Require Import ZArith Lia.
From Stdlib.Strings Require Byte.

#[local] Set Warnings "-register-all".
#[local] Open Scope Z_scope.

(** ** config.py *)

Definition DEFAULT_PORT : Z := 5555.
Definition MAX_PLAYERS : Z := 4.
Definition NETWORK_TICK_RATE : Z := 30.

(** ** Python values *)

(** Hashable values, as used for dictionary keys. *)
Inductive pykey :=
| KNone
| KInt (z : Z)
| KStr (s : string).

Global Instance pykey_eq_dec : EqDecision pykey.
Proof. solve_decision. Defined.

Global Instance pykey_countable : Countable pykey.
Proof.
  refine (inj_countable'
    (fun k => match k with
              | KNone => inl ()
              | KInt z => inr (inl z)
              | KStr s => inr (inr s)
              end)
    (fun x => match x with
              | inl _ => KNone
              | inr (inl z) => KInt z
              | inr (inr s) => KStr s
              end) _).
  by intros [].
Defined.

(** The values that travel in message payloads and live in the snapshot:
    [None], integers, strings, lists and dictionaries.  Numbers are
    integers (Python's are unbounded, so [Z] without wrap-around). *)
Inductive pyval :=
| VNone
| VInt (z : Z)
| VStr (s : string)
| VList (l : list pyval)
| VDict (d : gmap pykey pyval).

Global Instance pyval_eq_dec : EqDecision pyval.
Proof.
  refine (fix go (x y : pyval) {struct x} : Decision (x = y) :=
    match x, y with
    | VNone, VNone => left eq_refl
    | VInt a, VInt b => cast_if (decide (a = b))
    | VStr a, VStr b => cast_if (decide (a = b))
    | VList a, VList b => cast_if (@list_eq_dec _ go a b)
    | VDict a, VDict b => cast_if (@gmap_eq_dec _ _ _ _ go a b)
    | _, _ => right _
    end); clear go; congruence.
Defined.

Global Instance pyval_inhabited : Inhabited pyval := populate VNone.

Inductive exn :=
| KeyError
| TypeError
| IndexError
| AttributeError
| OverflowError
| PicklingError
| UnpicklingError
| SocketTimeout
| ConnectionError.

Global Instance exn_eq_dec : EqDecision exn.
Proof. solve_decision. Defined.

(** Result of a pure Python expression: a value or a raised exception. *)
Inductive result (A : Type) :=
| Ok (a : A)
| Err (e : exn).
Arguments Ok {A} a.
Arguments Err {A} e.

Module Py.

(** [hash(x)]: lists and dicts are unhashable. *)
Definition to_key (x : pyval) : result pykey :=
  match x with
  | VNone => Ok KNone
  | VInt z => Ok (KInt z)
  | VStr s => Ok (KStr s)
  | VList _ | VDict _ => Err TypeError
  end.

(** Position of index [i] in a sequence of length [len]; negative
    indices count from the end. *)
Definition index (len : nat) (i : Z) : option nat :=
  let n := Z.of_nat len in
  if (0 <=? i) && (i <? n) then Some (Z.to_nat i)
  else if (- n <=? i) && (i <? 0) then Some (Z.to_nat (n + i))
  else None.

Definition is_substring (t s : string) : bool :=
  match String.index 0 t s with
  | Some _ => true
  | None => false
  end.

(** [x in c] *)
Definition contains (c x : pyval) : result bool :=
  match c with
  | VDict d =>
      match to_key x with
      | Ok k => Ok (bool_decide (is_Some (d !! k)))
      | Err e => Err e
      end
  | VList l => Ok (bool_decide (x ∈ l))
  | VStr s =>
      match x with
      | VStr t => Ok (is_substring t s)
      | _ => Err TypeError
      end
  | VNone | VInt _ => Err TypeError
  end.

(** [c[k]] *)
Definition getitem (c k : pyval) : result pyval :=
  match c with
  | VDict d =>
      match to_key k with
      | Ok key =>
          match d !! key with
          | Some v => Ok v
          | None => Err KeyError
          end
      | Err e => Err e
      end
  | VList l =>
      match k with
      | VInt i =>
          match index (length l) i with
          | Some n => match l !! n with Some v => Ok v | None => Err IndexError end
          | None => Err IndexError
          end
      | _ => Err TypeError
      end
  | VStr s =>
      match k with
      | VInt i =>
          match index (String.length s) i with
          | Some n =>
              match String.get n s with
              | Some a => Ok (VStr (String a EmptyString))
              | None => Err IndexError
              end
          | None => Err IndexError
          end
      | _ => Err TypeError
      end
  | VNone | VInt _ => Err TypeError
  end.

(** [c[k] = v], returning the container after the assignment *)
Definition setitem (c k v : pyval) : result pyval :=
  match c with
  | VDict d =>
      match to_key k with
      | Ok key => Ok (VDict (<[key := v]> d))
      | Err e => Err e
      end
  | VList l =>
      match k with
      | VInt i =>
          match index (length l) i with
          | Some n => Ok (VList (<[n := v]> l))
          | None => Err IndexError
          end
      | _ => Err TypeError
      end
  | VStr _ | VNone | VInt _ => Err TypeError
  end.

(** [del c[k]], returning the container after the deletion *)
Definition delitem (c k : pyval) : result pyval :=
  match c with
  | VDict d =>
      match to_key k with
      | Ok key =>
          match d !! key with
          | Some _ => Ok (VDict (delete key d))
          | None => Err KeyError
          end
      | Err e => Err e
      end
  | VList l =>
      match k with
      | VInt i =>
          match index (length l) i with
          | Some n => Ok (VList (take n l ++ drop (S n) l))
          | None => Err IndexError
          end
      | _ => Err TypeError
      end
  | VStr _ | VNone | VInt _ => Err TypeError
  end.

(** [c.get(k, dflt)]; only dictionaries have the method. *)
Definition get (c : pyval) (k : pykey) (dflt : pyval) : result pyval :=
  match c with
  | VDict d => Ok (default dflt (d !! k))
  | _ => Err AttributeError
  end.

(** [a - b] *)
Definition sub (a b : pyval) : result pyval :=
  match a, b with
  | VInt x, VInt y => Ok (VInt (x - y))
  | _, _ => Err TypeError
  end.

(** [a <= n] for an integer literal [n] *)
Definition le_int (a : pyval) (n : Z) : result bool :=
  match a with
  | VInt x => Ok (x <=? n)
  | _ => Err TypeError
  end.

End Py.

(** ** Insertion-ordered dictionaries keyed by player id

    [self.clients] and [self.client_addresses] are iterated over, so the
    order of their items is kept: a new key goes to the end, assigning to
    an existing key keeps its place. *)

Module OrdDict.
Section ordered.
Context {V : Type}.

#[local] Abbreviation t := (list (Z * V)).

Fixpoint lookup (d : t) (k : Z) : option V :=
  match d with
  | [] => None
  | (k', v) :: d' => if decide (k' = k) then Some v else lookup d' k
  end.

Definition mem (d : t) (k : Z) : bool :=
  match lookup d k with Some _ => true | None => false end.

Fixpoint set (d : t) (k : Z) (v : V) : t :=
  match d with
  | [] => [(k, v)]
  | (k', v') :: d' =>
      if decide (k' = k) then (k, v) :: d' else (k', v') :: set d' k v
  end.

Definition del (d : t) (k : Z) : t :=
  filter (fun item => item.1 <> k) d.

Definition keys (d : t) : list Z := d.*1.
Definition values (d : t) : list V := d.*2.
End ordered.
Abbreviation t V := (list (Z * V)).
End OrdDict.


(** ** Messages, sockets and the observable trace *)

(** [class NetworkMessage]: type tag, payload and creation time.  The
    clock reading of [time.time()] is kept as an integer tick; no code
    of the module reads it back. *)
Record NetworkMessage := {
  type : string;
  data : pyval;
  timestamp : Z
}.

Global Instance NetworkMessage_eq_dec : EqDecision NetworkMessage.
Proof. solve_decision. Defined.

(** A socket object is a handle; an address is host and port. *)
Definition socket := nat.
Definition address := (string * Z)%type.

Inductive send_result :=
| Delivered
| Failed (e : exn).

Global Instance send_result_eq_dec : EqDecision send_result.
Proof. solve_decision. Defined.

(** What a thread of the server does to the lock and to the network. *)
Inductive event :=
| ELock
| EUnlock
| ESend (sock : socket) (message : NetworkMessage) (r : send_result)
| EClose (sock : socket)
| EThread (player_id : Z) (sock : socket).

Global Instance event_eq_dec : EqDecision event.
Proof. solve_decision. Defined.

Global Instance byte_eq_dec : EqDecision Byte.byte := Byte.byte_eq_dec.

(** What the peer's side of a connection delivers to successive
    [recv] calls: some bytes, five seconds of silence, an orderly close
    or a reset.  An exhausted script is silence. *)
Inductive rx :=
| Chunk (bs : list Byte.byte)
| Silence
| Eof
| Aborted.

(** The fields of [GameServer], followed by the two that stand for its
    environment: the bytes still to arrive on each socket and the trace
    of events so far. *)
Record GameServer := {
  clients : OrdDict.t socket;
  client_addresses : OrdDict.t address;
  next_player_id : Z;
  running : bool;
  game_state : gmap pykey pyval;
  lock : bool;
  inbox : gmap socket (list rx);
  trace : list event
}.

(** [GameServer.__init__] *)
Definition init : GameServer := {|
  clients := [];
  client_addresses := [];
  next_player_id := 0;
  running := false;
  game_state :=
    {[ KStr "players" := VDict ∅;
       KStr "enemies" := VDict ∅;
       KStr "items" := VDict ∅;
       KStr "rooms" := VList [];
       KStr "dungeon_level" := VInt 1 ]};
  lock := false;
  inbox := ∅;
  trace := []
|}.

Definition set_clients (v : OrdDict.t socket) (s : GameServer) : GameServer :=
  {| clients := v; client_addresses := client_addresses s;
     next_player_id := next_player_id s; running := running s;
     game_state := game_state s; lock := lock s; inbox := inbox s;
     trace := trace s |}.

Definition set_client_addresses (v : OrdDict.t address) (s : GameServer) : GameServer :=
  {| clients := clients s; client_addresses := v;
     next_player_id := next_player_id s; running := running s;
     game_state := game_state s; lock := lock s; inbox := inbox s;
     trace := trace s |}.

Definition set_next_player_id (v : Z) (s : GameServer) : GameServer :=
  {| clients := clients s; client_addresses := client_addresses s;
     next_player_id := v; running := running s;
     game_state := game_state s; lock := lock s; inbox := inbox s;
     trace := trace s |}.

Definition set_running (v : bool) (s : GameServer) : GameServer :=
  {| clients := clients s; client_addresses := client_addresses s;
     next_player_id := next_player_id s; running := v;
     game_state := game_state s; lock := lock s; inbox := inbox s;
     trace := trace s |}.

Definition set_game_state (v : gmap pykey pyval) (s : GameServer) : GameServer :=
  {| clients := clients s; client_addresses := client_addresses s;
     next_player_id := next_player_id s; running := running s;
     game_state := v; lock := lock s; inbox := inbox s;
     trace := trace s |}.

Definition set_lock (v : bool) (s : GameServer) : GameServer :=
  {| clients := clients s; client_addresses := client_addresses s;
     next_player_id := next_player_id s; running := running s;
     game_state := game_state s; lock := v; inbox := inbox s;
     trace := trace s |}.

Definition set_inbox (v : gmap socket (list rx)) (s : GameServer) : GameServer :=
  {| clients := clients s; client_addresses := client_addresses s;
     next_player_id := next_player_id s; running := running s;
     game_state := game_state s; lock := lock s; inbox := v;
     trace := trace s |}.

Definition add_events (evs : list event) (s : GameServer) : GameServer :=
  {| clients := clients s; client_addresses := client_addresses s;
     next_player_id := next_player_id s; running := running s;
     game_state := game_state s; lock := lock s; inbox := inbox s;
     trace := trace s ++ evs |}.

Definition log (e : event) (s : GameServer) : GameServer := add_events [e] s.

(** ** The monad of server code

    A method runs on a server state and either returns, raises, or
    never returns because it waits for a lock that will not be
    released ([Block]).  The state it leaves behind is kept in all
    three cases. *)

Inductive outcome (A : Type) :=
| Ret (a : A)
| Raise (e : exn)
| Block.
Arguments Ret {A} a.
Arguments Raise {A} e.
Arguments Block {A}.

Definition M (A : Type) : Type := GameServer -> outcome A * GameServer.

Definition ret {A} (a : A) : M A := fun s => (Ret a, s).

Definition raise {A} (e : exn) : M A := fun s => (Raise e, s).

Definition bind {A B} (m : M A) (k : A -> M B) : M B := fun s =>
  match m s with
  | (Ret a, s') => k a s'
  | (Raise e, s') => (Raise e, s')
  | (Block, s') => (Block, s')
  end.

Notation "'let!' x ':=' m 'in' k" := (bind m (fun x => k))
  (at level 10, x pattern, m at level 100, k at level 200,
   format "'[v' 'let!'  x  ':='  m  'in' '/' k ']'").

Definition gets {A} (f : GameServer -> A) : M A := fun s => (Ret (f s), s).

Definition modify (f : GameServer -> GameServer) : M unit := fun s => (Ret tt, f s).

Definition lift {A} (r : result A) : M A :=
  match r with
  | Ok a => ret a
  | Err e => raise e
  end.

Definition when (b : bool) (m : M unit) : M unit := if b then m else ret tt.

(** [try: m except: h] *)
Definition try_except {A} (m : M A) (h : exn -> M A) : M A := fun s =>
  match m s with
  | (Raise e, s') => h e s'
  | r => r
  end.

(** [for x in xs: f x] *)
Fixpoint for_each {A} (xs : list A) (f : A -> M unit) : M unit :=
  match xs with
  | [] => ret tt
  | x :: xs' => let! _ := f x in for_each xs' f
  end.

(** [with self.lock: body].  [threading.Lock] is not reentrant: a thread
    that asks for the lock while it is held waits, and if the holder is
    the thread itself it waits for ever.  The lock is released when the
    body returns or raises. *)
Definition with_lock {A} (body : M A) : M A := fun s =>
  if lock s then (Block, s)
  else
    match body (log ELock (set_lock true s)) with
    | (Block, s') => (Block, s')
    | (r, s') => (r, log EUnlock (set_lock false s'))
    end.

(** ** Wire format *)

Definition byte_of_Z (z : Z) : Byte.byte :=
  default Byte.x00 (Byte.of_N (Z.to_N (z mod 256))).

(** [size.to_bytes(4, 'big')] *)
Definition to_bytes (size : Z) : result (list Byte.byte) :=
  if (0 <=? size) && (size <? 2 ^ 32) then
    Ok [byte_of_Z (size / 2 ^ 24); byte_of_Z (size / 2 ^ 16);
        byte_of_Z (size / 2 ^ 8); byte_of_Z size]
  else Err OverflowError.

(** [int.from_bytes(bs, 'big')] *)
Definition from_bytes (bs : list Byte.byte) : Z :=
  fold_left (fun acc b => acc * 256 + Z.of_N (Byte.to_N b)) bs 0.

(** One [recv(n)] against what the peer delivers. *)
Fixpoint take_rx (n : nat) (script : list rx) : result (list Byte.byte) * list rx :=
  match script with
  | [] => (Err SocketTimeout, [])
  | Chunk [] :: rest => take_rx n rest
  | Chunk bs :: rest =>
      (Ok (take n bs),
       match drop n bs with
       | [] => rest
       | later => Chunk later :: rest
       end)
  | Silence :: rest => (Err SocketTimeout, rest)
  | Eof :: _ => (Ok [], script)
  | Aborted :: _ => (Err ConnectionError, script)
  end.

Definition closed (sock : socket) (s : GameServer) : bool :=
  bool_decide (EClose sock ∈ trace s).

(** [client_socket.recv(n)] *)
Definition recv (sock : socket) (n : nat) : M (list Byte.byte) := fun s =>
  if closed sock s then (Raise ConnectionError, s)
  else
    let '(r, script) := take_rx n (default [] (inbox s !! sock)) in
    lift r (set_inbox (<[sock := script]> (inbox s)) s).

(** The body loop of [_receive_from_client]:
    [while len(data) < size: chunk = recv(min(size - len(data), 4096)); ...] *)
Equations? recv_loop (sock : socket) (size : nat) (data : list Byte.byte)
  (s : GameServer) : outcome (option (list Byte.byte)) * GameServer
  by wf (size - length data)%nat lt :=
recv_loop sock size data s with lt_dec (length data) size := {
  | right _ => (Ret (Some data), s)
  | left Hlt with recv sock (Nat.min (size - length data) 4096) s := {
      | (Ret [], s') => (Ret None, s')
      | (Ret (b :: bs), s') => recv_loop sock size (data ++ b :: bs) s'
      | (Raise e, s') => (Raise e, s')
      | (Block, s') => (Block, s') } }.
Proof. rewrite length_app; simpl; lia. Qed.

(** The environment of the server: the pickle library ([None] when the
    call raises), whether a [sendall] on a socket goes through after a
    given history, and the clock. *)
Record environment := {
  pickle_dumps : NetworkMessage -> option (list Byte.byte);
  pickle_loads : list Byte.byte -> option NetworkMessage;
  sendall_ok : list event -> socket -> bool;
  time_time : list event -> Z
}.

(** ** class GameServer *)

Section Host.
Context (env : environment).

(** [NetworkMessage(msg_type, data)] *)
Definition new_message (msg_type : string) (payload : pyval) : M NetworkMessage :=
  fun s => (Ret {| type := msg_type; data := payload;
                   timestamp := time_time env (trace s) |}, s).

(** The bytes [_send_to_client] hands to [sendall]:
    [size.to_bytes(4, 'big') + pickle.dumps(message)]. *)
Definition frame (message : NetworkMessage) : result (list Byte.byte) :=
  match pickle_dumps env message with
  | Some payload =>
      match to_bytes (Z.of_nat (length payload)) with
      | Ok header => Ok (header ++ payload)
      | Err e => Err e
      end
  | None => Err PicklingError
  end.

Definition _send_to_client (client_socket : socket) (message : NetworkMessage) : M unit :=
  fun s =>
    match frame message with
    | Err e => (Raise e, log (ESend client_socket message (Failed e)) s)
    | Ok _ =>
        if negb (closed client_socket s) && sendall_ok env (trace s) client_socket
        then (Ret tt, log (ESend client_socket message Delivered) s)
        else (Raise ConnectionError,
              log (ESend client_socket message (Failed ConnectionError)) s)
    end.

Definition _receive_from_client (client_socket : socket) : M (option NetworkMessage) :=
  let! size_data := recv client_socket 4 in
  if (length size_data <? 4)%nat then ret None
  else
    let size := from_bytes size_data in
    let! body := recv_loop client_socket (Z.to_nat size) [] in
    match body with
    | None => ret None
    | Some payload =>
        match pickle_loads env payload with
        | Some message => ret (Some message)
        | None => raise UnpicklingError
        end
    end.

(** The first loop of [_broadcast]: one send per session other than
    [exclude]; the ids whose send raised are collected. *)
Fixpoint send_all (items : list (Z * socket)) (message : NetworkMessage)
  (exclude : option Z) : M (list Z) :=
  match items with
  | [] => ret []
  | (player_id, client_socket) :: items' =>
      if bool_decide (exclude = Some player_id) then send_all items' message exclude
      else
        let! dead := try_except
                       (let! _ := _send_to_client client_socket message in ret false)
                       (fun _ => ret true) in
        let! dead_clients := send_all items' message exclude in
        ret (if dead : bool then player_id :: dead_clients else dead_clients)
  end.

(** [_broadcast], given the [_remove_client] it calls for dead sessions. *)
Definition broadcast_with (remove_client : Z -> M unit)
  (message : NetworkMessage) (exclude : option Z) : M unit :=
  let! items := gets clients in
  let! dead_clients := send_all items message exclude in
  for_each dead_clients remove_client.

(** [self.game_state[key] = v] *)
Definition state_set (key : string) (v : pyval) : M unit :=
  modify (fun s => set_game_state (<[KStr key := v]> (game_state s)) s).

(** [self.game_state[key]] *)
Definition state_get (key : string) : M pyval :=
  let! gs := gets game_state in
  match gs !! KStr key with
  | Some v => ret v
  | None => raise KeyError
  end.

(** [self.game_state.get(key, {})] *)
Definition state_get_default (key : string) : M pyval :=
  let! gs := gets game_state in
  ret (default (VDict ∅) (gs !! KStr key)).

(** [_remove_client] and [_broadcast] call each other; [depth] bounds
    the nesting of these calls.  The call of [_broadcast] is made with
    the lock held, so a nested [_remove_client] never gets past its
    request for the lock: below, [remove_client_depth] shows that the
    bound is immaterial. *)
Fixpoint remove_client_upto (depth : nat) (player_id : Z) : M unit :=
  with_lock (
    let! cs := gets clients in
    match OrdDict.lookup cs player_id with
    | Some client_socket =>
        let! _ := modify (log (EClose client_socket)) in
        let! _ := modify (fun s => set_clients (OrdDict.del (clients s) player_id) s) in
        let! addrs := gets client_addresses in
        let! _ := when (OrdDict.mem addrs player_id)
                    (modify (set_client_addresses (OrdDict.del addrs player_id))) in
        let! players := state_get_default "players" in
        let! known := lift (Py.contains players (VInt player_id)) in
        let! _ := when known (
                    let! players := state_get "players" in
                    let! players' := lift (Py.delitem players (VInt player_id)) in
                    state_set "players" players') in
        let! message := new_message "player_left"
                          (VDict {[ KStr "player_id" := VInt player_id ]}) in
        broadcast_with
          (match depth with
           | O => fun _ => with_lock (ret tt) (* cut to the lock request *)
           | S depth' => remove_client_upto depth'
           end) message None
    | None => ret tt
    end).

Definition _remove_client (player_id : Z) : M unit := fun s =>
  remove_client_upto (length (clients s)) player_id s.

Definition _broadcast (message : NetworkMessage) (exclude : option Z) : M unit :=
  broadcast_with _remove_client message exclude.

Definition _process_message (player_id : Z) (message : NetworkMessage) : M unit :=
  with_lock (
    if bool_decide (type message = "player_update") then
      let! gs := gets game_state in
      let! _ := when (negb (bool_decide (is_Some (gs !! KStr "players"))))
                  (state_set "players" (VDict ∅)) in
      let! players := state_get "players" in
      let! players' := lift (Py.setitem players (VInt player_id) (data message)) in
      state_set "players" players'
    else if bool_decide (type message = "attack") then
      let! out := new_message "player_attack"
                    (VDict {[ KStr "player_id" := VInt player_id;
                              KStr "attack_data" := data message ]}) in
      _broadcast out None
    else if bool_decide (type message = "enemy_damage") then
      let! enemy_id := lift (Py.getitem (data message) (VStr "enemy_id")) in
      let! damage := lift (Py.getitem (data message) (VStr "damage")) in
      let! enemies := state_get_default "enemies" in
      let! present := lift (Py.contains enemies enemy_id) in
      when present (
        let! enemies := state_get "enemies" in
        let! enemy := lift (Py.getitem enemies enemy_id) in
        let! hp := lift (Py.getitem enemy (VStr "hp")) in
        let! hp' := lift (Py.sub hp damage) in
        let! enemy' := lift (Py.setitem enemy (VStr "hp") hp') in
        let! enemies' := lift (Py.setitem enemies enemy_id enemy') in
        let! _ := state_set "enemies" enemies' in
        let! dead := lift (Py.le_int hp' 0) in
        if dead : bool then
          let! enemies'' := lift (Py.delitem enemies' enemy_id) in
          let! _ := state_set "enemies" enemies'' in
          let! drops := lift (Py.get (data message) (KStr "drops") (VList [])) in
          let! out := new_message "enemy_died"
                        (VDict {[ KStr "enemy_id" := enemy_id;
                                  KStr "drops" := drops ]}) in
          _broadcast out None
        else
          let! out := new_message "enemy_damaged"
                        (VDict {[ KStr "enemy_id" := enemy_id;
                                  KStr "hp" := hp' ]}) in
          _broadcast out None)
    else if bool_decide (type message = "pickup_item") then
      let! item_id := lift (Py.getitem (data message) (VStr "item_id")) in
      let! items := state_get_default "items" in
      let! present := lift (Py.contains items item_id) in
      when present (
        let! items := state_get "items" in
        let! items' := lift (Py.delitem items item_id) in
        let! _ := state_set "items" items' in
        let! out := new_message "item_picked_up"
                      (VDict {[ KStr "item_id" := item_id;
                                KStr "player_id" := VInt player_id ]}) in
        _broadcast out None)
    else ret tt).

(** One iteration of [_update_loop] (the sleep between two iterations
    is not modelled). *)
Definition _update_loop : M unit :=
  with_lock (
    let! gs := gets game_state in
    let! state_message := new_message "game_state" (VDict gs) in
    _broadcast state_message None).

(** [_accept_connections], lines 77-87 of one iteration: the capacity
    check, the allocation of the id and the registration under the lock.
    Returns the new id, or [None] when the connection was turned away. *)
Definition accept_register (client_socket : socket) (addr : address) : M (option Z) :=
  let! cs := gets clients in
  if MAX_PLAYERS <=? Z.of_nat (length cs) then
    let! _ := modify (log (EClose client_socket)) in
    ret None
  else
    let! player_id := gets next_player_id in
    let! _ := modify (set_next_player_id (player_id + 1)) in
    let! _ := with_lock (
                let! _ := modify (fun s =>
                            set_clients (OrdDict.set (clients s) player_id client_socket) s) in
                modify (fun s =>
                  set_client_addresses (OrdDict.set (client_addresses s) player_id addr) s)) in
    ret (Some player_id).

(** [_accept_connections], lines 89-103: welcome, notification of the
    others, start of the session's thread. *)
Definition accept_greet (player_id : Z) (client_socket : socket) : M unit :=
  let! gs := gets game_state in
  let! welcome := new_message "welcome"
                    (VDict {[ KStr "player_id" := VInt player_id;
                              KStr "game_state" := VDict gs ]}) in
  let! _ := _send_to_client client_socket welcome in
  let! joined := new_message "player_joined"
                   (VDict {[ KStr "player_id" := VInt player_id ]}) in
  let! _ := _broadcast joined (Some player_id) in
  modify (log (EThread player_id client_socket)).

(** One iteration of the loop of [_accept_connections], for what
    [self.socket.accept()] yields: a connection, or [None] when it timed
    out.  Exceptions end the iteration, not the loop. *)
Definition _accept_connections (conn : option (socket * address)) : M unit :=
  try_except
    (match conn with
     | None => raise SocketTimeout
     | Some (client_socket, addr) =>
         let! r := accept_register client_socket addr in
         match r with
         | None => ret tt
         | Some player_id => accept_greet player_id client_socket
         end
     end)
    (fun _ => ret tt).

Inductive loop_control :=
| Continue
| Break.

(** The [try] statement in the loop of [_handle_client]. *)
Definition handle_client_step (player_id : Z) (client_socket : socket) : M loop_control :=
  try_except
    (let! received := _receive_from_client client_socket in
     match received with
     | None => ret Break
     | Some message =>
         let! _ := _process_message player_id message in
         ret Continue
     end)
    (fun e => if bool_decide (e = SocketTimeout) then ret Continue else ret Break).

(** Whether a thread function has returned, or is still in its loop
    after the iterations that were run. *)
Inductive thread_state :=
| Finished
| Looping.

(** [_handle_client], run for at most [n] iterations of its loop. *)
Fixpoint handle_client_loop (n : nat) (player_id : Z) (client_socket : socket)
  : M thread_state :=
  match n with
  | O => ret Looping
  | S n' =>
      let! go := gets running in
      if go : bool then
        let! c := handle_client_step player_id client_socket in
        match c with
        | Continue => handle_client_loop n' player_id client_socket
        | Break => ret Finished
        end
      else ret Finished
  end.

Definition _handle_client (n : nat) (player_id : Z) (client_socket : socket)
  : M thread_state :=
  let! st := handle_client_loop n player_id client_socket in
  match st with
  | Finished => let! _ := _remove_client player_id in ret Finished
  | Looping => ret Looping
  end.

Definition update_game_state (state_update : gmap pykey pyval) : M unit :=
  with_lock (modify (fun s => set_game_state (state_update ∪ game_state s) s)).

(** [start], without the binding of the listening socket *)
Definition start : M unit := modify (set_running true).

(** [stop]: the sessions' sockets are closed, the registry is left as
    it is. *)
Definition stop : M unit :=
  let! _ := modify (set_running false) in
  let! cs := gets clients in
  for_each (OrdDict.values cs) (fun client => modify (log (EClose client))).

(** ** Runs of the server

    The steps that the server's threads take, one at a time. *)
Inductive op :=
| Start
| Stop
| Accept (client_socket : socket) (addr : address)
| Remove (player_id : Z)
| Process (player_id : Z) (message : NetworkMessage)
| Tick
| Update (state_update : gmap pykey pyval)
| Handle (n : nat) (player_id : Z) (client_socket : socket).

Definition step (o : op) (s : GameServer) : GameServer :=
  match o with
  | Start => (start s).2
  | Stop => (stop s).2
  | Accept client_socket addr => (_accept_connections (Some (client_socket, addr)) s).2
  | Remove player_id => (_remove_client player_id s).2
  | Process player_id message => (_process_message player_id message s).2
  | Tick => (_update_loop s).2
  | Update state_update => (update_game_state state_update s).2
  | Handle n player_id client_socket => (_handle_client n player_id client_socket s).2
  end.

Definition run (ops : list op) (s : GameServer) : GameServer :=
  fold_left (fun s o => step o s) ops s.

(** The id that a step hands out, if it does. *)
Definition assigned (o : op) (s : GameServer) : list Z :=
  match o with
  | Accept client_socket addr =>
      match (accept_register client_socket addr s).1 with
      | Ret (Some player_id) => [player_id]
      | _ => []
      end
  | _ => []
  end.

(** The ids handed out along a run, in the order of the run. *)
Fixpoint assigned_ids (ops : list op) (s : GameServer) : list Z :=
  match ops with
  | [] => []
  | o :: ops' => assigned o s ++ assigned_ids ops' (step o s)
  end.

End Host.

(** ** Reading the trace *)

(** The events that happened between two states of one run. *)
Definition emitted (s s' : GameServer) : list event :=
  drop (length (trace s)) (trace s').

(** The calls of [_send_to_client]: who was sent what. *)
Definition sends (evs : list event) : list (socket * NetworkMessage) :=
  omap (fun e => match e with
                 | ESend sock m _ => Some (sock, m)
                 | _ => None
                 end) evs.

(** What reached the peer of [sock], in order. *)
Definition delivered_to (sock : socket) (evs : list event) : list NetworkMessage :=
  omap (fun e => match e with
                 | ESend sock' m Delivered =>
                     if decide (sock' = sock) then Some m else None
                 | _ => None
                 end) evs.

(** The sends that a thread makes while it holds the lock ([held] tells
    whether it does at the start of [evs]), and those it makes while it
    does not. *)
Fixpoint locked_sends (held : bool) (evs : list event) : list (socket * NetworkMessage) :=
  match evs with
  | [] => []
  | ELock :: evs' => locked_sends true evs'
  | EUnlock :: evs' => locked_sends false evs'
  | ESend sock m _ :: evs' =>
      (if held then [(sock, m)] else []) ++ locked_sends held evs'
  | _ :: evs' => locked_sends held evs'
  end.

Fixpoint unlocked_sends (held : bool) (evs : list event) : list (socket * NetworkMessage) :=
  match evs with
  | [] => []
  | ELock :: evs' => unlocked_sends true evs'
  | EUnlock :: evs' => unlocked_sends false evs'
  | ESend sock m _ :: evs' =>
      (if held then [] else [(sock, m)]) ++ unlocked_sends held evs'
  | _ :: evs' => unlocked_sends held evs'
  end.

(** The sockets that a run accepts. *)
Definition accepted (ops : list op) : list socket :=
  omap (fun o => match o with
                 | Accept client_socket _ => Some client_socket
                 | _ => None
                 end) ops.

(** ** Bounds on what a piece of server code may do *)

(** The payload of [player_left] and [player_joined]. *)
Definition id_payload (player_id : Z) : pyval :=
  VDict {[ KStr "player_id" := VInt player_id ]}.

(** A send is within the registry [cs] when it goes to a socket of [cs]
    and, if it announces a departure, names an id of [cs]. *)
Definition event_within (cs : OrdDict.t socket) (e : event) : Prop :=
  match e with
  | ESend sock m _ =>
      sock ∈ cs.*2 /\
      (type m = "player_left" -> exists p, p ∈ cs.*1 /\ data m = id_payload p)
  | _ => True
  end.

(** [s'] comes after [s] without any new session or id, and with sends
    within [cs] only. *)
Record within (cs : OrdDict.t socket) (s s' : GameServer) : Prop := {
  within_next : next_player_id s' = next_player_id s;
  within_clients : sublist (clients s') (clients s);
  within_trace : exists evs, trace s' = trace s ++ evs /\ Forall (event_within cs) evs
}.

(** A step of server code, run on a state that satisfies [P], leaves a
    state related to it by [R]. *)
Definition ok {A} (P : GameServer -> Prop) (R : GameServer -> GameServer -> Prop)
  (m : M A) (s : GameServer) : Prop :=
  P s -> R s (m s).2.

(** What [P] and [R] must satisfy for [ok] to compose along the code. *)
Class Frame (P : GameServer -> Prop) (R : GameServer -> GameServer -> Prop) : Prop := {
  frame_refl : forall s, R s s;
  frame_trans : forall s1 s2 s3, R s1 s2 -> R s2 s3 -> R s1 s3;
  frame_pre : forall s s', R s s' -> P s -> P s';
  frame_game_state : forall g s, R s (set_game_state g s);
  frame_client_addresses : forall a s, R s (set_client_addresses a s);
  frame_running : forall b s, R s (set_running b s);
  frame_inbox : forall i s, R s (set_inbox i s)
}.

(** Within the registry [cs]. *)
Definition in_registry (cs : OrdDict.t socket) (s : GameServer) : Prop :=
  sublist (clients s) cs.

(** While the lock is held by the running thread: nothing but sends
    happens, and the registry stays as it is. *)
Definition is_send (e : event) : Prop :=
  match e with
  | ESend _ _ _ => True
  | _ => False
  end.

Record only_sends (s s' : GameServer) : Prop := {
  only_lock : lock s' = lock s;
  only_clients : clients s' = clients s;
  only_next : next_player_id s' = next_player_id s;
  only_trace : exists evs, trace s' = trace s ++ evs /\ Forall is_send evs
}.

Definition locked (s : GameServer) : Prop := lock s = true.

Definition message_within (cs : OrdDict.t socket) (m : NetworkMessage) : Prop :=
  type m = "player_left" -> exists p, p ∈ cs.*1 /\ data m = id_payload p.

(** The state in which [accept_register] leaves a registration. *)
Definition registered (sock : socket) (addr : address) (s : GameServer) : GameServer :=
  let n := next_player_id s in
  add_events [ELock; EUnlock]
    (set_client_addresses (OrdDict.set (client_addresses s) n addr)
       (set_clients (OrdDict.set (clients s) n sock)
          (set_next_player_id (n + 1) s))).

(** What is left of the chunks of a frame after [n] bytes of the first
    were read. *)
Definition after_read (n : nat) (c : list Byte.byte) (chunks : list (list Byte.byte))
  : list (list Byte.byte) :=
  match drop n c with
  | [] => chunks
  | later => later :: chunks
  end.

(** ** Well-formed registries and bounds on runs *)

(** Ids are distinct and below the next one to hand out, and there are
    at most [MAX_PLAYERS] sessions. *)
Record registry_ok (s : GameServer) : Prop := {
  ids_distinct : NoDup (clients s).*1;
  ids_below : Forall (fun p => p < next_player_id s) (clients s).*1;
  at_most_max : Z.of_nat (length (clients s)) <= MAX_PLAYERS
}.

(** The session that a step adds to the registry, if it adds one. *)
Definition extension (o : op) (s : GameServer) : OrdDict.t socket :=
  match o with
  | Accept client_socket _ => (fun p => (p, client_socket)) <$> assigned o s
  | _ => []
  end.

(** A send of a run from [s] goes to a session of [s] or to a socket
    accepted since, and a departure it announces is that of an id of
    [s] or of one handed out since. *)
Definition event_of_run (s : GameServer) (ops : list op) (e : event) : Prop :=
  match e with
  | ESend sock m _ =>
      (sock ∈ (clients s).*2 \/ sock ∈ accepted ops) /\
      (type m = "player_left" ->
       exists p, data m = id_payload p /\
                 (p ∈ (clients s).*1 \/ next_player_id s <= p))
  | _ => True
  end.

(** The lock is never held during a send. *)
Definition no_send_under_lock (evs : list event) : Prop :=
  locked_sends false evs = [].

(** The claim of the specification on a decode failure: the loop of the
    session goes on and the session stays registered. *)
Definition survives (r : outcome thread_state * GameServer) (player_id : Z) : Prop :=
  r.1 = Ret Looping /\ OrdDict.mem (clients r.2) player_id = true.

(** The claim of the specification on a join, on what reaches the new
    session: a welcome is among it, and no [game_state] comes before
    that welcome. *)
Definition welcome_precedes_game_state (msgs : list NetworkMessage) : Prop :=
  exists before w after,
    msgs = before ++ w :: after /\
    type w = "welcome" /\
    Forall (fun m => type m <> "game_state") before.

(** A schedule of the accept thread and the update thread: the tick of
    [_update_loop] runs between the registration of the new session
    (line 87, where the accept thread releases the lock) and its
    welcome (line 90). *)
Definition accept_overtaken (env : environment) (client_socket : socket)
  (addr : address) (s : GameServer) : GameServer :=
  let '(r, s1) := accept_register client_socket addr s in
  let s2 := (_update_loop env s1).2 in
  match r with
  | Ret (Some player_id) => (accept_greet env player_id client_socket s2).2
  | _ => s2
  end.

(** ** A small server to run the code on *)

Module Example.

(** A pickle that writes the type tag and reads back nothing but the
    [player_update] of player 0; every send goes through; the clock
    counts the events. *)
Definition hello : NetworkMessage :=
  {| type := "player_update";
     data := VDict {[ KStr "x" := VInt 3; KStr "y" := VInt 4 ]};
     timestamp := 17 |}.

Definition tag_bytes (t : string) : list Byte.byte := String.list_byte_of_string t.

Definition env : environment := {|
  pickle_dumps := fun m => Some (tag_bytes (type m));
  pickle_loads := fun bs =>
    if decide (bs = tag_bytes "player_update") then Some hello else None;
  sendall_ok := fun _ _ => true;
  time_time := fun tr => Z.of_nat (length tr)
|}.

(** The same, with a peer that is gone: no send goes through. *)
Definition env_down : environment := {|
  pickle_dumps := pickle_dumps env;
  pickle_loads := pickle_loads env;
  sendall_ok := fun _ _ => false;
  time_time := time_time env
|}.

(** Two sessions, one enemy with 60 hp. *)
Definition enemy7 : gmap pykey pyval := {[ KStr "hp" := VInt 60 ]}.
Definition enemies : gmap pykey pyval := {[ KInt 7 := VDict enemy7 ]}.

Definition server : GameServer :=
  set_running true
    (set_clients [(0, 10%nat); (1, 11%nat)]
       (set_next_player_id 2
          (set_game_state (<[KStr "enemies" := VDict enemies]> (game_state init))
             init))).



Definition graze_payload : gmap pykey pyval :=
  {[ KStr "enemy_id" := VInt 7; KStr "damage" := VInt 20 ]}.

Definition graze : NetworkMessage :=
  {| type := "enemy_damage"; data := VDict graze_payload; timestamp := 0 |}.

Definition attack : NetworkMessage :=
  {| type := "attack"; data := VStr "slash"; timestamp := 0 |}.

Definition miss : NetworkMessage :=
  {| type := "enemy_damage";
     data := VDict {[ KStr "enemy_id" := VInt 8; KStr "damage" := VInt 20 ]};
     timestamp := 0 |}.

(** The frames of [hello], which unpickles, and of [attack], which
    does not, as session 0 sends them. *)
Definition frame_of (m : NetworkMessage) : list Byte.byte :=
  match frame env m with
  | Ok bytes => bytes
  | Err _ => []
  end.

(** [hello] arrives cut in two on socket 10. *)
Definition receiving : GameServer :=
  set_inbox {[ 10%nat := [Chunk (take 6 (frame_of hello));
                          Chunk (drop 6 (frame_of hello))] ]} server.

(** A frame that does not unpickle arrives on socket 10, then [hello]. *)
Definition hearing : GameServer :=
  set_inbox {[ 10%nat := [Chunk (frame_of attack); Chunk (frame_of hello)] ]} server.

(** A full server: four sessions. *)
Definition full : GameServer :=
  set_clients [(0, 10%nat); (1, 11%nat); (2, 12%nat); (3, 13%nat)]
    (set_next_player_id 4 server).

End Example.

(** ** Peers that stop sending *)

(** The ways in which a peer stops sending: it is silent for the time
    of the socket's timeout, it has closed the connection, or the
    connection is broken. *)
Inductive halt :=
| Quiet
| Ended
| Broken.

(** How the peer's script shows it. *)
Definition rx_of (h : halt) : rx :=
  match h with
  | Quiet => Silence
  | Ended => Eof
  | Broken => Aborted
  end.

(** What [recv] does then, and what it leaves of the script. *)
Definition recv_at (h : halt) (rest : list rx) : outcome (list Byte.byte) * list rx :=
  match h with
  | Quiet => (Raise SocketTimeout, rest)
  | Ended => (Ret [], Eof :: rest)
  | Broken => (Raise ConnectionError, Aborted :: rest)
  end.

(** ** Failing sends and the held lock *)

(** A send that did not go through. *)
Definition failed_send (e : event) : bool :=
  match e with
  | ESend _ _ (Failed _) => true
  | _ => false
  end.

(** No [sendall] on [sock] can go through any more: the server has
    closed the socket, or the connection is down for good. *)
Definition unreachable (env : environment) (sock : socket) (s : GameServer) : Prop :=
  closed sock s = true \/ forall tr, sendall_ok env tr sock = false.

(** The lock and the registry are as they were. *)
Definition keeps_lock (s s' : GameServer) : Prop :=
  lock s' = lock s /\ clients s' = clients s.

(** ** The types of the messages that the host sends *)

(** The types of the messages that the code of [GameServer] makes. *)
Definition catalog : list string :=
  ["welcome"; "player_joined"; "player_left"; "player_attack";
   "enemy_died"; "enemy_damaged"; "item_picked_up"; "game_state"].

(** An event that is no send, or the send of a message of the
    catalog. *)
Definition in_catalog (e : event) : Prop :=
  match e with
  | ESend _ m _ => type m ∈ catalog
  | _ => True
  end.

(** [s'] comes after [s], with sends of the catalog only. *)
Definition sends_catalog (s s' : GameServer) : Prop :=
  exists evs, trace s' = trace s ++ evs /\ Forall in_catalog evs.

(** No condition on the state. *)
Definition anyhow (s : GameServer) : Prop := True.

(** ** class GameClient

    The client side, embedded like the host side: a record of the
    fields of [GameClient], a state-and-exception monad over it, and a
    ghost trace of what the client does to its lock, to the network and
    to the callbacks registered with it. *)

Module Client.

Abbreviation handle := socket.
#[local] Abbreviation host_environment := environment.

(** A registered callback is a handle on a function of the game. *)
Definition callback := nat.

Inductive event :=
| ELock
| EUnlock
| EConnect (sock : handle) (host : string) (port : Z) (connected : bool)
| ESendall (sock : handle) (bytes : list Byte.byte) (delivered : bool)
| EClose (sock : handle)
| ECall (cb : callback) (payload : pyval)
| EThread.

Global Instance event_eq_dec : EqDecision event.
Proof. solve_decision. Defined.

(** The fields of [GameClient], followed by what stands for its
    environment: the bytes still to arrive on each socket it made, the
    number of sockets made so far (a new socket object is a new
    handle), and the trace. *)
Record GameClient := {
  socket : option handle;
  connected : bool;
  player_id : pyval;
  game_state : pyval;
  lock : bool;
  message_callbacks : gmap string (list callback);
  inbox : gmap handle (list rx);
  made : nat;
  trace : list event
}.

(** [GameClient.__init__] *)
Definition init : GameClient := {|
  socket := None;
  connected := false;
  player_id := VNone;
  game_state := VDict ∅;
  lock := false;
  message_callbacks := ∅;
  inbox := ∅;
  made := 0;
  trace := []
|}.

Definition set_socket (v : option handle) (c : GameClient) : GameClient :=
  {| socket := v; connected := connected c; player_id := player_id c;
     game_state := game_state c; lock := lock c;
     message_callbacks := message_callbacks c; inbox := inbox c;
     made := made c; trace := trace c |}.

Definition set_connected (v : bool) (c : GameClient) : GameClient :=
  {| socket := socket c; connected := v; player_id := player_id c;
     game_state := game_state c; lock := lock c;
     message_callbacks := message_callbacks c; inbox := inbox c;
     made := made c; trace := trace c |}.

Definition set_player_id (v : pyval) (c : GameClient) : GameClient :=
  {| socket := socket c; connected := connected c; player_id := v;
     game_state := game_state c; lock := lock c;
     message_callbacks := message_callbacks c; inbox := inbox c;
     made := made c; trace := trace c |}.

Definition set_game_state (v : pyval) (c : GameClient) : GameClient :=
  {| socket := socket c; connected := connected c; player_id := player_id c;
     game_state := v; lock := lock c;
     message_callbacks := message_callbacks c; inbox := inbox c;
     made := made c; trace := trace c |}.

Definition set_lock (v : bool) (c : GameClient) : GameClient :=
  {| socket := socket c; connected := connected c; player_id := player_id c;
     game_state := game_state c; lock := v;
     message_callbacks := message_callbacks c; inbox := inbox c;
     made := made c; trace := trace c |}.

Definition set_message_callbacks (v : gmap string (list callback)) (c : GameClient)
  : GameClient :=
  {| socket := socket c; connected := connected c; player_id := player_id c;
     game_state := game_state c; lock := lock c;
     message_callbacks := v; inbox := inbox c;
     made := made c; trace := trace c |}.

Definition set_inbox (v : gmap handle (list rx)) (c : GameClient) : GameClient :=
  {| socket := socket c; connected := connected c; player_id := player_id c;
     game_state := game_state c; lock := lock c;
     message_callbacks := message_callbacks c; inbox := v;
     made := made c; trace := trace c |}.

Definition set_made (v : nat) (c : GameClient) : GameClient :=
  {| socket := socket c; connected := connected c; player_id := player_id c;
     game_state := game_state c; lock := lock c;
     message_callbacks := message_callbacks c; inbox := inbox c;
     made := v; trace := trace c |}.

Definition add_events (evs : list event) (c : GameClient) : GameClient :=
  {| socket := socket c; connected := connected c; player_id := player_id c;
     game_state := game_state c; lock := lock c;
     message_callbacks := message_callbacks c; inbox := inbox c;
     made := made c; trace := trace c ++ evs |}.

Definition log (e : event) (c : GameClient) : GameClient := add_events [e] c.

(** The monad of client code. *)
Definition M (A : Type) : Type := GameClient -> outcome A * GameClient.

Definition ret {A} (a : A) : M A := fun c => (Ret a, c).

Definition raise {A} (e : exn) : M A := fun c => (Raise e, c).

Definition bind {A B} (m : M A) (k : A -> M B) : M B := fun c =>
  match m c with
  | (Ret a, c') => k a c'
  | (Raise e, c') => (Raise e, c')
  | (Block, c') => (Block, c')
  end.

Declare Scope client_scope.
Notation "'let!' x ':=' m 'in' k" := (bind m (fun x => k))
  (at level 10, x pattern, m at level 100, k at level 200,
   format "'[v' 'let!'  x  ':='  m  'in' '/' k ']'") : client_scope.
#[local] Open Scope client_scope.

Definition gets {A} (f : GameClient -> A) : M A := fun c => (Ret (f c), c).

Definition modify (f : GameClient -> GameClient) : M unit := fun c => (Ret tt, f c).

Definition lift {A} (r : result A) : M A :=
  match r with
  | Ok a => ret a
  | Err e => raise e
  end.

Definition when (b : bool) (m : M unit) : M unit := if b then m else ret tt.

Definition try_except {A} (m : M A) (h : exn -> M A) : M A := fun c =>
  match m c with
  | (Raise e, c') => h e c'
  | r => r
  end.

Fixpoint for_each {A} (xs : list A) (f : A -> M unit) : M unit :=
  match xs with
  | [] => ret tt
  | x :: xs' => let! _ := f x in for_each xs' f
  end.

(** [with self.lock: body]; the client's lock is a [threading.Lock]
    too. *)
Definition with_lock {A} (body : M A) : M A := fun c =>
  if lock c then (Block, c)
  else
    match body (log ELock (set_lock true c)) with
    | (Block, c') => (Block, c')
    | (r, c') => (r, log EUnlock (set_lock false c'))
    end.

Definition closed (sock : handle) (c : GameClient) : bool :=
  bool_decide (EClose sock ∈ trace c).

(** [self.socket.recv(n)].  Before [connect] there is no socket, and
    the attribute access on [None] raises. *)
Definition recv (n : nat) : M (list Byte.byte) := fun c =>
  match socket c with
  | None => (Raise AttributeError, c)
  | Some sock =>
      if closed sock c then (Raise ConnectionError, c)
      else
        let '(r, script) := take_rx n (default [] (inbox c !! sock)) in
        lift r (set_inbox (<[sock := script]> (inbox c)) c)
  end.

(** The body loop of [_receive_message]. *)
Equations? recv_loop (size : nat) (data : list Byte.byte)
  (c : GameClient) : outcome (option (list Byte.byte)) * GameClient
  by wf (size - length data)%nat lt :=
recv_loop size data c with lt_dec (length data) size := {
  | right _ => (Ret (Some data), c)
  | left Hlt with recv (Nat.min (size - length data) 4096) c := {
      | (Ret [], c') => (Ret None, c')
      | (Ret (b :: bs), c') => recv_loop size (data ++ b :: bs) c'
      | (Raise e, c') => (Raise e, c')
      | (Block, c') => (Block, c') } }.
Proof. rewrite length_app; simpl; lia. Qed.

(** The environment of the client: the pickle library and the clock
    (as for the host), whether a [connect] and a [sendall] go through
    after a given history, and the exception, if any, with which a
    callback ends on a payload.  The callbacks are taken not to call
    back into the client (those that [game.py] registers do not). *)
Record environment := {
  wire : host_environment;
  connect_ok : list event -> string -> Z -> bool;
  sendall_ok : list event -> handle -> bool;
  callback_raises : callback -> pyval -> option exn
}.

Section Peer.
Context (env : environment).

(** [connect(host, port)]; the callers leave [port] to its default,
    [DEFAULT_PORT]. *)
Definition connect (host : string) (port : Z) : M bool :=
  try_except
    (let! sock := gets made in
     let! _ := modify (fun c => set_socket (Some sock) (set_made (S sock) c)) in
     let! _ := (fun c =>
                  if connect_ok env (trace c) host port
                  then (Ret tt, log (EConnect sock host port true) c)
                  else (Raise ConnectionError, log (EConnect sock host port false) c)) in
     let! _ := modify (set_connected true) in
     let! _ := modify (log EThread) in
     ret true)
    (fun _ => ret false).

Definition disconnect : M unit :=
  let! _ := modify (set_connected false) in
  let! so := gets socket in
  match so with
  | Some sock => modify (log (EClose sock))
  | None => ret tt
  end.

(** [self.socket.sendall(bytes)] *)
Definition sendall (sock : handle) (bytes : list Byte.byte) : M unit := fun c =>
  if negb (closed sock c) && sendall_ok env (trace c) sock
  then (Ret tt, log (ESendall sock bytes true) c)
  else (Raise ConnectionError, log (ESendall sock bytes false) c).

Definition send_message (message : NetworkMessage) : M unit :=
  let! up := gets connected in
  let! so := gets socket in
  match so with
  | Some sock =>
      if up : bool then
        try_except
          (let! bytes := lift (frame (wire env) message) in
           sendall sock bytes)
          (fun _ => modify (set_connected false))
      else ret tt
  | None => ret tt
  end.

Definition _receive_message : M (option NetworkMessage) :=
  let! size_data := recv 4 in
  if (length size_data <? 4)%nat then ret None
  else
    let size := from_bytes size_data in
    let! body := recv_loop (Z.to_nat size) [] in
    match body with
    | None => ret None
    | Some payload =>
        match pickle_loads (wire env) payload with
        | Some message => ret (Some message)
        | None => raise UnpicklingError
        end
    end.

(** [callback(message.data)] *)
Definition call (payload : pyval) (cb : callback) : M unit := fun c =>
  (match callback_raises env cb payload with
   | None => Ret tt
   | Some e => Raise e
   end, log (ECall cb payload) c).

Definition _process_message (message : NetworkMessage) : M unit :=
  with_lock (
    let! _ :=
      if bool_decide (type message = "welcome") then
        let! pid := lift (Py.getitem (data message) (VStr "player_id")) in
        let! _ := modify (set_player_id pid) in
        let! gs := lift (Py.getitem (data message) (VStr "game_state")) in
        modify (set_game_state gs)
      else if bool_decide (type message = "game_state") then
        modify (set_game_state (data message))
      else ret tt in
    let! cbs := gets message_callbacks in
    match cbs !! type message with
    | Some callbacks => for_each callbacks (call (data message))
    | None => ret tt
    end).

(** The [try] statement in the loop of [_receive_loop]. *)
Definition receive_loop_step : M loop_control :=
  try_except
    (let! received := _receive_message in
     match received with
     | None => ret Break
     | Some message =>
         let! _ := _process_message message in
         ret Continue
     end)
    (fun e => if bool_decide (e = SocketTimeout) then ret Continue else ret Break).

(** The loop of [_receive_loop], run for at most [n] iterations. *)
Fixpoint receive_loop (n : nat) : M thread_state :=
  match n with
  | O => ret Looping
  | S n' =>
      let! up := gets connected in
      if up : bool then
        let! ctl := receive_loop_step in
        match ctl with
        | Continue => receive_loop n'
        | Break => ret Finished
        end
      else ret Finished
  end.

Definition _receive_loop (n : nat) : M thread_state :=
  let! st := receive_loop n in
  match st with
  | Finished => let! _ := modify (set_connected false) in ret Finished
  | Looping => ret Looping
  end.

Definition register_callback (message_type : string) (cb : callback) : M unit :=
  let! cbs := gets message_callbacks in
  let! _ := when (negb (bool_decide (is_Some (cbs !! message_type))))
              (modify (fun c =>
                 set_message_callbacks (<[message_type := []]> (message_callbacks c)) c)) in
  let! cbs := gets message_callbacks in
  match cbs !! message_type with
  | Some callbacks =>
      modify (set_message_callbacks (<[message_type := callbacks ++ [cb]]> cbs))
  | None => raise KeyError
  end.

(** [get_game_state]: [self.game_state.copy()], which the values that
    are neither dictionaries nor lists do not have. *)
Definition get_game_state : M pyval :=
  with_lock (
    let! gs := gets game_state in
    match gs with
    | VDict d => ret (VDict d)
    | VList l => ret (VList l)
    | _ => raise AttributeError
    end).

End Peer.

(** The callbacks that ran, with their payloads, in order. *)
Definition calls (evs : list event) : list (callback * pyval) :=
  omap (fun e => match e with
                 | ECall cb payload => Some (cb, payload)
                 | _ => None
                 end) evs.

(** The bytes that went out. *)
Definition sent (evs : list event) : list (list Byte.byte) :=
  omap (fun e => match e with
                 | ESendall _ bytes true => Some bytes
                 | _ => None
                 end) evs.

Definition emitted (c c' : GameClient) : list event :=
  drop (length (trace c)) (trace c').

End Client.

(** ** game.py: the callbacks on departures and pickups

    Of [class Game], the two dictionaries that these callbacks touch;
    what a player and a world item are does not matter to them. *)

Module Game.
Section callbacks.
Context {Player WorldItem : Type}.

Record Game := {
  players : gmap pykey Player;
  world_items : gmap pykey WorldItem
}.

Definition _on_player_left (data : pyval) (g : Game) : result Game :=
  match Py.getitem data (VStr "player_id") with
  | Err e => Err e
  | Ok player_id =>
      match Py.to_key player_id with
      | Err e => Err e
      | Ok k =>
          if bool_decide (is_Some (players g !! k))
          then Ok {| players := delete k (players g); world_items := world_items g |}
          else Ok g
      end
  end.

Definition _on_item_picked_up (data : pyval) (g : Game) : result Game :=
  match Py.getitem data (VStr "item_id") with
  | Err e => Err e
  | Ok item_id =>
      match Py.to_key item_id with
      | Err e => Err e
      | Ok k =>
          if bool_decide (is_Some (world_items g !! k))
          then Ok {| players := players g; world_items := delete k (world_items g) |}
          else Ok g
      end
  end.

End callbacks.
Arguments Game : clear implicits.
End Game.

(** ** More servers, and a client, to run the code on *)

Module Cases.

(** Damage without the id of the enemy. *)
Definition blind : NetworkMessage :=
  {| type := "enemy_damage";
     data := VDict {[ KStr "damage" := VInt 20 ]};
     timestamp := 0 |}.

(** The welcome that the example server sends to a third session. *)
Definition welcome2 : NetworkMessage :=
  {| type := "welcome";
     data := VDict {[ KStr "player_id" := VInt 2;
                      KStr "game_state" := VDict (game_state Example.server) ]};
     timestamp := 2 |}.

(** A welcome without the snapshot. *)
Definition bare_welcome : NetworkMessage :=
  {| type := "welcome";
     data := VDict {[ KStr "player_id" := VInt 2 ]};
     timestamp := 2 |}.

Definition state_message : NetworkMessage :=
  {| type := "game_state"; data := VDict (game_state Example.server); timestamp := 5 |}.

(** A pickle that writes the type tag, and reads back one message for
    each of four tags. *)
Definition loads (bs : list Byte.byte) : option NetworkMessage :=
  if decide (bs = Example.tag_bytes "player_update") then Some Example.hello
  else if decide (bs = Example.tag_bytes "enemy_damage") then Some blind
  else if decide (bs = Example.tag_bytes "welcome") then Some welcome2
  else if decide (bs = Example.tag_bytes "game_state") then Some state_message
  else None.

Definition env : environment := {|
  pickle_dumps := pickle_dumps Example.env;
  pickle_loads := loads;
  sendall_ok := fun _ _ => true;
  time_time := time_time Example.env
|}.

(** The same, with the peer of socket 11 gone. *)
Definition env_one_down : environment := {|
  pickle_dumps := pickle_dumps Example.env;
  pickle_loads := loads;
  sendall_ok := fun _ sock => bool_decide (sock <> 11%nat);
  time_time := time_time Example.env
|}.

Definition payload_of (m : NetworkMessage) : list Byte.byte :=
  default [] (pickle_dumps env m).

Definition header_of (m : NetworkMessage) : list Byte.byte :=
  take 4 (Example.frame_of m).

(** The example server with an item in the world. *)
Definition stocked : GameServer :=
  set_game_state
    (<[KStr "items" := VDict {[ KInt 5 := VStr "potion" ]}]> (game_state Example.server))
    Example.server.

Definition pickup : NetworkMessage :=
  {| type := "pickup_item";
     data := VDict {[ KStr "item_id" := VInt 5 ]};
     timestamp := 0 |}.

(** Silence on socket 10, then [hello]. *)
Definition quiet : GameServer :=
  set_inbox {[ 10%nat := [Silence; Chunk (Example.frame_of Example.hello)] ]}
    Example.server.


(** A frame that decodes to [blind] on socket 10. *)
Definition misled : GameServer :=
  set_inbox {[ 10%nat := [Chunk (Example.frame_of blind)] ]} Example.server.

(** A client: callback 7 returns, callback 9 raises. *)
Definition peer_env : Client.environment := {|
  Client.wire := env;
  Client.connect_ok := fun _ _ _ => true;
  Client.sendall_ok := fun _ _ => true;
  Client.callback_raises := fun cb _ => if decide (cb = 9%nat) then Some KeyError else None
|}.

(** A connected client on its first socket, with callback 7 registered
    for [welcome], callbacks 7 and 9 for [player_left] and callback 9
    for [enemy_damage]. *)
Definition peer : Client.GameClient :=
  Client.set_message_callbacks
    {[ "welcome" := [7%nat]; "player_left" := [7%nat; 9%nat];
       "enemy_damage" := [9%nat] ]}
    (Client.set_connected true
       (Client.set_socket (Some 0%nat) (Client.set_made 1 Client.init))).

(** The same, with a frame from the host on the way. *)
Definition hearing (m : NetworkMessage) : Client.GameClient :=
  Client.set_inbox {[ 0%nat := [Chunk (take 6 (Example.frame_of m));
                                Chunk (drop 6 (Example.frame_of m))] ]} peer.

(** The same, at the end of the stream. *)
Definition parting : Client.GameClient :=
  Client.set_inbox {[ 0%nat := [Eof] ]} peer.

(** The [player_left] that the example server sends when session 0
    goes, and the [item_picked_up] that it sends when session 0 picks
    up item 5. *)
Definition left0 : NetworkMessage :=
  {| type := "player_left"; data := id_payload 0; timestamp := 2 |}.

Definition picked5 : NetworkMessage :=
  {| type := "item_picked_up";
     data := VDict {[ KStr "item_id" := VInt 5; KStr "player_id" := VInt 0 ]};
     timestamp := 1 |}.

(** A game with two players and two items in the world. *)
Definition game : Game.Game string string :=
  {| Game.players := {[ KInt 0 := "knight"; KInt 1 := "ranger" ]};
     Game.world_items := {[ KInt 5 := "potion"; KInt 6 := "sword" ]} |}.

Definition left1 : NetworkMessage :=
  {| type := "player_left"; data := id_payload 1; timestamp := 3 |}.

End Cases.


(** * Properties *)

(** ** The monad *)

Lemma add_events_nil s : add_events [] s = s.
Proof. destruct s; unfold add_events; simpl. by rewrite app_nil_r. Qed.

Lemma add_events_app evs1 evs2 s :
  add_events evs2 (add_events evs1 s) = add_events (evs1 ++ evs2) s.
Proof. unfold add_events; simpl. by rewrite app_assoc. Qed.

Lemma emitted_add_events evs s : emitted s (add_events evs s) = evs.
Proof. unfold emitted; simpl. by rewrite drop_app_length. Qed.

Lemma with_lock_held {A} (body : M A) s :
  lock s = true -> with_lock body s = (Block, s).
Proof. intros H. unfold with_lock. by rewrite H. Qed.

Lemma with_lock_free {A} (body : M A) s :
  lock s = false ->
  with_lock body s =
    match body (log ELock (set_lock true s)) with
    | (Block, s') => (Block, s')
    | (r, s') => (r, log EUnlock (set_lock false s'))
    end.
Proof. intros H. unfold with_lock. by rewrite H. Qed.

Lemma bind_ret {A B} (a : A) (k : A -> M B) : bind (ret a) k = k a.
Proof. done. Qed.

Lemma bind_lift_Ok {A B} (a : A) (k : A -> M B) : bind (lift (Ok a)) k = k a.
Proof. done. Qed.

Lemma bind_lift_Err {A B} e (k : A -> M B) : bind (lift (Err e)) k = raise e.
Proof. done. Qed.

Lemma bind_gets {A B} (f : GameServer -> A) (k : A -> M B) s :
  bind (gets f) k s = k (f s) s.
Proof. done. Qed.

Lemma bind_modify {B} f (k : unit -> M B) s : bind (modify f) k s = k tt (f s).
Proof. done. Qed.

Lemma bind_new_message {B} env t p (k : NetworkMessage -> M B) s :
  bind (new_message env t p) k s =
    k {| type := t; data := p; timestamp := time_time env (trace s) |} s.
Proof. done. Qed.

Lemma bind_state_get_default {B} key (k : pyval -> M B) s :
  bind (state_get_default key) k s =
    k (default (VDict ∅) (game_state s !! KStr key)) s.
Proof. done. Qed.

Lemma bind_state_get {B} key (k : pyval -> M B) s v :
  game_state s !! KStr key = Some v -> bind (state_get key) k s = k v s.
Proof. intros H. unfold state_get, bind, gets. simpl. by rewrite H. Qed.

Lemma bind_state_set {B} key v (k : unit -> M B) s :
  bind (state_set key v) k s =
    k tt (set_game_state (<[KStr key := v]> (game_state s)) s).
Proof. done. Qed.

(** ** Ordered dictionaries *)

Section ordered_facts.
Context {V : Type}.
Implicit Types d : OrdDict.t V.

Lemma lookup_del d k : OrdDict.lookup (OrdDict.del d k) k = None.
Proof.
  induction d as [|[k' v] d IH]; [done|].
  unfold OrdDict.del in *. rewrite filter_cons. simpl.
  destruct (decide (k' <> k)) as [Hne|Heq]; simpl; [|done].
  by rewrite decide_False.
Qed.

Lemma lookup_None_keys d k : OrdDict.lookup d k = None <-> k ∉ d.*1.
Proof.
  induction d as [|[k' v] d IH]; simpl.
  - split; [intros _; apply not_elem_of_nil | done].
  - destruct (decide (k' = k)) as [->|Hne].
    + split; [done | intros H; exfalso; apply H; left].
    + rewrite IH. rewrite not_elem_of_cons. split; [|by intros [_ ?]].
      intros ?. split; [congruence|done].
Qed.

Lemma lookup_Some_elem d k v : OrdDict.lookup d k = Some v -> (k, v) ∈ d.
Proof.
  induction d as [|[k' v'] d IH]; simpl; [done|].
  destruct (decide (k' = k)) as [->|Hne].
  - intros [= ->]. left.
  - intros H. right. by apply IH.
Qed.

Lemma del_sublist d k : sublist (OrdDict.del d k) d.
Proof. apply sublist_filter. Qed.

Lemma sublist_lookup_None d d' k :
  sublist d' d -> OrdDict.lookup d k = None -> OrdDict.lookup d' k = None.
Proof.
  rewrite !lookup_None_keys. intros Hsub Hk Hin. apply Hk.
  eapply elem_of_sublist; [done|]. by apply fmap_sublist.
Qed.

Lemma set_fresh d k v : k ∉ d.*1 -> OrdDict.set d k v = d ++ [(k, v)].
Proof.
  induction d as [|[k' v'] d IH]; simpl; [done|].
  rewrite not_elem_of_cons. intros [Hne Hk].
  rewrite decide_False by done. by rewrite IH.
Qed.
End ordered_facts.

(** ** Composition of steps *)

Section logic.
Context {P : GameServer -> Prop} {R : GameServer -> GameServer -> Prop}.
Context `{!Frame P R}.

Lemma ok_ret {A} (a : A) s : ok P R (ret a) s.
Proof. intros _. apply frame_refl. Qed.

Lemma ok_raise {A} e s : ok P R (@raise A e) s.
Proof. intros _. apply frame_refl. Qed.

Lemma ok_lift {A} (r : result A) s : ok P R (lift r) s.
Proof. destruct r; [apply ok_ret | apply ok_raise]. Qed.

Lemma ok_gets {A} (f : GameServer -> A) s : ok P R (gets f) s.
Proof. intros _. apply frame_refl. Qed.

Lemma ok_bind {A B} (m : M A) (k : A -> M B) s :
  ok P R m s ->
  (forall a, (m s).1 = Ret a -> ok P R (k a) (m s).2) ->
  ok P R (bind m k) s.
Proof.
  intros Hm Hk Hsub. specialize (Hm Hsub). unfold bind.
  destruct (m s) as [[a|e|] s1] eqn:E; simpl in *; [|done..].
  eapply frame_trans; [done|]. apply Hk; [done|]. by eapply frame_pre.
Qed.

Lemma ok_pre {A} (m : M A) s : (P s -> ok P R m s) -> ok P R m s.
Proof. intros H Hsub. by apply H. Qed.

Lemma ok_modify f s : R s (f s) -> ok P R (modify f) s.
Proof. by intros H _. Qed.

Lemma ok_when (b : bool) m s : (b = true -> ok P R m s) -> ok P R (when b m) s.
Proof. destruct b; simpl; [auto | intros _; apply ok_ret]. Qed.

Lemma ok_try_except {A} (m : M A) h s :
  ok P R m s ->
  (forall e, (m s).1 = Raise e -> ok P R (h e) (m s).2) ->
  ok P R (try_except m h) s.
Proof.
  intros Hm Hh Hsub. specialize (Hm Hsub). unfold try_except.
  destruct (m s) as [[a|e|] s1] eqn:E; simpl in *; [done| |done].
  eapply frame_trans; [done|]. apply Hh; [done|]. by eapply frame_pre.
Qed.

Lemma ok_for_each {A} (xs : list A) (f : A -> M unit) s :
  (forall x s', x ∈ xs -> ok P R (f x) s') -> ok P R (for_each xs f) s.
Proof.
  revert s. induction xs as [|x xs IH]; intros s Hf; simpl.
  - apply ok_ret.
  - apply ok_bind.
    + apply Hf. left.
    + intros _ _. apply IH. intros y s' Hy. apply Hf. by right.
Qed.

Lemma ok_state_set key v s : ok P R (state_set key v) s.
Proof. apply ok_modify, frame_game_state. Qed.

Lemma ok_state_get key s : ok P R (state_get key) s.
Proof.
  unfold state_get. apply ok_bind; [apply ok_gets|]. intros gs _.
  destruct (gs !! KStr key); [apply ok_ret | apply ok_raise].
Qed.

Lemma ok_state_get_default key s : ok P R (state_get_default key) s.
Proof.
  unfold state_get_default. apply ok_bind; [apply ok_gets|]. intros gs _.
  apply ok_ret.
Qed.

Lemma ok_recv sock n s : ok P R (recv sock n) s.
Proof.
  intros _. unfold recv. destruct (closed sock s); [apply frame_refl|].
  destruct (take_rx _ _) as [[bs|e] script]; simpl; apply frame_inbox.
Qed.

Lemma ok_recv_loop sock size payload s : ok P R (recv_loop sock size payload) s.
Proof.
  unfold ok. funelim (recv_loop sock size payload s); intros Hsub.
  all: try rewrite <- Heqcall; simpl.
  all: try match goal with
    | H : recv ?k ?n ?s = (_, ?s') |- _ =>
        assert (Hr : R s s') by
          (pose proof (ok_recv k n s Hsub) as Hw; by rewrite H in Hw)
    end.
  all: try done.
  - apply frame_refl.
  - eapply frame_trans; [done|]. apply H. by eapply frame_pre.
Qed.

Lemma ok_receive_from_client env sock s : ok P R (_receive_from_client env sock) s.
Proof.
  unfold _receive_from_client. apply ok_bind; [apply ok_recv|].
  intros size_data _. destruct (_ <? _)%nat; [apply ok_ret|].
  apply ok_bind; [apply ok_recv_loop|]. intros [payload|] _; [|apply ok_ret].
  destruct (pickle_loads env payload); [apply ok_ret | apply ok_raise].
Qed.

Lemma ok_bind_new_message {B} env t p (k : NetworkMessage -> M B) s :
  (forall m, type m = t -> data m = p -> ok P R (k m) s) ->
  ok P R (bind (new_message env t p) k) s.
Proof. intros H. by apply H. Qed.

Lemma ok_update_game_state_body u s :
  ok P R (modify (fun s => set_game_state (u ∪ game_state s) s)) s.
Proof. apply ok_modify, frame_game_state. Qed.

Lemma ok_start s : ok P R start s.
Proof. apply ok_modify, frame_running. Qed.
End logic.

(** ** Staying within a registry *)

Section bounds.
Context (cs : OrdDict.t socket).

Lemma in_registry_refl s : in_registry (clients s) s.
Proof. unfold in_registry. done. Qed.

Lemma within_refl s : within cs s s.
Proof.
  split; [done..|]. exists []. by rewrite app_nil_r.
Qed.

Lemma within_trans s1 s2 s3 : within cs s1 s2 -> within cs s2 s3 -> within cs s1 s3.
Proof.
  intros [Hn1 Hc1 (evs1 & Ht1 & Hf1)] [Hn2 Hc2 (evs2 & Ht2 & Hf2)].
  split.
  - congruence.
  - by etrans.
  - exists (evs1 ++ evs2). rewrite Ht2, Ht1, app_assoc. split; [done|].
    by apply Forall_app.
Qed.

Lemma within_sub s s' : within cs s s' -> in_registry cs s -> in_registry cs s'.
Proof. unfold in_registry. intros [_ H _] ?. by etrans. Qed.

Lemma within_add_events evs s :
  Forall (event_within cs) evs -> within cs s (add_events evs s).
Proof. intros H. split; [done..|]. by exists evs. Qed.

Lemma within_set_lock b s : within cs s (set_lock b s).
Proof. split; [done..|]. exists []. by rewrite app_nil_r. Qed.

Lemma within_set_clients c s : sublist c (clients s) -> within cs s (set_clients c s).
Proof. intros H. split; [done..|]. exists []. by rewrite app_nil_r. Qed.

Global Instance within_frame : Frame (in_registry cs) (within cs).
Proof.
  split.
  - apply within_refl.
  - apply within_trans.
  - apply within_sub.
  - intros. split; [done..|]. exists []. by rewrite app_nil_r.
  - intros. split; [done..|]. exists []. by rewrite app_nil_r.
  - intros. split; [done..|]. exists []. by rewrite app_nil_r.
  - intros. split; [done..|]. exists []. by rewrite app_nil_r.
Qed.

Lemma bounded_with_lock {A} (body : M A) s :
  (forall s1, ok (in_registry cs) (within cs) body s1) ->
  ok (in_registry cs) (within cs) (with_lock body) s.
Proof.
  intros Hb Hsub. unfold with_lock. destruct (lock s); [apply within_refl|].
  set (s1 := log ELock (set_lock true s)).
  assert (H1 : within cs s s1).
  { eapply within_trans; [apply (within_set_lock true)|].
    apply within_add_events. by repeat constructor. }
  specialize (Hb s1 (within_sub _ _ H1 Hsub)).
  destruct (body s1) as [[a|e|] s2]; simpl in *.
  - eapply within_trans; [done|]. eapply within_trans; [done|].
    eapply within_trans; [apply (within_set_lock false)|].
    apply within_add_events. by repeat constructor.
  - eapply within_trans; [done|]. eapply within_trans; [done|].
    eapply within_trans; [apply (within_set_lock false)|].
    apply within_add_events. by repeat constructor.
  - by eapply within_trans.
Qed.
End bounds.
(** Steps through the code of a method, one statement at a time;
    [special] takes care of the statements whose bound depends on the
    frame. *)
Ltac ok_step special :=
  lazymatch goal with
  | |- ok _ _ (ret _) _ => apply ok_ret
  | |- ok _ _ (raise _) _ => apply ok_raise
  | |- ok _ _ (lift _) _ => apply ok_lift
  | |- ok _ _ (gets _) _ => apply ok_gets
  | |- ok _ _ (state_set _ _) _ => apply ok_state_set
  | |- ok _ _ (state_get _) _ => apply ok_state_get
  | |- ok _ _ (state_get_default _) _ => apply ok_state_get_default
  | |- ok _ _ (when _ _) _ => apply ok_when; intros ?
  | |- ok _ _ (bind (new_message _ _ _) _) _ =>
      apply ok_bind_new_message; intros ? ? ?
  | |- ok _ _ (bind _ _) _ => apply ok_bind; [|intros ? ?]
  | |- ok _ _ (if ?b then _ else _) _ => destruct b
  | |- _ => special
  end.

(** ** What the server's methods stay within *)

Section host_bounds.
Context (env : environment) (cs : OrdDict.t socket).

#[local] Abbreviation bounded := (ok (in_registry cs) (within cs)).

Lemma reg_log e s : event_within cs e -> bounded (modify (log e)) s.
Proof. intros H. apply ok_modify, within_add_events. by constructor. Qed.

Lemma reg_send_to_client sock m s :
  sock ∈ cs.*2 -> message_within cs m -> bounded (_send_to_client env sock m) s.
Proof.
  intros Hsock Hm _. unfold _send_to_client.
  destruct (frame env m); [|by apply within_add_events; repeat constructor].
  destruct (_ && _); by apply within_add_events; repeat constructor.
Qed.

Lemma reg_send_all items m exclude s :
  (forall c, c ∈ items -> c.2 ∈ cs.*2) -> message_within cs m ->
  bounded (send_all env items m exclude) s.
Proof.
  intros Hitems Hm. revert s.
  induction items as [|[p sock] items IH]; intros s; simpl.
  - apply ok_ret.
  - assert (Hrest : forall c, c ∈ items -> c.2 ∈ cs.*2).
    { intros c Hc. apply Hitems. by right. }
    case_bool_decide; [by apply IH|].
    apply ok_bind.
    + apply ok_try_except.
      * apply ok_bind; [|intros; apply ok_ret].
        apply reg_send_to_client; [|done]. apply (Hitems (p, sock)). left.
      * intros; apply ok_ret.
    + intros dead _. apply ok_bind; [by apply IH|]. intros; apply ok_ret.
Qed.

Lemma reg_broadcast_with (f : Z -> M unit) m exclude s :
  message_within cs m -> (forall p s', bounded (f p) s') ->
  bounded (broadcast_with env f m exclude) s.
Proof.
  intros Hm Hf. unfold broadcast_with. apply ok_pre. intros Hsub.
  apply ok_bind; [apply ok_gets|]. intros items [= <-]. simpl.
  apply ok_bind.
  - apply reg_send_all; [|done]. intros c Hc.
    apply (elem_of_sublist (clients s).*2); [|by apply fmap_sublist].
    apply list_elem_of_fmap. by exists c.
  - intros dead _. apply ok_for_each. auto.
Qed.

End host_bounds.

(** What [_remove_client] does once the session is unregistered: from
    the removal of the address to the broadcast of [player_left]. *)
Ltac reg_remove_rest player_id :=
  apply ok_bind; [apply ok_gets|]; intros ? _;
  apply ok_bind;
    [apply ok_when; intros _; apply ok_modify, frame_client_addresses|];
  intros _ _;
  apply ok_bind; [apply ok_state_get_default|]; intros ? _;
  apply ok_bind; [apply ok_lift|]; intros ? _;
  apply ok_bind;
    [apply ok_when; intros _; apply ok_bind; [apply ok_state_get|];
     intros ? _; apply ok_bind; [apply ok_lift|]; intros ? _;
     apply ok_state_set|];
  intros _ _; apply ok_bind_new_message; intros ? ? ?;
  apply reg_broadcast_with; [intros _; by exists player_id|].

Section host_bounds_methods.
Context (env : environment) (cs : OrdDict.t socket).

#[local] Abbreviation bounded := (ok (in_registry cs) (within cs)).

Lemma reg_remove_client_upto depth player_id s :
  bounded (remove_client_upto env depth player_id) s.
Proof.
  revert player_id s. induction depth as [|depth IH]; intros player_id s.
  all: simpl; apply bounded_with_lock; intros s1; apply ok_pre; intros Hsub.
  all: apply ok_bind; [apply ok_gets|]; intros items [= <-]; simpl.
  all: destruct (OrdDict.lookup (clients s1) player_id) as [sock|] eqn:Hl;
    [|apply ok_ret].
  all: assert (Hin : player_id ∈ cs.*1) by
    (apply (elem_of_sublist (clients s1).*1); [|by apply fmap_sublist];
     apply list_elem_of_fmap; exists (player_id, sock); split; [done|];
     by apply lookup_Some_elem).
  all: apply ok_bind; [by apply reg_log|]; intros _ _.
  all: apply ok_bind;
    [apply ok_modify, within_set_clients, del_sublist|]; intros _ _.
  all: reg_remove_rest player_id.
  - intros p s'. apply bounded_with_lock. intros; apply ok_ret.
  - intros p s'. apply IH.
Qed.

Lemma reg_remove_client player_id s : bounded (_remove_client env player_id) s.
Proof. apply reg_remove_client_upto. Qed.

Lemma reg_broadcast m exclude s :
  message_within cs m -> bounded (_broadcast env m exclude) s.
Proof.
  intros Hm. apply reg_broadcast_with; [done|]. intros; apply reg_remove_client.
Qed.

Ltac reg_special :=
  idtac;
  lazymatch goal with
  | |- ok _ _ (with_lock _) _ => apply bounded_with_lock; intros ?
  | |- ok _ _ (_broadcast _ _ _) _ =>
      apply reg_broadcast; unfold message_within; congruence
  | |- ok _ _ (_remove_client _ _) _ => apply reg_remove_client
  end.

Lemma reg_process_message player_id message s :
  bounded (_process_message env player_id message) s.
Proof. unfold _process_message. repeat ok_step reg_special. Qed.

Lemma reg_update_loop s : bounded (_update_loop env) s.
Proof. unfold _update_loop. repeat ok_step reg_special. Qed.

Lemma reg_update_game_state u s : bounded (update_game_state u) s.
Proof.
  unfold update_game_state. apply bounded_with_lock. intros.
  apply ok_update_game_state_body.
Qed.

Lemma reg_stop s : bounded stop s.
Proof.
  unfold stop. apply ok_bind; [apply ok_modify, frame_running|]. intros _ _.
  apply ok_bind; [apply ok_gets|]. intros items _.
  apply ok_for_each. intros; by apply reg_log.
Qed.

Lemma reg_handle_client_step player_id sock s :
  bounded (handle_client_step env player_id sock) s.
Proof.
  unfold handle_client_step. apply ok_try_except.
  - apply ok_bind; [apply ok_receive_from_client|].
    intros [message|] _; [|apply ok_ret].
    apply ok_bind; [apply reg_process_message|]. intros; apply ok_ret.
  - intros e _. case_bool_decide; apply ok_ret.
Qed.

Lemma reg_handle_client_loop n player_id sock s :
  bounded (handle_client_loop env n player_id sock) s.
Proof.
  revert s. induction n as [|n IH]; intros s; simpl; [apply ok_ret|].
  apply ok_bind; [apply ok_gets|]. intros go _. destruct go; [|apply ok_ret].
  apply ok_bind; [apply reg_handle_client_step|].
  intros [] _; [apply IH | apply ok_ret].
Qed.

Lemma reg_handle_client n player_id sock s :
  bounded (_handle_client env n player_id sock) s.
Proof.
  unfold _handle_client. apply ok_bind; [apply reg_handle_client_loop|].
  intros [] _; [|apply ok_ret].
  apply ok_bind; [apply reg_remove_client|]. intros; apply ok_ret.
Qed.

Lemma reg_accept_greet player_id sock s :
  sock ∈ cs.*2 -> bounded (accept_greet env player_id sock) s.
Proof.
  intros Hsock. unfold accept_greet.
  apply ok_bind; [apply ok_gets|]. intros gs _.
  apply ok_bind_new_message. intros welcome Ht _.
  apply ok_bind.
  { apply reg_send_to_client; [done|]. unfold message_within. congruence. }
  intros _ _. apply ok_bind_new_message. intros joined Ht' _.
  apply ok_bind.
  { apply reg_broadcast. unfold message_within. congruence. }
  intros _ _. by apply reg_log.
Qed.
End host_bounds_methods.

(** ** Steps and runs *)

Section runs.
Context (env : environment).

Lemma accept_register_full sock addr s :
  MAX_PLAYERS <= Z.of_nat (length (clients s)) ->
  accept_register sock addr s = (Ret None, log (EClose sock) s).
Proof.
  intros H. unfold accept_register, bind, gets. simpl.
  destruct (Z.leb_spec MAX_PLAYERS (Z.of_nat (length (clients s)))); [done|lia].
Qed.

Lemma accept_register_free sock addr s :
  Z.of_nat (length (clients s)) < MAX_PLAYERS -> lock s = false ->
  accept_register sock addr s = (Ret (Some (next_player_id s)), registered sock addr s).
Proof.
  intros H Hl. unfold accept_register, bind, gets. simpl.
  destruct (Z.leb_spec MAX_PLAYERS (Z.of_nat (length (clients s)))); [lia|].
  unfold modify, with_lock. simpl. rewrite Hl. simpl.
  unfold ret, registered, log, add_events, set_lock. simpl.
  destruct s; simpl in *. subst. do 2 f_equal. by rewrite <- app_assoc.
Qed.

Lemma accept_register_locked sock addr s :
  Z.of_nat (length (clients s)) < MAX_PLAYERS -> lock s = true ->
  accept_register sock addr s =
    (Block, set_next_player_id (next_player_id s + 1) s).
Proof.
  intros H Hl. unfold accept_register, bind, gets. simpl.
  destruct (Z.leb_spec MAX_PLAYERS (Z.of_nat (length (clients s)))); [lia|].
  unfold modify, with_lock. simpl. by rewrite Hl.
Qed.

Lemma registered_clients sock addr s :
  registry_ok s ->
  clients (registered sock addr s) = clients s ++ [(next_player_id s, sock)].
Proof.
  intros [_ Hb _]. simpl. apply set_fresh. intros Hin.
  rewrite Forall_forall in Hb. specialize (Hb _ Hin). lia.
Qed.

Lemma registry_ok_within cs s s' : within cs s s' -> registry_ok s -> registry_ok s'.
Proof.
  intros [Hn Hc _] [Hd Hb Hm]. split.
  - apply (sublist_NoDup _ (clients s).*1); [done|]. by apply fmap_sublist.
  - rewrite Hn. rewrite Forall_forall in Hb |- *. intros p Hp. apply Hb.
    eapply elem_of_sublist; [done|]. by apply (fmap_sublist _).
  - apply sublist_length in Hc. lia.
Qed.

(** What one step does to the registry and to the trace. *)
Lemma step_summary o s :
  registry_ok s ->
  let s' := step env o s in
  let u := clients s ++ extension o s in
  registry_ok s' /\
  next_player_id s <= next_player_id s' /\
  Forall (fun p => next_player_id s <= p < next_player_id s') (assigned o s) /\
  sublist (clients s') u /\
  exists evs, trace s' = trace s ++ evs /\ Forall (event_within u) evs.
Proof.
  intros Hok. destruct o as [| |sock addr|p|p m| |u0|n p sock];
    cbn [step extension assigned]; cbv zeta.
  3: {
    unfold _accept_connections, try_except, bind.
    destruct (Z.le_gt_cases MAX_PLAYERS (Z.of_nat (length (clients s)))) as [Hfull|Hroom].
    { rewrite accept_register_full by done. simpl. rewrite app_nil_r.
      assert (Hw : within (clients s) s (log (EClose sock) s))
        by (apply within_add_events; by repeat constructor).
      split_and!; [by eapply registry_ok_within|done|done|apply Hw|apply Hw]. }
    destruct (lock s) eqn:Hl.
    { rewrite accept_register_locked by done. simpl. rewrite app_nil_r.
      destruct Hok as [Hd Hb Hm]. split_and!; [split|..]; simpl; try done.
      - eapply Forall_impl; [done|]. simpl; intros; lia.
      - lia.
      - exists []. by rewrite app_nil_r. }
    rewrite accept_register_free by done. simpl.
    set (s1 := registered sock addr s).
    assert (Hc1 : clients s1 = clients s ++ [(next_player_id s, sock)])
      by by apply registered_clients.
    assert (Hok1 : registry_ok s1).
    { destruct Hok as [Hd Hb Hm]. split; rewrite ?Hc1.
      - rewrite fmap_app. apply NoDup_app. split_and!; [done| |apply NoDup_singleton].
        intros x Hx. simpl. rewrite list_elem_of_singleton. intros ->.
        rewrite Forall_forall in Hb. specialize (Hb _ Hx). lia.
      - rewrite fmap_app. apply Forall_app. split.
        + eapply Forall_impl; [done|]. simpl; intros; lia.
        + simpl. repeat constructor. lia.
      - rewrite length_app. simpl. lia. }
    assert (Hg : within (clients s1) s1 (accept_greet env (next_player_id s) sock s1).2).
    { apply reg_accept_greet; [|unfold in_registry; done]. rewrite Hc1, fmap_app. simpl.
      apply elem_of_app. right. left. }
    destruct (accept_greet env (next_player_id s) sock s1) as [[[]|e|] s2]; simpl in *.
    all: rewrite <- Hc1.
    all: destruct Hg as [Hn Hc (evs & Ht & Hf)].
    all: assert (Hw : within (clients s1) s1 s2) by (split; eauto).
    all: split_and!.
    all: try (by eapply registry_ok_within).
    all: try (rewrite Hn; simpl; lia).
    all: try (repeat constructor; rewrite ?Hn; simpl; lia).
    all: try done.
    all: exists ([ELock; EUnlock] ++ evs); split;
           [rewrite Ht; simpl; by rewrite <- app_assoc
           |apply Forall_app; split; [by repeat constructor|done]]. }
  all: rewrite app_nil_r.
  1: pose proof (ok_start (P := in_registry (clients s)) (R := within (clients s)) s (in_registry_refl s)) as Hw.
  2: pose proof (reg_stop (clients s) s (in_registry_refl s)) as Hw.
  3: pose proof (reg_remove_client env (clients s) p s (in_registry_refl s)) as Hw.
  4: pose proof (reg_process_message env (clients s) p m s (in_registry_refl s)) as Hw.
  5: pose proof (reg_update_loop env (clients s) s (in_registry_refl s)) as Hw.
  6: pose proof (reg_update_game_state (clients s) u0 s (in_registry_refl s)) as Hw.
  7: pose proof (reg_handle_client env (clients s) n p sock s (in_registry_refl s)) as Hw.
  all: split_and!; [by eapply registry_ok_within
                   | by rewrite (within_next _ _ _ Hw)
                   | done | apply Hw | apply Hw].
Qed.
End runs.

Section runs2.
Context (env : environment).

Lemma assigned_cases o s : assigned o s = [] \/ exists p, assigned o s = [p].
Proof.
  destruct o; simpl; auto.
  destruct (accept_register _ _ _).1 as [[p|]| |]; eauto.
Qed.

Lemma accepted_cons o ops x :
  x ∈ accepted ops -> x ∈ accepted (o :: ops).
Proof.
  unfold accepted. simpl. destruct o; simpl; auto. intros. by right.
Qed.

Lemma extension_elem o s c :
  c ∈ extension o s -> c.1 ∈ assigned o s /\ forall ops, c.2 ∈ accepted (o :: ops).
Proof.
  destruct o; simpl; try by intros ?%elem_of_nil.
  intros (p & -> & Hp)%list_elem_of_fmap. simpl. split; [done|].
  intros ops. unfold accepted. simpl. left.
Qed.

(** What a run does to the registry and to the trace. *)
Lemma run_summary ops s :
  registry_ok s ->
  let s' := run env ops s in
  registry_ok s' /\
  next_player_id s <= next_player_id s' /\
  StronglySorted Z.lt (assigned_ids env ops s) /\
  Forall (fun p => next_player_id s <= p < next_player_id s') (assigned_ids env ops s) /\
  (forall c, c ∈ clients s' ->
     c ∈ clients s \/ (c.1 ∈ assigned_ids env ops s /\ c.2 ∈ accepted ops)) /\
  exists evs, trace s' = trace s ++ evs /\ Forall (event_of_run s ops) evs.
Proof.
  revert s. induction ops as [|o ops IH]; intros s Hok; simpl.
  { split_and!; try done; [constructor | by left |].
    exists []. by rewrite app_nil_r. }
  destruct (step_summary env o s Hok) as (Hok1 & Hn1 & Ha1 & Hc1 & evs1 & Ht1 & Hf1).
  destruct (IH _ Hok1) as (Hok2 & Hn2 & Hs2 & Ha2 & Hc2 & evs2 & Ht2 & Hf2).
  fold (run env ops (step env o s)) in *.
  set (s1 := step env o s) in *. set (s2 := run env ops s1) in *.
  assert (Hin1 : forall c, c ∈ clients s1 ->
            c ∈ clients s \/ (c.1 ∈ assigned o s /\ c.2 ∈ accepted (o :: ops))).
  { intros c Hc. apply (elem_of_sublist _ _ _ Hc) in Hc1.
    apply elem_of_app in Hc1 as [?|He]; [by left|right].
    apply extension_elem in He as [? ?]. auto. }
  split_and!.
  - done.
  - lia.
  - destruct (assigned_cases o s) as [Hnil| [p Hp]]; [by rewrite Hnil|].
    rewrite Hp in *.
    simpl. constructor; [done|]. rewrite Forall_singleton in Ha1.
    eapply Forall_impl; [done|]. simpl; intros; lia.
  - apply Forall_app. split; (eapply Forall_impl; [done|]); simpl; intros; lia.
  - intros c Hc. destruct (Hc2 c Hc) as [H1|[H1 H2]].
    + destruct (Hin1 c H1) as [?|[? ?]]; [by left|right].
      split; [|done]. apply elem_of_app. by left.
    + right. split; [apply elem_of_app; by right | by apply accepted_cons].
  - exists (evs1 ++ evs2). rewrite Ht2, Ht1, app_assoc. split; [done|].
    apply Forall_app. split.
    + eapply Forall_impl; [done|]. intros [| |sock m r| |]; simpl; try done.
      intros [Hs Hm]. split.
      * apply list_elem_of_fmap in Hs as (c & -> & Hc).
        apply elem_of_app in Hc as [Hc|He].
        -- left. apply list_elem_of_fmap. by exists c.
        -- right. apply extension_elem in He as [_ He]. apply He.
      * intros Ht. destruct (Hm Ht) as (p & Hp & Hd). exists p. split; [done|].
        apply list_elem_of_fmap in Hp as (c & -> & Hc).
        apply elem_of_app in Hc as [Hc|He].
        -- left. apply list_elem_of_fmap. by exists c.
        -- right. apply extension_elem in He as [He _].
           rewrite Forall_forall in Ha1. specialize (Ha1 _ He). lia.
    + eapply Forall_impl; [done|]. intros [| |sock m r| |]; simpl; try done.
      intros [Hs Hm]. split.
      * destruct Hs as [Hs|Hs]; [|right; by apply accepted_cons].
        apply list_elem_of_fmap in Hs as (c & -> & Hc).
        destruct (Hin1 c Hc) as [?|[_ ?]]; [left|by right].
        apply list_elem_of_fmap. by exists c.
      * intros Ht. destruct (Hm Ht) as (p & Hd & Hp). exists p. split; [done|].
        destruct Hp as [Hp|Hp]; [|right; lia].
        apply list_elem_of_fmap in Hp as (c & -> & Hc).
        destruct (Hin1 c Hc) as [?|[He _]].
        -- left. apply list_elem_of_fmap. by exists c.
        -- right. rewrite Forall_forall in Ha1. specialize (Ha1 _ He). lia.
Qed.

Lemma registry_ok_init : registry_ok init.
Proof. split; simpl; [constructor|constructor|done]. Qed.

Lemma run_app ops1 ops2 s : run env (ops1 ++ ops2) s = run env ops2 (run env ops1 s).
Proof. apply fold_left_app. Qed.

Lemma assigned_ids_app ops1 ops2 s :
  assigned_ids env (ops1 ++ ops2) s =
  assigned_ids env ops1 s ++ assigned_ids env ops2 (run env ops1 s).
Proof.
  revert s. induction ops1 as [|o ops1 IH]; intros s; simpl; [done|].
  by rewrite IH, app_assoc.
Qed.
End runs2.

(** ** While the lock is held *)

Global Instance only_sends_frame : Frame locked only_sends.
Proof.
  split.
  - intros s. split; [done..|]. exists []. by rewrite app_nil_r.
  - intros s1 s2 s3 [Hl1 Hc1 Hn1 (evs1 & Ht1 & Hf1)] [Hl2 Hc2 Hn2 (evs2 & Ht2 & Hf2)].
    split; [congruence..|]. exists (evs1 ++ evs2).
    rewrite Ht2, Ht1, app_assoc. split; [done|]. by apply Forall_app.
  - unfold locked. intros s s' [Hl _ _ _] ?. congruence.
  - intros. split; [done..|]. exists []. by rewrite app_nil_r.
  - intros. split; [done..|]. exists []. by rewrite app_nil_r.
  - intros. split; [done..|]. exists []. by rewrite app_nil_r.
  - intros. split; [done..|]. exists []. by rewrite app_nil_r.
Qed.

Section locked_facts.
Context (env : environment).

#[local] Abbreviation quiet := (ok locked only_sends).

Lemma only_sends_add_events evs s : Forall is_send evs -> only_sends s (add_events evs s).
Proof. intros H. split; [done..|]. by exists evs. Qed.

Lemma quiet_with_lock {A} (body : M A) s : quiet (with_lock body) s.
Proof. intros Hl. rewrite with_lock_held by done. apply frame_refl. Qed.

Lemma quiet_send_to_client sock m s : quiet (_send_to_client env sock m) s.
Proof.
  intros _. unfold _send_to_client.
  destruct (frame env m); [|by apply only_sends_add_events; repeat constructor].
  destruct (_ && _); by apply only_sends_add_events; repeat constructor.
Qed.

Lemma quiet_send_all items m exclude s : quiet (send_all env items m exclude) s.
Proof.
  revert s. induction items as [|[p sock] items IH]; intros s; simpl.
  - apply ok_ret.
  - case_bool_decide; [by apply IH|].
    apply ok_bind.
    + apply ok_try_except.
      * apply ok_bind; [|intros; apply ok_ret]. apply quiet_send_to_client.
      * intros; apply ok_ret.
    + intros dead _. apply ok_bind; [by apply IH|]. intros; apply ok_ret.
Qed.

Lemma remove_client_locked player_id s :
  lock s = true -> _remove_client env player_id s = (Block, s).
Proof.
  intros Hl. unfold _remove_client.
  destruct (length (clients s)); simpl; by rewrite with_lock_held.
Qed.

Lemma quiet_remove_client player_id s : quiet (_remove_client env player_id) s.
Proof. intros Hl. rewrite remove_client_locked by done. apply frame_refl. Qed.

Lemma quiet_broadcast m exclude s : quiet (_broadcast env m exclude) s.
Proof.
  unfold _broadcast, broadcast_with.
  apply ok_bind; [apply ok_gets|]. intros items _.
  apply ok_bind; [apply quiet_send_all|]. intros dead _.
  apply ok_for_each. intros; apply quiet_remove_client.
Qed.

(** The trace of a [with] block whose body only sends. *)
Lemma with_lock_only_sends {A} (body : M A) s :
  lock s = false ->
  (forall s1, quiet body s1) ->
  let r := with_lock body s in
  exists evs,
    Forall is_send evs /\
    clients r.2 = clients s /\
    next_player_id r.2 = next_player_id s /\
    ((r.1 = Block /\ lock r.2 = true /\ trace r.2 = trace s ++ ELock :: evs) \/
     (r.1 <> Block /\ lock r.2 = false /\
      trace r.2 = trace s ++ ELock :: evs ++ [EUnlock])).
Proof.
  intros Hl Hb. simpl. rewrite with_lock_free by done.
  set (s1 := log ELock (set_lock true s)).
  destruct (Hb s1 eq_refl) as [Hl1 Hc1 Hn1 (evs & Ht1 & Hf1)].
  exists evs. destruct (body s1) as [[a|e|] s2]; simpl in *.
  all: split_and!; [done..|].
  1,2: right; split_and!; [done|done|]; rewrite Ht1; simpl;
       by rewrite <- !app_assoc.
  left. split_and!; [done|done|]. rewrite Ht1. simpl. by rewrite <- app_assoc.
Qed.

Lemma unlocked_sends_block evs tail :
  Forall is_send evs -> unlocked_sends true (evs ++ tail) = unlocked_sends true tail.
Proof.
  induction 1 as [|e evs He _ IH]; [done|]. destruct e; simpl in *; done.
Qed.

Lemma locked_sends_block evs tail :
  Forall is_send evs ->
  locked_sends true (evs ++ tail) = sends evs ++ locked_sends true tail.
Proof.
  induction 1 as [|e evs He _ IH]; [done|]. destruct e; simpl in *; try done.
  by rewrite IH.
Qed.

Lemma emitted_app s s' evs : trace s' = trace s ++ evs -> emitted s s' = evs.
Proof. intros H. unfold emitted. rewrite H. apply drop_app_length. Qed.

Lemma sends_app evs1 evs2 : sends (evs1 ++ evs2) = sends evs1 ++ sends evs2.
Proof. apply omap_app. Qed.

Lemma send_to_client_cases sock m s :
  exists res,
    _send_to_client env sock m s =
      (match res with Delivered => Ret tt | Failed e => Raise e end,
       log (ESend sock m res) s).
Proof.
  unfold _send_to_client. destruct (frame env m) as [bytes|e].
  - destruct (_ && _); [by exists Delivered | by exists (Failed ConnectionError)].
  - by exists (Failed e).
Qed.

(** The first loop of [_broadcast] sends to every session but the
    excluded one, in the order of the registry, whatever becomes of the
    sends. *)
Lemma send_all_exact items m exclude s :
  exists dead evs,
    send_all env items m exclude s = (Ret dead, add_events evs s) /\
    sends evs = (fun c => (c.2, m)) <$> filter (fun c => exclude <> Some c.1) items /\
    Forall is_send evs.
Proof.
  revert s. induction items as [|[p sock] items IH]; intros s; simpl.
  - exists [], []. by rewrite add_events_nil.
  - case_bool_decide as Hex.
    + rewrite filter_cons_False by (simpl; tauto). apply IH.
    + rewrite filter_cons_True by done. unfold bind at 1, try_except, bind at 1.
      destruct (send_to_client_cases sock m s) as (res & ->).
      set (s1 := log (ESend sock m res) s).
      destruct (IH s1) as (dead & evs & Hrun & Hsends & Hall).
      assert (Hadd : add_events evs s1 = add_events (ESend sock m res :: evs) s)
        by apply add_events_app.
      destruct res; simpl; unfold bind; rewrite Hrun; simpl; rewrite Hadd.
      * exists dead, (ESend sock m Delivered :: evs). simpl.
        rewrite Hsends. split_and!; [done..|]. by constructor.
      * exists (p :: dead), (ESend sock m (Failed e) :: evs). simpl.
        rewrite Hsends. split_and!; [done..|]. by constructor.
Qed.

Lemma filter_all {A} (P : A -> Prop) `{!forall x, Decision (P x)} (l : list A) :
  (forall x, P x) -> filter P l = l.
Proof.
  intros HP. induction l as [|x l IH]; [done|].
  rewrite filter_cons_True by done. by rewrite IH.
Qed.

(** A broadcast made with the lock held: one send per session, then
    either the return or, when a send failed, the wait for the lock that
    the thread itself holds. *)
Lemma broadcast_locked_exact m s :
  lock s = true ->
  exists evs,
    (_broadcast env m None s).2 = add_events evs s /\
    sends evs = (fun c => (c.2, m)) <$> clients s /\
    Forall is_send evs /\
    ((_broadcast env m None s).1 = Ret tt \/ (_broadcast env m None s).1 = Block).
Proof.
  intros Hl. unfold _broadcast, broadcast_with. rewrite bind_gets.
  destruct (send_all_exact (clients s) m None s) as (dead & evs & Hrun & Hsends & Hall).
  rewrite filter_all in Hsends by done.
  exists evs. unfold bind. rewrite Hrun.
  destruct dead as [|p dead]; simpl; [by auto|].
  unfold bind. rewrite remove_client_locked by done. by auto.
Qed.
End locked_facts.

Ltac quiet_special :=
  idtac;
  lazymatch goal with
  | |- ok _ _ (with_lock _) _ => apply quiet_with_lock
  | |- ok _ _ (_broadcast _ _ _) _ => apply quiet_broadcast
  | |- ok _ _ (_remove_client _ _) _ => apply quiet_remove_client
  end.

(** ** The message router *)

#[local] Arguments log : simpl never.
#[local] Arguments set_lock : simpl never.
#[local] Arguments add_events : simpl never.
#[local] Arguments set_game_state : simpl never.

Section router.
Context (env : environment).

Lemma unlock_lock s :
  lock s = false ->
  log EUnlock (set_lock false (log ELock (set_lock true s))) =
    add_events [ELock; EUnlock] s.
Proof.
  intros Hl. destruct s; simpl in *. subst.
  unfold log, add_events, set_lock; simpl. by rewrite <- app_assoc.
Qed.

Lemma unlock_add_events evs s :
  lock s = false ->
  log EUnlock (set_lock false (add_events evs (log ELock (set_lock true s)))) =
    add_events (ELock :: evs ++ [EUnlock]) s.
Proof.
  intros Hl. destruct s; simpl in *. subst.
  unfold log, add_events, set_lock; simpl. by rewrite <- !app_assoc.
Qed.

Lemma sends_locked_block evs : Forall is_send evs -> sends (ELock :: evs ++ [EUnlock]) = sends evs.
Proof. intros _. unfold sends. simpl. rewrite omap_app. simpl. by rewrite app_nil_r. Qed.

(** C9. [update_game_state] merges at the top level only: a key of the
    update takes the update's whole value, every other key keeps its
    value, and nothing else in the server changes. *)
Theorem C9_update_is_shallow_merge (state_update : gmap pykey pyval) (s : GameServer) :
  lock s = false ->
  let r := update_game_state state_update s in
  r.1 = Ret tt /\
  (forall k v, state_update !! k = Some v -> game_state r.2 !! k = Some v) /\
  (forall k, state_update !! k = None -> game_state r.2 !! k = game_state s !! k) /\
  r.2 = add_events [ELock; EUnlock] (set_game_state (state_update ∪ game_state s) s).
Proof.
  intros Hl. simpl. unfold update_game_state. rewrite with_lock_free by done.
  simpl. split_and!.
  - done.
  - intros k v Hk. by apply lookup_union_Some_l.
  - intros k Hk. by apply lookup_union_r.
  - destruct s; simpl in *; subst.
    unfold log, add_events, set_lock, set_game_state; simpl.
    by rewrite <- app_assoc.
Qed.

(** C10. A message that does not apply is ignored: a type outside the
    four that the router knows, damage to an enemy that the snapshot
    does not hold, the pickup of an item that it does not hold.  The
    server is left as it was, the lock taken and released and nothing
    sent. *)
Theorem C10_inapplicable_messages_ignored (player_id : Z) (message : NetworkMessage)
  (s : GameServer) :
  lock s = false ->
  let r := _process_message env player_id message s in
  (type message <> "player_update" -> type message <> "attack" ->
   type message <> "enemy_damage" -> type message <> "pickup_item" ->
   r = (Ret tt, add_events [ELock; EUnlock] s)) /\
  (forall enemy_id,
     type message = "enemy_damage" ->
     Py.getitem (data message) (VStr "enemy_id") = Ok enemy_id ->
     Py.contains (default (VDict ∅) (game_state s !! KStr "enemies")) enemy_id = Ok false ->
     r.2 = add_events [ELock; EUnlock] s /\
     r.1 = match Py.getitem (data message) (VStr "damage") with
           | Ok _ => Ret tt
           | Err e => Raise e
           end) /\
  (forall item_id,
     type message = "pickup_item" ->
     Py.getitem (data message) (VStr "item_id") = Ok item_id ->
     Py.contains (default (VDict ∅) (game_state s !! KStr "items")) item_id = Ok false ->
     r = (Ret tt, add_events [ELock; EUnlock] s)) /\
  (r.2 = add_events [ELock; EUnlock] s ->
   game_state r.2 = game_state s /\ clients r.2 = clients s /\
   sends (emitted s r.2) = []).
Proof.
  intros Hl. cbv zeta. unfold _process_message. rewrite with_lock_free by done.
  set (s0 := log ELock (set_lock true s)). split_and!.
  - intros H1 H2 H3 H4. rewrite !bool_decide_eq_false_2 by done. simpl.
    subst s0. by rewrite unlock_lock.
  - intros enemy_id Ht Hid Hin. rewrite Ht. simpl.
    rewrite Hid, bind_lift_Ok.
    destruct (Py.getitem (data message) (VStr "damage")) as [damage|e].
    + rewrite bind_lift_Ok, bind_state_get_default. subst s0. simpl.
      rewrite Hin, bind_lift_Ok. simpl. by rewrite unlock_lock.
    + rewrite bind_lift_Err. simpl. subst s0. by rewrite unlock_lock.
  - intros item_id Ht Hid Hin. rewrite Ht. simpl.
    rewrite Hid, bind_lift_Ok, bind_state_get_default. subst s0. simpl.
    rewrite Hin, bind_lift_Ok. simpl. by rewrite unlock_lock.
  - intros ->. rewrite emitted_add_events. done.
Qed.

End router.

(** Witness of C9: the enemies map of the example server is replaced as
    a whole, the players map stays. *)
Lemma C9_witness :
  lock Example.server = false /\
  let r := update_game_state {[ KStr "enemies" := VDict ∅ ]} Example.server in
  r.1 = Ret tt /\
  game_state r.2 !! KStr "enemies" = Some (VDict ∅) /\
  game_state r.2 !! KStr "players" = game_state Example.server !! KStr "players".
Proof.
  split; [reflexivity|].
  destruct (C9_update_is_shallow_merge {[ KStr "enemies" := VDict ∅ ]}
              Example.server eq_refl) as (H1 & H2 & H3 & _).
  split_and!; [exact H1 | apply H2; reflexivity | apply H3; reflexivity].
Defined.

(** Witness of C10: damage to enemy 8, which the example server does not
    hold. *)
Lemma C10_witness :
  lock Example.server = false /\
  type Example.miss = "enemy_damage" /\
  Py.getitem (data Example.miss) (VStr "enemy_id") = Ok (VInt 8) /\
  Py.contains (default (VDict ∅) (game_state Example.server !! KStr "enemies"))
    (VInt 8) = Ok false /\
  (_process_message Example.env 0 Example.miss Example.server).2 =
    add_events [ELock; EUnlock] Example.server.
Proof.
  split_and!; [reflexivity..|].
  destruct (C10_inapplicable_messages_ignored Example.env 0 Example.miss
              Example.server eq_refl) as (_ & H & _).
  destruct (H (VInt 8) eq_refl eq_refl eq_refl) as [H2 _]. exact H2.
Defined.


(** ** The lock and the network *)

Section lock_and_io.
Context (env : environment).

Lemma unlocked_sends_with_block evs tail :
  Forall is_send evs ->
  unlocked_sends false (ELock :: evs ++ tail) = unlocked_sends true tail /\
  locked_sends false (ELock :: evs ++ tail) = sends evs ++ locked_sends true tail /\
  sends (ELock :: evs ++ tail) = sends evs ++ sends tail.
Proof.
  intros H. simpl. rewrite unlocked_sends_block, locked_sends_block by done.
  split_and!; [done..|]. unfold sends. simpl. by rewrite omap_app.
Qed.

Lemma with_lock_sends_under_lock {A} (body : M A) s :
  lock s = false ->
  (forall s1, ok locked only_sends body s1) ->
  let s' := (with_lock body s).2 in
  unlocked_sends false (emitted s s') = [] /\
  locked_sends false (emitted s s') = sends (emitted s s').
Proof.
  intros Hl Hb.
  destruct (with_lock_only_sends body s Hl Hb) as (evs & Hall & _ & _ & Hcases).
  cbv zeta.
  destruct Hcases as [(_ & _ & Ht) | (_ & _ & Ht)];
    rewrite (emitted_app _ _ _ Ht).
  - rewrite <- (app_nil_r evs).
    destruct (unlocked_sends_with_block evs [] Hall) as (-> & -> & ->). done.
  - destruct (unlocked_sends_with_block evs [EUnlock] Hall) as (-> & -> & ->). done.
Qed.

(** C8, as the code has it.  The lock is held across the whole of a
    message's effect and across the periodic broadcast, sends included:
    every send that [_process_message] and [_update_loop] make is made
    with the lock held. *)
Theorem C8_sends_are_made_under_the_lock (s : GameServer) :
  lock s = false ->
  (forall player_id message,
     let s' := (_process_message env player_id message s).2 in
     unlocked_sends false (emitted s s') = [] /\
     locked_sends false (emitted s s') = sends (emitted s s')) /\
  (let s' := (_update_loop env s).2 in
   unlocked_sends false (emitted s s') = [] /\
   locked_sends false (emitted s s') = sends (emitted s s')).
Proof.
  intros Hl. split.
  - intros player_id message. unfold _process_message.
    apply with_lock_sends_under_lock; [done|]. intros s1.
    repeat ok_step quiet_special.
  - unfold _update_loop.
    apply with_lock_sends_under_lock; [done|]. intros s1.
    repeat ok_step quiet_special.
Qed.
End lock_and_io.

(** C8, as the specification has it, fails: the rebroadcast of an attack
    is sent to both sessions of the example server between the
    acquisition and the release of the lock. *)
Lemma C8_lock_held_during_send :
  let s' := (_process_message Example.env 0 Example.attack Example.server).2 in
  locked_sends false (emitted Example.server s') =
    [(10%nat, {| type := "player_attack";
                 data := VDict {[ KStr "player_id" := VInt 0;
                                  KStr "attack_data" := VStr "slash" ]};
                 timestamp := 1 |});
     (11%nat, {| type := "player_attack";
                 data := VDict {[ KStr "player_id" := VInt 0;
                                  KStr "attack_data" := VStr "slash" ]};
                 timestamp := 1 |})] /\
  ~ no_send_under_lock (emitted Example.server s').
Proof.
  cbv zeta. unfold no_send_under_lock.
  assert (H : locked_sends false
                (emitted Example.server
                   (_process_message Example.env 0 Example.attack Example.server).2) =
              [(10%nat, {| type := "player_attack";
                 data := VDict {[ KStr "player_id" := VInt 0;
                                  KStr "attack_data" := VStr "slash" ]};
                 timestamp := 1 |});
     (11%nat, {| type := "player_attack";
                 data := VDict {[ KStr "player_id" := VInt 0;
                                  KStr "attack_data" := VStr "slash" ]};
                 timestamp := 1 |})]) by (vm_compute; reflexivity).
  split; [exact H|]. rewrite H. discriminate.
Qed.

(** Witness of C8. *)
Lemma C8_witness :
  lock Example.server = false /\
  unlocked_sends false
    (emitted Example.server
       (_process_message Example.env 0 Example.attack Example.server).2) = [].
Proof.
  split; [reflexivity|].
  destruct (C8_sends_are_made_under_the_lock Example.env Example.server eq_refl)
    as [H _].
  destruct (H 0 Example.attack) as [H1 _]. exact H1.
Defined.

#[local] Arguments log : simpl never.
#[local] Arguments set_lock : simpl never.
#[local] Arguments add_events : simpl never.

(** ** The session registry *)

Section registry.
Context (env : environment).

Lemma id_payload_inj p q : id_payload p = id_payload q -> p = q.
Proof.
  intros H.
  assert (Hv : forall v, VDict {[ KStr "player_id" := VInt p ]} = v ->
            match v with
            | VDict d => d !! KStr "player_id" = Some (VInt p)
            | _ => False
            end).
  { intros v <-. apply lookup_singleton_eq. }
  specialize (Hv _ H).
  change (({[ KStr "player_id" := VInt q ]} : gmap pykey pyval) !! KStr "player_id"
          = Some (VInt p)) in Hv.
  rewrite lookup_singleton_eq in Hv. congruence.
Qed.

(** Once [_remove_client] has got the lock, the id is out of the
    registry, however the call ends. *)
Lemma remove_client_upto_gone depth player_id s :
  lock s = false ->
  OrdDict.lookup (clients (remove_client_upto env depth player_id s).2) player_id = None.
Proof.
  intros Hl.
  assert (Hgoal : forall f : Z -> M unit,
    (forall cs p s', ok (in_registry cs) (within cs) (f p) s') ->
    OrdDict.lookup
      (clients
         (with_lock
            (let! cs := gets clients in
             match OrdDict.lookup cs player_id with
             | Some client_socket =>
                 let! _ := modify (log (EClose client_socket)) in
                 let! _ := modify (fun s =>
                             set_clients (OrdDict.del (clients s) player_id) s) in
                 let! addrs := gets client_addresses in
                 let! _ := when (OrdDict.mem addrs player_id)
                             (modify (set_client_addresses
                                        (OrdDict.del addrs player_id))) in
                 let! players := state_get_default "players" in
                 let! known := lift (Py.contains players (VInt player_id)) in
                 let! _ := when known (
                             let! players := state_get "players" in
                             let! players' :=
                               lift (Py.delitem players (VInt player_id)) in
                             state_set "players" players') in
                 let! message := new_message env "player_left"
                                   (VDict {[ KStr "player_id" := VInt player_id ]}) in
                 broadcast_with env f message None
             | None => ret tt
             end) s).2) player_id = None).
  { intros f Hf. rewrite with_lock_free by done.
    set (s0 := log ELock (set_lock true s)). rewrite bind_gets.
    destruct (OrdDict.lookup (clients s0) player_id) as [sock|] eqn:Hlk; [|done].
    rewrite !bind_modify.
    set (s1 := set_clients _ _).
    match goal with
    | |- context [bind (gets client_addresses) ?k s1] =>
        set (tail := bind (gets client_addresses) k)
    end.
    assert (Hin : player_id ∈ (clients s0).*1).
    { apply list_elem_of_fmap. exists (player_id, sock). split; [done|].
      by apply lookup_Some_elem. }
    assert (Hw : ok (in_registry (clients s0)) (within (clients s0)) tail s1).
    { subst tail. reg_remove_rest player_id. intros p s'. apply Hf. }
    assert (Hs1 : in_registry (clients s0) s1) by apply del_sublist.
    specialize (Hw Hs1). destruct Hw as [_ Hsub _].
    assert (OrdDict.lookup (clients (tail s1).2) player_id = None) as Hnone.
    { eapply sublist_lookup_None; [done|]. apply lookup_del. }
    destruct (tail s1) as [[[]|e|] s2]; done. }
  destruct depth as [|depth]; simpl; apply Hgoal.
  - intros cs p s'. apply bounded_with_lock. intros; apply ok_ret.
  - intros cs p s'. apply reg_remove_client_upto.
Qed.

Lemma remove_client_gone player_id s s' :
  _remove_client env player_id s = (Ret tt, s') ->
  OrdDict.lookup (clients s') player_id = None.
Proof.
  intros Hrun. destruct (lock s) eqn:Hl.
  - rewrite remove_client_locked in Hrun by done. done.
  - pose proof (remove_client_upto_gone (length (clients s)) player_id s Hl) as H.
    unfold _remove_client in Hrun. by rewrite Hrun in H.
Qed.

Lemma remove_client_absent player_id s :
  lock s = false -> OrdDict.lookup (clients s) player_id = None ->
  _remove_client env player_id s = (Ret tt, add_events [ELock; EUnlock] s).
Proof.
  intros Hl Hlk. unfold _remove_client.
  destruct (length (clients s)); simpl; rewrite with_lock_free by done;
    rewrite bind_gets; simpl; rewrite Hlk; simpl; by rewrite unlock_lock.
Qed.

(** C4. Along every run of a server, the ids handed out increase
    strictly; the live sessions have distinct ids, each of which was
    handed out; and an id handed out once, whether its session is live
    or gone, is never handed out again. *)
Theorem C4_ids_increase_and_are_never_reused (ops1 ops2 : list op) :
  let s1 := run env ops1 init in
  StronglySorted Z.lt (assigned_ids env (ops1 ++ ops2) init) /\
  NoDup (clients s1).*1 /\
  Forall (fun p => p ∈ assigned_ids env ops1 init) (clients s1).*1 /\
  Forall (fun p => p ∉ assigned_ids env ops2 s1) (assigned_ids env ops1 init).
Proof.
  cbv zeta.
  destruct (run_summary env (ops1 ++ ops2) init registry_ok_init)
    as (_ & _ & Hsorted & _).
  destruct (run_summary env ops1 init registry_ok_init)
    as (Hok1 & _ & _ & Ha1 & Hc1 & _).
  destruct (run_summary env ops2 _ Hok1) as (_ & _ & _ & Ha2 & _).
  split_and!.
  - done.
  - apply Hok1.
  - apply Forall_forall. intros p (c & -> & Hc)%list_elem_of_fmap.
    destruct (Hc1 c Hc) as [Hin|[Hin _]]; [|done]. by apply elem_of_nil in Hin.
  - rewrite Forall_forall in Ha1, Ha2 |- *. intros p Hp Hq.
    specialize (Ha1 _ Hp). specialize (Ha2 _ Hq). lia.
Qed.

(** C5. [MAX_PLAYERS] is 4.  No run of a server has more than four live
    sessions.  A connection that arrives while four sessions are live
    is closed at once: no id is handed out, nothing is registered, and
    no later send goes to it. *)
Theorem C5_capacity_is_enforced :
  MAX_PLAYERS = 4 /\
  (forall ops, Z.of_nat (length (clients (run env ops init))) <= 4) /\
  (forall s sock addr,
     4 <= Z.of_nat (length (clients s)) ->
     _accept_connections env (Some (sock, addr)) s = (Ret tt, log (EClose sock) s) /\
     assigned (Accept sock addr) s = []) /\
  (forall s sock addr ops,
     registry_ok s ->
     4 <= Z.of_nat (length (clients s)) ->
     sock ∉ (clients s).*2 ->
     sock ∉ accepted ops ->
     let s1 := step env (Accept sock addr) s in
     let s2 := run env ops s1 in
     (sock ∉ (clients s2).*2) /\
     Forall (fun e => forall m r, e <> ESend sock m r) (emitted s1 s2)).
Proof.
  assert (Hfull : forall s sock addr,
    4 <= Z.of_nat (length (clients s)) ->
    _accept_connections env (Some (sock, addr)) s = (Ret tt, log (EClose sock) s)).
  { intros s sock addr H. unfold _accept_connections, try_except, bind.
    by rewrite accept_register_full. }
  split_and!.
  - done.
  - intros ops.
    destruct (run_summary env ops init registry_ok_init) as ([_ _ H] & _). apply H.
  - intros s sock addr H. split; [by apply Hfull|].
    simpl. by rewrite accept_register_full.
  - intros s sock addr ops Hok H Hs Ha. cbv zeta. simpl.
    rewrite Hfull by done. simpl.
    assert (Hok1 : registry_ok (log (EClose sock) s)) by (by destruct Hok).
    destruct (run_summary env ops _ Hok1) as (_ & _ & _ & _ & Hc & evs & Ht & Hall).
    split.
    + intros (c & -> & Hin)%list_elem_of_fmap.
      destruct (Hc c Hin) as [Hc0|[_ Hc0]]; [|done].
      apply Hs. apply list_elem_of_fmap. by exists c.
    + rewrite (emitted_app _ _ _ Ht). eapply Forall_impl; [done|].
      intros e He m r ->. simpl in He. destruct He as [[He|He] _]; done.
Qed.

(** C6. Removing an id that is not registered changes nothing and sends
    nothing; a removal leaves the id unregistered, however it ends; and
    from then on, whatever the server does, the id stays out and its
    [player_left] is not sent again. *)
Theorem C6_removal_is_idempotent :
  (forall s player_id,
     lock s = false ->
     OrdDict.lookup (clients s) player_id = None ->
     _remove_client env player_id s = (Ret tt, add_events [ELock; EUnlock] s)) /\
  (forall s player_id,
     lock s = false ->
     OrdDict.lookup (clients (_remove_client env player_id s).2) player_id = None) /\
  (forall s player_id ops,
     registry_ok s ->
     OrdDict.lookup (clients s) player_id = None ->
     player_id < next_player_id s ->
     let s' := run env ops s in
     OrdDict.lookup (clients s') player_id = None /\
     Forall (fun e => forall sock m r,
               e = ESend sock m r -> type m = "player_left" ->
               data m <> id_payload player_id)
            (emitted s s')).
Proof.
  split_and!.
  - intros. by apply remove_client_absent.
  - intros. by apply remove_client_upto_gone.
  - intros s player_id ops Hok Hlk Hlt. cbv zeta.
    destruct (run_summary env ops s Hok) as (_ & _ & _ & Ha & Hc & evs & Ht & Hall).
    apply lookup_None_keys in Hlk. split.
    + apply lookup_None_keys. intros (c & -> & Hin)%list_elem_of_fmap.
      destruct (Hc c Hin) as [Hc0|[Hc0 _]].
      * apply Hlk. apply list_elem_of_fmap. by exists c.
      * rewrite Forall_forall in Ha. specialize (Ha _ Hc0). lia.
    + rewrite (emitted_app _ _ _ Ht). eapply Forall_impl; [done|].
      intros e He sock m r -> Hty Hd. simpl in He. destruct He as [_ He].
      destruct (He Hty) as (p & Hp & Hcases). rewrite Hd in Hp.
      apply id_payload_inj in Hp. subst p. destruct Hcases; [done|lia].
Qed.
End registry.

#[local] Arguments log : simpl never.
#[local] Arguments set_lock : simpl never.
#[local] Arguments add_events : simpl never.

(** ** The wire format *)

Lemma byte_of_Z_value z : Z.of_N (Byte.to_N (byte_of_Z z)) = z mod 256.
Proof.
  unfold byte_of_Z. pose proof (Z.mod_pos_bound z 256 eq_refl) as Hb.
  destruct (Byte.of_N (Z.to_N (z mod 256))) as [b|] eqn:E; simpl.
  - apply Byte.to_of_N in E. rewrite E. lia.
  - apply Byte.of_N_None_iff in E. lia.
Qed.

Lemma from_to_bytes size header :
  to_bytes size = Ok header -> from_bytes header = size /\ length header = 4%nat.
Proof.
  unfold to_bytes. destruct (_ && _) eqn:Hc; [|done]. intros [= <-].
  apply andb_prop in Hc as [H0 H1]. apply Z.leb_le in H0. apply Z.ltb_lt in H1.
  split; [|done]. unfold from_bytes. simpl. rewrite !byte_of_Z_value.
  change (2 ^ 32) with 4294967296 in H1.
  change (2 ^ 24) with 16777216. change (2 ^ 16) with 65536. change (2 ^ 8) with 256.
  Z.to_euclidean_division_equations. lia.
Qed.

(** A payload of 2^32 bytes or more has no header. *)
Lemma to_bytes_overflow size : 2 ^ 32 <= size -> to_bytes size = Err OverflowError.
Proof.
  intros H. unfold to_bytes. destruct (Z.ltb_spec size (2 ^ 32)); [lia|].
  by rewrite andb_false_r.
Qed.

Lemma recv_loop_step sock size payload s :
  recv_loop sock size payload s =
    if decide (length payload < size)%nat then
      match recv sock (Nat.min (size - length payload) 4096) s with
      | (Ret [], s') => (Ret None, s')
      | (Ret (b :: bs), s') => recv_loop sock size (payload ++ b :: bs) s'
      | (Raise e, s') => (Raise e, s')
      | (Block, s') => (Block, s')
      end
    else (Ret (Some payload), s).
Proof.
  rewrite recv_loop_equation_1.
  destruct (lt_dec (length payload) size) as [Hlt|Hge]; simpl.
  - rewrite decide_True by done.
    destruct (recv sock _ s) as [[[|b bs]|e|] s']; simpl; try done.
  - by rewrite decide_False by done.
Qed.

Lemma set_inbox_id s sock script :
  inbox s !! sock = Some script -> set_inbox (<[sock := script]> (inbox s)) s = s.
Proof. intros H. rewrite insert_id by done. by destruct s. Qed.

Lemma set_inbox_twice sock script1 script2 s :
  set_inbox (<[sock := script2]> (inbox (set_inbox (<[sock := script1]> (inbox s)) s)))
    (set_inbox (<[sock := script1]> (inbox s)) s) =
  set_inbox (<[sock := script2]> (inbox s)) s.
Proof. unfold set_inbox; simpl. by rewrite insert_insert_eq. Qed.

Lemma take_rx_chunk n c chunks rest :
  c <> [] ->
  take_rx n ((Chunk <$> (c :: chunks)) ++ rest) =
    (Ok (take n c), (Chunk <$> after_read n c chunks) ++ rest).
Proof.
  intros Hc. destruct c as [|b c]; [done|]. unfold after_read. simpl.
  by destruct (drop n (b :: c)).
Qed.

Lemma recv_chunk sock n c chunks rest s :
  c <> [] -> closed sock s = false ->
  inbox s !! sock = Some ((Chunk <$> (c :: chunks)) ++ rest) ->
  recv sock n s =
    (Ret (take n c),
     set_inbox (<[sock := (Chunk <$> after_read n c chunks) ++ rest]> (inbox s)) s).
Proof.
  intros Hc Hopen Hin. unfold recv. rewrite Hopen, Hin.
  unfold default. cbn [from_option id]. by rewrite take_rx_chunk.
Qed.

Lemma concat_after_read n c chunks :
  concat (after_read n c chunks) = drop n c ++ concat chunks.
Proof. unfold after_read. by destruct (drop n c). Qed.

Lemma Forall_after_read n c chunks :
  Forall (fun c => c <> []) chunks -> Forall (fun c => c <> []) (after_read n c chunks).
Proof.
  intros H. unfold after_read. destruct (drop n c) eqn:E; [done|].
  by constructor.
Qed.

(** The body loop reads exactly the announced bytes, however they are
    cut into chunks. *)
Lemma recv_loop_delivers sock rest k :
  forall chunks payload s size,
    length (concat chunks) = k ->
    Forall (fun c => c <> []) chunks ->
    closed sock s = false ->
    inbox s !! sock = Some ((Chunk <$> chunks) ++ rest) ->
    size = (length payload + k)%nat ->
    recv_loop sock size payload s =
      (Ret (Some (payload ++ concat chunks)),
       set_inbox (<[sock := rest]> (inbox s)) s).
Proof.
  induction k as [k IH] using lt_wf_ind.
  intros chunks payload s size Hk Hne Hopen Hin Hsize.
  rewrite recv_loop_step. destruct chunks as [|c chunks].
  - simpl in *. subst k. rewrite decide_False by lia.
    rewrite app_nil_r. by rewrite set_inbox_id.
  - apply Forall_cons in Hne as [Hc Hne]. simpl in Hk. rewrite length_app in Hk.
    assert (0 < length c)%nat by (destruct c; simpl; [done|lia]).
    rewrite decide_True by lia.
    set (n := Nat.min (size - length payload) 4096).
    assert (Hn : (0 < n)%nat) by (subst n; lia).
    rewrite (recv_chunk sock n c chunks rest s) by done.
    assert (Htake : (0 < length (take n c))%nat) by (rewrite length_take; lia).
    destruct (take n c) as [|b bs] eqn:Etake; [simpl in Htake; lia|].
    rewrite <- Etake. clear Htake Etake b bs.
    set (s' := set_inbox _ s).
    rewrite (IH (length (concat (after_read n c chunks)))
               ltac:(rewrite concat_after_read, length_app, length_drop; lia)
               (after_read n c chunks) (payload ++ take n c) s' size).
    + rewrite concat_after_read. subst s'. rewrite set_inbox_twice.
      f_equal. f_equal. f_equal. simpl.
      rewrite <- (take_drop n c) at 3. by rewrite <- !app_assoc.
    + done.
    + by apply Forall_after_read.
    + done.
    + subst s'. simpl. by rewrite lookup_insert_eq.
    + rewrite concat_after_read, !length_app, length_take, length_drop. lia.
Qed.

Section receive.
Context (env : environment).

(** A whole frame on the wire, its header not cut: [_receive_from_client]
    reads it to its last byte and hands the payload to [pickle.loads]. *)
Lemma receive_frame sock s header payload first others rest :
  to_bytes (Z.of_nat (length payload)) = Ok header ->
  concat (first :: others) = header ++ payload ->
  (4 <= length first)%nat ->
  Forall (fun c => c <> []) others ->
  closed sock s = false ->
  inbox s !! sock = Some ((Chunk <$> (first :: others)) ++ rest) ->
  _receive_from_client env sock s =
    (match pickle_loads env payload with
     | Some message => Ret (Some message)
     | None => Raise UnpicklingError
     end,
     set_inbox (<[sock := rest]> (inbox s)) s).
Proof.
  intros Hhdr Hcat Hfirst Hne Hopen Hin.
  apply from_to_bytes in Hhdr as [Hsize Hlen].
  assert (Hc : first <> []) by (destruct first; simpl in *; [lia|done]).
  assert (Htake : take 4 first = header).
  { simpl in Hcat. apply (f_equal (take 4)) in Hcat.
    rewrite take_app_le in Hcat by lia.
    by rewrite take_app_length' in Hcat by done. }
  assert (Hdrop : drop 4 first ++ concat others = payload).
  { simpl in Hcat. apply (f_equal (drop 4)) in Hcat.
    rewrite drop_app_le in Hcat by lia.
    by rewrite drop_app_length' in Hcat by done. }
  unfold _receive_from_client, bind.
  rewrite (recv_chunk sock 4 first others rest s) by done.
  rewrite Htake, Hlen. change (4 <? 4)%nat with false. cbv beta iota.
  set (s' := set_inbox _ s).
  rewrite (recv_loop_delivers sock rest (length payload)
             (after_read 4 first others) [] s').
  - rewrite concat_after_read, Hdrop. simpl app. subst s'.
    rewrite set_inbox_twice. rewrite app_nil_l.
    by destruct (pickle_loads env payload).
  - by rewrite concat_after_read, Hdrop.
  - by apply Forall_after_read.
  - done.
  - subst s'. simpl. by rewrite lookup_insert_eq.
  - rewrite Hsize. simpl. lia.
Qed.

(** C2. A message that encodes to a frame is read back from that frame
    as it was, type, payload and timestamp, whatever the chunks in which
    the frame arrives after its header; [pickle.loads] is taken to
    invert [pickle.dumps] on the message. *)
Theorem C2_frame_round_trip (message : NetworkMessage) (bytes : list Byte.byte)
  (sock : socket) (s : GameServer) (first : list Byte.byte)
  (others : list (list Byte.byte)) (rest : list rx) :
  frame env message = Ok bytes ->
  (forall payload, pickle_dumps env message = Some payload ->
                   pickle_loads env payload = Some message) ->
  concat (first :: others) = bytes ->
  (4 <= length first)%nat ->
  Forall (fun c => c <> []) others ->
  closed sock s = false ->
  inbox s !! sock = Some ((Chunk <$> (first :: others)) ++ rest) ->
  _receive_from_client env sock s =
    (Ret (Some message), set_inbox (<[sock := rest]> (inbox s)) s).
Proof.
  intros Hframe Hpickle Hcat Hfirst Hne Hopen Hin. unfold frame in Hframe.
  destruct (pickle_dumps env message) as [payload|] eqn:Hdumps; [|done].
  destruct (to_bytes (Z.of_nat (length payload))) as [header|] eqn:Hhdr; [|done].
  injection Hframe as <-.
  rewrite (receive_frame sock s header payload first others rest) by done.
  by rewrite (Hpickle payload eq_refl).
Qed.

(** C3, as the code has it.  A frame whose payload does not unpickle is
    read to its end and dropped, and that ends the session: the loop of
    [_handle_client] is left at once, what follows on the wire stays
    unread, and the session is removed as on a connection failure. *)
Theorem C3_decode_failure_ends_the_session (n : nat) (player_id : Z) (sock : socket)
  (s : GameServer) (header payload first : list Byte.byte)
  (others : list (list Byte.byte)) (rest : list rx) :
  to_bytes (Z.of_nat (length payload)) = Ok header ->
  pickle_loads env payload = None ->
  concat (first :: others) = header ++ payload ->
  (4 <= length first)%nat ->
  Forall (fun c => c <> []) others ->
  closed sock s = false ->
  inbox s !! sock = Some ((Chunk <$> (first :: others)) ++ rest) ->
  running s = true ->
  lock s = false ->
  let r := _handle_client env (S n) player_id sock s in
  let s1 := set_inbox (<[sock := rest]> (inbox s)) s in
  r = (let! _ := _remove_client env player_id in ret Finished) s1 /\
  inbox s1 !! sock = Some rest /\
  r.1 <> Ret Looping /\
  OrdDict.lookup (clients r.2) player_id = None.
Proof.
  intros Hhdr Hloads Hcat Hfirst Hne Hopen Hin Hrun Hl. cbv zeta.
  set (s1 := set_inbox (<[sock := rest]> (inbox s)) s).
  assert (Heq : _handle_client env (S n) player_id sock s =
                (let! _ := _remove_client env player_id in ret Finished) s1).
  { unfold _handle_client. simpl handle_client_loop.
    unfold bind at 1. unfold bind at 1. unfold gets at 1. rewrite Hrun.
    unfold bind at 1. unfold handle_client_step, try_except. unfold bind at 1.
    rewrite (receive_frame sock s header payload first others rest) by done.
    rewrite Hloads. simpl. done. }
  rewrite Heq.
  pose proof (remove_client_upto_gone env (length (clients s1)) player_id s1 Hl) as Hgone.
  unfold bind. fold (_remove_client env player_id s1) in Hgone.
  assert (Hrest : inbox s1 !! sock = Some rest)
    by (subst s1; simpl; by rewrite lookup_insert_eq).
  destruct (_remove_client env player_id s1) as [[[]|e|] s2]; simpl in *.
  all: split_and!; done.
Qed.
End receive.

(** Witness of C2: [hello], cut after six bytes of its frame. *)
Lemma C2_witness :
  frame Example.env Example.hello = Ok (Example.frame_of Example.hello) /\
  (forall payload,
     pickle_dumps Example.env Example.hello = Some payload ->
     pickle_loads Example.env payload = Some Example.hello) /\
  _receive_from_client Example.env 10%nat Example.receiving =
    (Ret (Some Example.hello),
     set_inbox (<[10%nat := []]> (inbox Example.receiving)) Example.receiving).
Proof.
  assert (H1 : frame Example.env Example.hello = Ok (Example.frame_of Example.hello))
    by reflexivity.
  assert (H2 : forall payload,
     pickle_dumps Example.env Example.hello = Some payload ->
     pickle_loads Example.env payload = Some Example.hello)
    by (intros payload [= <-]; reflexivity).
  split_and!; [exact H1 | exact H2 |].
  apply (C2_frame_round_trip Example.env Example.hello
           (Example.frame_of Example.hello) 10%nat Example.receiving
           (take 6 (Example.frame_of Example.hello))
           [drop 6 (Example.frame_of Example.hello)] []).
  - exact H1.
  - exact H2.
  - reflexivity.
  - vm_compute. lia.
  - repeat constructor. vm_compute. discriminate.
  - reflexivity.
  - reflexivity.
Defined.

(** C3, as the specification has it, fails: the frame that does not
    unpickle ends the loop of session 0 at its first iteration; the
    session is unregistered, [player_left] goes to the other session,
    and the frame of [hello] behind it is never read. *)
Lemma C3_decode_failure_tears_down :
  let r := _handle_client Example.env 2 0 10%nat Example.hearing in
  r.1 = Ret Finished /\
  clients r.2 = [(1, 11%nat)] /\
  inbox r.2 !! 10%nat = Some [Chunk (Example.frame_of Example.hello)] /\
  type <$> (sends (emitted Example.hearing r.2)).*2 = ["player_left"] /\
  ~ survives r 0.
Proof.
  cbv zeta. split_and!; [by vm_compute..|].
  unfold survives. intros [H _]. vm_compute in H. discriminate.
Qed.

(** Witness of C3. *)
Lemma C3_witness :
  to_bytes 6 = Ok (take 4 (Example.frame_of Example.attack)) /\
  pickle_loads Example.env (drop 4 (Example.frame_of Example.attack)) = None /\
  running Example.hearing = true /\
  lock Example.hearing = false /\
  OrdDict.lookup
    (clients (_handle_client Example.env 1 0 10%nat Example.hearing).2) 0 = None.
Proof.
  split_and!; [reflexivity..|].
  destruct (C3_decode_failure_ends_the_session Example.env 0 0 10%nat
              Example.hearing
              (take 4 (Example.frame_of Example.attack))
              (drop 4 (Example.frame_of Example.attack))
              (Example.frame_of Example.attack) []
              [Chunk (Example.frame_of Example.hello)])
    as (_ & _ & _ & H).
  - reflexivity.
  - reflexivity.
  - reflexivity.
  - vm_compute. lia.
  - constructor.
  - reflexivity.
  - reflexivity.
  - reflexivity.
  - reflexivity.
  - exact H.
Defined.

Lemma registry_ok_full : registry_ok Example.full.
Proof.
  split.
  - apply (bool_decide_unpack _). vm_compute. reflexivity.
  - apply (bool_decide_unpack _). vm_compute. reflexivity.
  - vm_compute. discriminate.
Defined.

(** Witness of C5: a fifth connection to the full example server. *)
Lemma C5_witness :
  4 <= Z.of_nat (length (clients Example.full)) /\
  registry_ok Example.full /\
  (14%nat ∉ (clients Example.full).*2) /\
  (14%nat ∉ accepted [Tick; Process 0 Example.attack]) /\
  _accept_connections Example.env (Some (14%nat, ("10.0.0.5", 5555))) Example.full =
    (Ret tt, log (EClose 14%nat) Example.full) /\
  14%nat ∉ (clients (run Example.env [Tick; Process 0 Example.attack]
                       (step Example.env (Accept 14%nat ("10.0.0.5", 5555))
                          Example.full))).*2.
Proof.
  assert (H1 : 4 <= Z.of_nat (length (clients Example.full)))
    by (vm_compute; discriminate).
  assert (H3 : 14%nat ∉ (clients Example.full).*2)
    by (apply (bool_decide_unpack _); vm_compute; reflexivity).
  assert (H4 : 14%nat ∉ accepted [Tick; Process 0 Example.attack])
    by (apply (bool_decide_unpack _); vm_compute; reflexivity).
  destruct (C5_capacity_is_enforced Example.env) as (_ & _ & Hfull & Hnever).
  split_and!; [exact H1 | exact registry_ok_full | exact H3 | exact H4 | |].
  - exact (proj1 (Hfull Example.full 14%nat ("10.0.0.5", 5555) H1)).
  - exact (proj1 (Hnever Example.full 14%nat ("10.0.0.5", 5555)
                    [Tick; Process 0 Example.attack] registry_ok_full H1 H3 H4)).
Defined.

(** Witness of C6: id 5 is not registered in the example server. *)
Lemma C6_witness :
  lock Example.server = false /\
  OrdDict.lookup (clients Example.server) 5 = None /\
  _remove_client Example.env 5 Example.server =
    (Ret tt, add_events [ELock; EUnlock] Example.server).
Proof.
  split_and!; [reflexivity..|].
  destruct (C6_removal_is_idempotent Example.env) as (H & _).
  exact (H Example.server 5 eq_refl eq_refl).
Defined.

(** C7 fails on the code when the update thread runs between the
    registration of a new session and its welcome: the first message
    that reaches the new session is [game_state]. *)
Theorem C7_game_state_overtakes_welcome :
  let s' := accept_overtaken Example.env 12%nat ("10.0.0.3", 5555) Example.server in
  clients s' = [(0, 10%nat); (1, 11%nat); (2, 12%nat)] /\
  type <$> delivered_to 12%nat (emitted Example.server s') = ["game_state"; "welcome"] /\
  ~ welcome_precedes_game_state (delivered_to 12%nat (emitted Example.server s')).
Proof.
  cbv zeta.
  assert (H : type <$> delivered_to 12%nat
                (emitted Example.server
                   (accept_overtaken Example.env 12%nat ("10.0.0.3", 5555) Example.server))
              = ["game_state"; "welcome"]) by by vm_compute.
  split_and!; [by vm_compute | exact H |].
  intros (before & w & after & Hsplit & Hw & Hbefore).
  rewrite Hsplit, fmap_app, fmap_cons in H.
  destruct before as [|b before].
  - simpl in H. injection H as Hty _. congruence.
  - simpl in H. injection H as Hty _.
    apply Forall_cons in Hbefore as [Hb _]. by apply Hb.
Qed.

(** The accept thread on its own: welcome first, then [player_joined]
    to the two other sessions. *)
Lemma accept_alone :
  let s' := (_accept_connections Example.env (Some (12%nat, ("10.0.0.3", 5555)))
               Example.server).2 in
  (fun x => (x.1, type x.2)) <$> sends (emitted Example.server s') =
    [(12%nat, "welcome"); (10%nat, "player_joined"); (11%nat, "player_joined")].
Proof. by vm_compute. Qed.

(** A send that fails while the lock is held leaves the thread waiting
    for the lock it holds. *)
Lemma failed_send_under_lock_blocks :
  let r := _update_loop Example.env_down Example.server in
  r.1 = Block /\ lock r.2 = true.
Proof. by vm_compute. Qed.

(** ** The bound on the nesting of [_remove_client] is immaterial *)

Section depth.
Context (env : environment).

Lemma bind_ext_locked {A B} (m : M A) (k1 k2 : A -> M B) s :
  locked s ->
  ok locked only_sends m s ->
  (forall a s', locked s' -> k1 a s' = k2 a s') ->
  bind m k1 s = bind m k2 s.
Proof.
  intros Hl Hm Hk. specialize (Hm Hl). unfold bind.
  destruct (m s) as [[a|e|] s']; [|done..]. simpl in Hm.
  apply Hk. unfold locked in *. destruct Hm as [Hl' _ _ _]. congruence.
Qed.

Lemma remove_client_upto_locked depth player_id s :
  locked s -> remove_client_upto env depth player_id s = (Block, s).
Proof. intros Hl. destruct depth; simpl; by rewrite with_lock_held. Qed.

Lemma broadcast_with_locked (f g : Z -> M unit) message s :
  locked s ->
  (forall p s', locked s' -> f p s' = (Block, s')) ->
  (forall p s', locked s' -> g p s' = (Block, s')) ->
  broadcast_with env f message None s = broadcast_with env g message None s.
Proof.
  intros Hl Hf Hg. unfold broadcast_with. rewrite !bind_gets.
  apply bind_ext_locked; [done|apply quiet_send_all|].
  intros dead s' Hl'. destruct dead as [|p dead]; [done|]. simpl.
  unfold bind. by rewrite Hf, Hg.
Qed.

Lemma remove_client_depth depth player_id s :
  remove_client_upto env depth player_id s = remove_client_upto env 0 player_id s.
Proof.
  destruct depth as [|depth]; [done|]. simpl. unfold with_lock.
  destruct (lock s) eqn:Hl; [done|].
  set (s0 := log ELock (set_lock true s)).
  assert (Hl0 : locked s0) by done.
  match goal with
  | |- match ?b1 s0 with _ => _ end = match ?b2 s0 with _ => _ end =>
      assert (Hb : b1 s0 = b2 s0); [|by rewrite Hb]
  end.
  rewrite !bind_gets.
  destruct (OrdDict.lookup (clients s0) player_id) as [sock|]; [|done].
  rewrite !bind_modify.
  set (s1 := set_clients _ _).
  assert (Hl1 : locked s1) by done.
  apply bind_ext_locked; [done|apply ok_gets|]. intros addrs s2 Hl2.
  apply bind_ext_locked;
    [done|apply ok_when; intros _; apply ok_modify, frame_client_addresses|].
  intros _ s3 Hl3.
  apply bind_ext_locked; [done|apply ok_state_get_default|]. intros players s4 Hl4.
  apply bind_ext_locked; [done|apply ok_lift|]. intros known s5 Hl5.
  apply bind_ext_locked; [done|repeat ok_step quiet_special|]. intros _ s6 Hl6.
  rewrite !bind_new_message.
  apply broadcast_with_locked; [done| |]; intros p s' Hl'.
  - by apply remove_client_upto_locked.
  - by apply with_lock_held.
Qed.

(** On every state, [_remove_client] is the function of depth 0. *)
Lemma remove_client_unfold player_id s :
  _remove_client env player_id s = remove_client_upto env 0 player_id s.
Proof. apply remove_client_depth. Qed.
End depth.


(** ** The accept path *)

Section accept_path.
Context (env : environment).

Lemma delivered_to_app sock evs1 evs2 :
  delivered_to sock (evs1 ++ evs2) = delivered_to sock evs1 ++ delivered_to sock evs2.
Proof. apply omap_app. Qed.

Lemma delivered_to_others sock evs :
  Forall (fun x => x.1 <> sock) (sends evs) -> delivered_to sock evs = [].
Proof.
  induction evs as [|e evs IH]; [done|]. destruct e as [| |sock' m r| |]; simpl; auto.
  intros [Hne Hrest]%Forall_cons. simpl in Hne. destruct r; [|by apply IH].
  rewrite decide_False by done. by apply IH.
Qed.

(** The first loop of [_broadcast] over a registry whose last session
    is [(p, sock)]: the sends to the sessions before it, then the send
    to it. *)
Lemma send_all_snoc items p sock m s :
  exists dead evs,
    Forall is_send evs /\
    sends evs = (fun c => (c.2, m)) <$> items /\
    send_all env (items ++ [(p, sock)]) m None s =
      (let '(r, s') := _send_to_client env sock m (add_events evs s) in
       (Ret (dead ++ match r with Ret _ => [] | _ => [p] end), s')).
Proof.
  revert s. induction items as [|[q sock'] items IH]; intros s.
  - exists [], []. split_and!; [done..|]. rewrite add_events_nil. simpl.
    unfold bind, try_except, bind.
    destruct (send_to_client_cases env sock m s) as (res & ->). by destruct res.
  - simpl. unfold bind at 1, try_except, bind at 1.
    destruct (send_to_client_cases env sock' m s) as (res & ->).
    set (s1 := log (ESend sock' m res) s).
    destruct (IH s1) as (dead & evs & Hall & Hsends & Hrun).
    assert (Hadd : add_events evs s1 = add_events (ESend sock' m res :: evs) s)
      by apply add_events_app.
    rewrite Hadd in Hrun.
    destruct (_send_to_client env sock m (add_events (ESend sock' m res :: evs) s))
      as [r s'] eqn:Hlast.
    destruct res; simpl; unfold bind; rewrite Hrun; simpl.
    + exists dead, (ESend sock' m Delivered :: evs).
      rewrite Hlast. split_and!; [by constructor|by simpl; rewrite Hsends|done].
    + exists (q :: dead), (ESend sock' m (Failed e) :: evs).
      rewrite Hlast. split_and!; [by constructor|by simpl; rewrite Hsends|done].
Qed.

Lemma closed_add_sends sock evs s :
  Forall is_send evs -> closed sock (add_events evs s) = closed sock s.
Proof.
  intros Hall. unfold closed. simpl. apply bool_decide_ext.
  rewrite elem_of_app. split; [|by left]. intros [?|Hin]; [done|].
  rewrite Forall_forall in Hall. by apply Hall in Hin.
Qed.

(** The race of the accept thread with the update thread: when the tick
    of [_update_loop] runs between the registration of a session and
    its welcome, and the new peer receives what is sent to it, the
    first message that reaches it is the [game_state] of the tick. *)
Lemma welcome_can_be_overtaken s sock addr :
  registry_ok s ->
  Z.of_nat (length (clients s)) < MAX_PLAYERS ->
  lock s = false ->
  sock ∉ (clients s).*2 ->
  closed sock s = false ->
  (forall m, type m = "game_state" -> exists bytes, frame env m = Ok bytes) ->
  (forall tr, sendall_ok env tr sock = true) ->
  let s' := accept_overtaken env sock addr s in
  exists m rest,
    delivered_to sock (emitted s s') = m :: rest /\
    type m = "game_state" /\
    data m = VDict (game_state s).
Proof.
  intros Hok Hroom Hl Hfresh Hopen Hframe Hsend. cbv zeta.
  unfold accept_overtaken. rewrite accept_register_free by done.
  set (s1 := registered sock addr s).
  assert (Hc1 : clients s1 = clients s ++ [(next_player_id s, sock)])
    by by apply registered_clients.
  unfold _update_loop. rewrite with_lock_free by done.
  set (s1l := log ELock (set_lock true s1)).
  rewrite bind_gets, bind_new_message.
  set (m := {| type := "game_state"; data := VDict (game_state s1l);
               timestamp := time_time env (trace s1l) |}).
  unfold _broadcast, broadcast_with. rewrite bind_gets.
  change (clients s1l) with (clients s1). rewrite Hc1.
  destruct (send_all_snoc (clients s) (next_player_id s) sock m s1l)
    as (dead & evs & Hall & Hsends & Hrun).
  unfold bind at 1. rewrite Hrun. clear Hrun.
  unfold _send_to_client. destruct (Hframe m eq_refl) as [bytes ->].
  rewrite closed_add_sends by done.
  assert (Hopen1 : closed sock s1l = false).
  { unfold closed in *. apply bool_decide_eq_false in Hopen.
    apply bool_decide_eq_false. simpl. rewrite !elem_of_app.
    intros [[?|Hin]|Hin]; [done|..].
    - apply elem_of_cons in Hin as [?|Hin]; [done|].
      apply elem_of_cons in Hin as [?|Hin]; [done|]. by apply elem_of_nil in Hin.
    - apply elem_of_cons in Hin as [?|Hin]; [done|]. by apply elem_of_nil in Hin. }
  rewrite Hopen1, Hsend. simpl negb. simpl andb. cbv iota. rewrite app_nil_r.
  set (s2 := log (ESend sock m Delivered) (add_events evs s1l)).
  assert (Htr2 : trace s2 =
            trace s ++ [ELock; EUnlock; ELock] ++ evs ++ [ESend sock m Delivered]).
  { subst s2 s1l s1. simpl. by rewrite <- !app_assoc. }
  assert (Hrest : forall (r : outcome unit) s3 s4,
    (exists tail, trace s3 = trace s2 ++ tail) ->
    (exists tail, trace s4 = trace s3 ++ tail) ->
    exists rest, delivered_to sock (emitted s s4) = m :: rest).
  { intros _ s3 s4 [t3 H3] [t4 H4].
    erewrite emitted_app; [|by rewrite H4, H3, Htr2, <- !app_assoc].
    rewrite !delivered_to_app.
    rewrite (delivered_to_others sock evs).
    - simpl. rewrite decide_True by done. simpl. eauto.
    - rewrite Hsends. apply Forall_fmap, Forall_forall. intros c Hc. simpl.
      intros Heq. apply Hfresh. apply list_elem_of_fmap. by exists c. }
  assert (Hgreet : forall s3,
    exists tail,
      trace (accept_greet env (next_player_id s) sock s3).2 = trace s3 ++ tail).
  { intros s3.
    destruct (reg_accept_greet env (clients s3 ++ [(0, sock)]) (next_player_id s) sock s3)
      as [_ _ (tail & Ht & _)].
    - rewrite fmap_app. apply elem_of_app. right. left.
    - unfold in_registry. by apply sublist_inserts_r.
    - by exists tail. }
  assert (Hm : type m = "game_state" /\ data m = VDict (game_state s)) by done.
  destruct dead as [|p dead].
  - simpl for_each. unfold ret. cbv iota beta.
    set (s3 := log EUnlock (set_lock false s2)).
    destruct (Hrest (Ret tt) s3 (accept_greet env (next_player_id s) sock s3).2)
      as [rest Hd]; [by exists [EUnlock]|apply Hgreet|].
    exists m, rest. by split.
  - simpl for_each. unfold bind. rewrite remove_client_locked by done.
    destruct (Hrest (Ret tt) s2 (accept_greet env (next_player_id s) sock s2).2)
      as [rest Hd]; [exists []; by rewrite app_nil_r|apply Hgreet|].
    exists m, rest. by split.
Qed.

Lemma filter_Forall {A} (P : A -> Prop) `{!forall x, Decision (P x)} (l : list A) :
  Forall P l -> filter P l = l.
Proof.
  induction 1 as [|x l Hx _ IH]; [done|].
  rewrite filter_cons_True by done. by rewrite IH.
Qed.

(** The accept thread on its own, below capacity: the session is
    registered under the next id; the first thing sent is the welcome,
    to the new session, with that id and the snapshot as it is; when
    the welcome went through, [player_joined] with the id is sent next
    to every session that was there before, in the order of the
    registry; when it did not, nothing else is sent and the session
    stays registered. *)
Lemma accept_in_sequence s sock addr :
  registry_ok s ->
  Z.of_nat (length (clients s)) < MAX_PLAYERS ->
  lock s = false ->
  let n := next_player_id s in
  let r := _accept_connections env (Some (sock, addr)) s in
  let welcome :=
    {| type := "welcome";
       data := VDict {[ KStr "player_id" := VInt n;
                        KStr "game_state" := VDict (game_state s) ]};
       timestamp := time_time env (trace s ++ [ELock; EUnlock]) |} in
  let joined :=
    {| type := "player_joined";
       data := id_payload n;
       timestamp :=
         time_time env (trace s ++ [ELock; EUnlock; ESend sock welcome Delivered]) |} in
  exists res rest,
    emitted s r.2 = [ELock; EUnlock; ESend sock welcome res] ++ rest /\
    (res <> Delivered ->
     rest = [] /\ clients r.2 = clients s ++ [(n, sock)]) /\
    (res = Delivered ->
     exists evs tail,
       rest = evs ++ tail /\ Forall is_send evs /\
       sends evs = (fun c => (c.2, joined)) <$> clients s).
Proof.
  intros Hok Hroom Hl. cbv zeta.
  destruct (_accept_connections env (Some (sock, addr)) s) as [out st] eqn:Hr.
  unfold _accept_connections, try_except in Hr. unfold bind at 1 in Hr.
  rewrite accept_register_free in Hr by done.
  set (s1 := registered sock addr s) in Hr.
  assert (Hc1 : clients s1 = clients s ++ [(next_player_id s, sock)])
    by by apply registered_clients.
  assert (Ht1 : trace s1 = trace s ++ [ELock; EUnlock]) by done.
  unfold accept_greet in Hr. rewrite bind_gets, bind_new_message in Hr.
  change (game_state s1) with (game_state s) in Hr.
  change (trace s1) with (trace s ++ [ELock; EUnlock]) in Hr.
  set (welcome := {| type := "welcome"; data := _; timestamp := _ |}) in Hr |- *.
  unfold bind at 1 in Hr.
  destruct (send_to_client_cases env sock welcome s1) as (res & Hsent).
  rewrite Hsent in Hr. clear Hsent.
  set (s2 := log (ESend sock welcome res) s1) in Hr.
  assert (Ht2 : trace s2 = trace s ++ [ELock; EUnlock; ESend sock welcome res]).
  { subst s2 s1. simpl. by rewrite <- app_assoc. }
  exists res. destruct res as [|e].
  - rewrite bind_new_message in Hr.
    change (trace s2) with ((trace s ++ [ELock; EUnlock]) ++ [ESend sock welcome Delivered]) in Hr.
    rewrite <- app_assoc in Hr. simpl app in Hr.
    set (joined := {| type := "player_joined"; data := _; timestamp := _ |}) in Hr |- *.
    unfold bind at 1 in Hr. unfold _broadcast, broadcast_with in Hr.
    rewrite bind_gets in Hr.
    destruct (send_all_exact env (clients s2) joined (Some (next_player_id s)) s2)
      as (dead & evs & Hrun & Hsends & Hall).
    unfold bind at 1 in Hr. rewrite Hrun in Hr.
    set (s3 := add_events evs s2) in Hr.
    assert (Hfilter :
      filter (fun c : Z * socket => Some (next_player_id s) <> Some c.1) (clients s2)
      = clients s).
    { change (clients s2) with (clients s1). rewrite Hc1, filter_app.
      rewrite filter_Forall.
      - rewrite filter_cons_False by (simpl; tauto). apply app_nil_r.
      - destruct Hok as [_ Hb _]. apply Forall_fmap in Hb.
        eapply Forall_impl; [done|]. simpl. intros c Hc [= Heq]. lia. }
    rewrite Hfilter in Hsends.
    assert (Hw : within (clients s3) s3
                   (for_each dead (_remove_client env) s3).2).
    { apply ok_for_each; [|apply in_registry_refl].
      intros p s' _. apply reg_remove_client. }
    destruct Hw as [_ _ (tail1 & Htl1 & _)].
    assert (Ht3 : trace s3 = trace s2 ++ evs) by done.
    destruct (for_each dead (_remove_client env) s3) as [[[]|e|] s4];
      cbn [snd] in Htl1; simpl in Hr; injection Hr as <- <-.
    + exists (evs ++ tail1 ++ [EThread (next_player_id s) sock]). split_and!.
      * apply emitted_app. unfold log, add_events at 1. cbn [trace].
        rewrite Htl1, Ht3, Ht2. by rewrite <- !app_assoc.
      * done.
      * intros _. by exists evs, (tail1 ++ [EThread (next_player_id s) sock]).
    + exists (evs ++ tail1). split_and!.
      * apply emitted_app. cbn [snd]. rewrite Htl1, Ht3, Ht2. by rewrite <- !app_assoc.
      * done.
      * intros _. by exists evs, tail1.
    + exists (evs ++ tail1). split_and!.
      * apply emitted_app. cbn [snd]. rewrite Htl1, Ht3, Ht2. by rewrite <- !app_assoc.
      * done.
      * intros _. by exists evs, tail1.
  - simpl in Hr. injection Hr as <- <-. exists []. split_and!.
    + apply emitted_app. cbn [snd]. rewrite Ht2. by rewrite app_nil_r.
    + done.
    + done.
Qed.
(** C7, as the code has it.  On accepting a connection below capacity
    the host allocates the next identifier and registers the session
    under it; the first message the accept thread sends is the welcome,
    to the new session, carrying that identifier and the current
    snapshot; when the welcome went through, [player_joined] with the
    identifier is sent next to every session that was there before and
    not to the new one.  Among the accept thread's own sends the welcome
    comes before any [game_state].  Against the update thread it is not
    ordered: the session is registered before the welcome is sent, and
    a tick that runs in between delivers its [game_state] to the new
    session first. *)
Theorem C7_accept_welcomes_then_announces s sock addr :
  registry_ok s ->
  Z.of_nat (length (clients s)) < MAX_PLAYERS ->
  lock s = false ->
  sock ∉ (clients s).*2 ->
  let n := next_player_id s in
  let r := _accept_connections env (Some (sock, addr)) s in
  let welcome :=
    {| type := "welcome";
       data := VDict {[ KStr "player_id" := VInt n;
                        KStr "game_state" := VDict (game_state s) ]};
       timestamp := time_time env (trace s ++ [ELock; EUnlock]) |} in
  let joined :=
    {| type := "player_joined";
       data := id_payload n;
       timestamp :=
         time_time env (trace s ++ [ELock; EUnlock; ESend sock welcome Delivered]) |} in
  (accept_register sock addr s = (Ret (Some n), registered sock addr s) /\
   next_player_id (registered sock addr s) = n + 1 /\
   clients (registered sock addr s) = clients s ++ [(n, sock)]) /\
  (exists res rest,
     emitted s r.2 = [ELock; EUnlock; ESend sock welcome res] ++ rest /\
     (res <> Delivered -> rest = []) /\
     (res = Delivered ->
      welcome_precedes_game_state (delivered_to sock (emitted s r.2)) /\
      exists evs tail,
        rest = evs ++ tail /\ Forall is_send evs /\
        sends evs = (fun c => (c.2, joined)) <$> clients s /\
        Forall (fun x => x.1 <> sock) (sends evs))) /\
  (closed sock s = false ->
   (forall m, type m = "game_state" -> exists bytes, frame env m = Ok bytes) ->
   (forall tr, sendall_ok env tr sock = true) ->
   exists m rest,
     delivered_to sock (emitted s (accept_overtaken env sock addr s)) = m :: rest /\
     type m = "game_state" /\
     data m = VDict (game_state s)).
Proof.
  intros Hok Hroom Hl Hfresh. cbv zeta. split_and!.
  - by apply accept_register_free.
  - reflexivity.
  - by apply registered_clients.
  - destruct (accept_in_sequence s sock addr Hok Hroom Hl)
      as (res & rest & Hem & Hfail & Hsent).
    exists res, rest. split_and!; [exact Hem | intros Hres; by apply Hfail |].
    intros ->. destruct (Hsent eq_refl) as (evs & tail & -> & Hall & Hsends).
    split.
    + rewrite Hem, delivered_to_app. simpl. rewrite decide_True by done.
      eexists [], _, _. split_and!; [reflexivity|reflexivity|constructor].
    + exists evs, tail. split_and!; [done..|].
      rewrite Hsends. apply Forall_fmap, Forall_forall. intros c Hc. simpl.
      intros Heq. apply Hfresh. apply list_elem_of_fmap. by exists c.
  - intros Hopen Hframe Hsend.
    by apply welcome_can_be_overtaken.
Qed.
End accept_path.

(** The example server is well formed. *)
Lemma registry_ok_server : registry_ok Example.server.
Proof.
  split.
  - apply (bool_decide_unpack _). vm_compute. reflexivity.
  - apply (bool_decide_unpack _). vm_compute. reflexivity.
  - vm_compute. discriminate.
Defined.

(** Witness of C7: a third connection, on socket 12, to the example
    server. *)
Lemma C7_witness :
  registry_ok Example.server /\
  Z.of_nat (length (clients Example.server)) < MAX_PLAYERS /\
  lock Example.server = false /\
  (12%nat ∉ (clients Example.server).*2) /\
  accept_register 12%nat ("10.0.0.3", 5555) Example.server =
    (Ret (Some 2), registered 12%nat ("10.0.0.3", 5555) Example.server) /\
  (exists m rest,
     delivered_to 12%nat
       (emitted Example.server
          (accept_overtaken Example.env 12%nat ("10.0.0.3", 5555) Example.server))
       = m :: rest /\
     type m = "game_state").
Proof.
  assert (H2 : Z.of_nat (length (clients Example.server)) < MAX_PLAYERS)
    by (vm_compute; reflexivity).
  assert (H4 : 12%nat ∉ (clients Example.server).*2)
    by (apply (bool_decide_unpack _); vm_compute; reflexivity).
  destruct (C7_accept_welcomes_then_announces Example.env Example.server 12%nat
              ("10.0.0.3", 5555) registry_ok_server H2 eq_refl H4)
    as ((Hreg & _) & _ & Hrace).
  split_and!; [exact registry_ok_server | exact H2 | reflexivity | exact H4 | exact Hreg |].
  destruct Hrace as (m & rest & Hd & Hty & _).
  - reflexivity.
  - intros m Hm. unfold frame. simpl. rewrite Hm. eexists. reflexivity.
  - reflexivity.
  - by exists m, rest.
Defined.

(** * More of the code *)

(** ** More of the message router *)

Section router_more.
Context (env : environment).

Lemma unlock_state g s :
  lock s = false ->
  log EUnlock (set_lock false (set_game_state g (log ELock (set_lock true s)))) =
    add_events [ELock; EUnlock] (set_game_state g s).
Proof.
  intros Hl. destruct s; simpl in *. subst.
  unfold log, add_events, set_lock, set_game_state; simpl. by rewrite <- app_assoc.
Qed.

(** [player_update], when the players of the snapshot are a
    dictionary or are missing. *)
Lemma process_player_update (player_id : Z) (message : NetworkMessage)
  (s : GameServer) (players : gmap pykey pyval) :
  lock s = false ->
  type message = "player_update" ->
  default (VDict ∅) (game_state s !! KStr "players") = VDict players ->
  _process_message env player_id message s =
    (Ret tt,
     add_events [ELock; EUnlock]
       (set_game_state
          (<[KStr "players" := VDict (<[KInt player_id := data message]> players)]>
             (game_state s)) s)).
Proof.
  intros Hl Ht Hp.
  unfold _process_message. rewrite with_lock_free by done.
  set (s0 := log ELock (set_lock true s)). rewrite Ht. simpl.
  rewrite bind_gets. change (game_state s0) with (game_state s).
  destruct (game_state s !! KStr "players") as [v|] eqn:Hv; simpl in Hp.
  - subst v. rewrite bool_decide_eq_true_2 by eauto. simpl. rewrite bind_ret.
    rewrite (bind_state_get _ _ _ (VDict players)) by done.
    simpl. unfold state_set, modify. simpl. subst s0. by rewrite unlock_state.
  - injection Hp as <-. rewrite bool_decide_eq_false_2 by (intros [? ?]; done).
    simpl. rewrite bind_state_set.
    rewrite (bind_state_get _ _ _ (VDict ∅))
      by (simpl; apply lookup_insert_eq).
    simpl. unfold state_set, modify. simpl.
    rewrite insert_insert_eq. subst s0. rewrite <- (unlock_state _ s Hl).
    reflexivity.
Qed.

(** X1. [player_update] stores the payload, whatever it is, under the
    id of the session that sent it in [game_state['players']] (created
    empty when the key is missing); the entries of the other players
    stay, the registry stays, and nothing is sent. *)
Theorem player_update_overwrites_own_entry (player_id : Z) (message : NetworkMessage)
  (s : GameServer) (players : gmap pykey pyval) :
  lock s = false ->
  type message = "player_update" ->
  default (VDict ∅) (game_state s !! KStr "players") = VDict players ->
  let r := _process_message env player_id message s in
  r = (Ret tt,
       add_events [ELock; EUnlock]
         (set_game_state
            (<[KStr "players" := VDict (<[KInt player_id := data message]> players)]>
               (game_state s)) s)) /\
  (forall q, q <> player_id ->
     forall players', game_state r.2 !! KStr "players" = Some (VDict players') ->
                      players' !! KInt q = players !! KInt q) /\
  clients r.2 = clients s /\
  sends (emitted s r.2) = [].
Proof.
  intros Hl Ht Hp. cbv zeta.
  rewrite (process_player_update player_id message s players Hl Ht Hp).
  split_and!; [done| |done|].
  - intros q Hq players'. simpl. rewrite lookup_insert_eq. intros [= <-].
    apply lookup_insert_ne. congruence.
  - simpl. by rewrite (emitted_app _ _ [ELock; EUnlock]).
Qed.

(** The end of a [with self.lock] block whose last statement is a
    broadcast: one send per session, then the release of the lock, or
    the wait for it when a send failed. *)
Lemma locked_broadcast_end m st :
  lock st = true ->
  exists evs res,
    Forall is_send evs /\
    sends evs = (fun c => (c.2, m)) <$> clients st /\
    (let '(r, s') := _broadcast env m None st in
     match r with
     | Block => (Block, s')
     | _ => (r, log EUnlock (set_lock false s'))
     end) = (res, match res with
                  | Block => add_events evs st
                  | _ => log EUnlock (set_lock false (add_events evs st))
                  end) /\
    (res = Ret tt \/ res = Block).
Proof.
  intros Hl.
  destruct (broadcast_locked_exact env m st Hl) as (evs & Hst & Hsends & Hall & Hr).
  destruct (_broadcast env m None st) as [r s'] eqn:Hb. simpl in Hst, Hr. subst s'.
  exists evs, r. split_and!; [done|done| |done].
  by destruct Hr as [-> | ->].
Qed.


(** [pickup_item] for an item that the snapshot holds. *)
Lemma process_pickup_item (player_id : Z) (message : NetworkMessage)
  (s : GameServer) (payload : gmap pykey pyval) (item_id : pyval) (k : pykey)
  (items : gmap pykey pyval) :
  lock s = false ->
  type message = "pickup_item" ->
  data message = VDict payload ->
  payload !! KStr "item_id" = Some item_id ->
  Py.to_key item_id = Ok k ->
  game_state s !! KStr "items" = Some (VDict items) ->
  is_Some (items !! k) ->
  let r := _process_message env player_id message s in
  let out := {| type := "item_picked_up";
                data := VDict {[ KStr "item_id" := item_id;
                                 KStr "player_id" := VInt player_id ]};
                timestamp := time_time env (trace s ++ [ELock]) |} in
  (r.1 = Ret tt \/ r.1 = Block) /\
  game_state r.2 = <[KStr "items" := VDict (delete k items)]> (game_state s) /\
  clients r.2 = clients s /\
  lock r.2 = (if r.1 is Block then true else false) /\
  sends (emitted s r.2) = (fun c => (c.2, out)) <$> clients s.
Proof.
  intros Hl Ht Hd Hid Hk Hitems [v Hv]. cbv zeta.
  set (out := {| type := "item_picked_up"; data := _; timestamp := _ |}).
  assert (Hget : Py.getitem (data message) (VStr "item_id") = Ok item_id)
    by (rewrite Hd; simpl; by rewrite Hid).
  destruct (_process_message env player_id message s) as [res st] eqn:Hrun.
  unfold _process_message in Hrun. rewrite with_lock_free in Hrun by done.
  set (s0 := log ELock (set_lock true s)) in Hrun.
  assert (Hitems0 : game_state s0 !! KStr "items" = Some (VDict items)) by done.
  rewrite Ht in Hrun.
  repeat first
    [ progress simpl in Hrun
    | rewrite bind_ret in Hrun
    | rewrite bind_lift_Ok in Hrun
    | rewrite bind_state_get_default in Hrun
    | rewrite (bind_state_get _ _ _ _ Hitems0) in Hrun
    | rewrite bind_state_set in Hrun
    | rewrite Hget in Hrun | rewrite Hitems in Hrun
    | rewrite Hk in Hrun | rewrite Hv in Hrun ].
  rewrite bind_new_message in Hrun.
  change (time_time env (trace _)) with (time_time env (trace s ++ [ELock])) in Hrun.
  fold out in Hrun.
  match type of Hrun with
  | context [_broadcast env out None ?st0] =>
      destruct (locked_broadcast_end out st0 eq_refl)
        as (evs & res' & Hall & Hsends & Hend & Hres);
      rewrite Hend in Hrun; clear Hend
  end.
  injection Hrun as <- <-.
  assert (Hstate : game_state s0 = game_state s) by done.
  destruct Hres as [-> | ->]; simpl.
  - split_and!; [tauto|done|done|done|].
    rewrite (emitted_app _ _ (ELock :: evs ++ [EUnlock])).
    + by rewrite sends_locked_block.
    + subst s0. unfold log, add_events, set_lock, set_game_state. simpl.
      by rewrite <- !app_assoc.
  - split_and!; [tauto|done|done|done|].
    rewrite (emitted_app _ _ (ELock :: evs)); [done|].
    subst s0. unfold log, add_events, set_lock, set_game_state. simpl.
    by rewrite <- !app_assoc.
Qed.

End router_more.

(** ** Reading from a peer that stops in mid-stream *)

Lemma recv_stop sock n h rest s :
  closed sock s = false ->
  inbox s !! sock = Some (rx_of h :: rest) ->
  recv sock n s =
    ((recv_at h rest).1, set_inbox (<[sock := (recv_at h rest).2]> (inbox s)) s).
Proof.
  intros Hopen Hin. unfold recv. rewrite Hopen, Hin.
  unfold default. cbn [from_option id]. by destruct h.
Qed.

(** The body loop, when the peer stops before the announced bytes are
    all there: what was read so far is dropped. *)
Lemma recv_loop_cut_short sock h rest k :
  forall chunks payload s size,
    length (concat chunks) = k ->
    Forall (fun c => c <> []) chunks ->
    closed sock s = false ->
    inbox s !! sock = Some ((Chunk <$> chunks) ++ rx_of h :: rest) ->
    (length payload + k < size)%nat ->
    recv_loop sock size payload s =
      (match (recv_at h rest).1 with
       | Ret _ => Ret None
       | Raise e => Raise e
       | Block => Block
       end,
       set_inbox (<[sock := (recv_at h rest).2]> (inbox s)) s).
Proof.
  induction k as [k IH] using lt_wf_ind.
  intros chunks payload s size Hk Hne Hopen Hin Hsize.
  rewrite recv_loop_step. rewrite decide_True by lia.
  destruct chunks as [|c chunks].
  - simpl in Hin. rewrite (recv_stop sock _ h rest s) by done.
    by destruct h.
  - apply Forall_cons in Hne as [Hc Hne]. simpl in Hk. rewrite length_app in Hk.
    assert (0 < length c)%nat by (destruct c; simpl; [done|lia]).
    set (n := Nat.min (size - length payload) 4096).
    assert (Hn : (0 < n)%nat) by (subst n; lia).
    rewrite (recv_chunk sock n c chunks (rx_of h :: rest) s) by done.
    assert (Htake : (0 < length (take n c))%nat) by (rewrite length_take; lia).
    destruct (take n c) as [|b bs] eqn:Etake; [simpl in Htake; lia|].
    rewrite <- Etake. clear Htake Etake b bs.
    set (s' := set_inbox _ s).
    rewrite (IH (length (concat (after_read n c chunks)))
               ltac:(rewrite concat_after_read, length_app, length_drop; lia)
               (after_read n c chunks) (payload ++ take n c) s' size).
    + subst s'. by rewrite set_inbox_twice.
    + done.
    + by apply Forall_after_read.
    + done.
    + subst s'. simpl. by rewrite lookup_insert_eq.
    + rewrite concat_after_read, !length_app, length_take, length_drop. lia.
Qed.

Section cut_short.
Context (env : environment).

(** The peer stops before the first byte of a frame. *)
Lemma receive_nothing sock h rest s :
  closed sock s = false ->
  inbox s !! sock = Some (rx_of h :: rest) ->
  _receive_from_client env sock s =
    (match h with
     | Quiet => Raise SocketTimeout
     | Ended => Ret None
     | Broken => Raise ConnectionError
     end,
     set_inbox (<[sock := (recv_at h rest).2]> (inbox s)) s).
Proof.
  intros Hopen Hin. unfold _receive_from_client, bind.
  rewrite (recv_stop sock 4 h rest s) by done. by destruct h.
Qed.

(** The first [recv] returns fewer than four bytes. *)
Lemma receive_header_fragment sock c rest s :
  c <> [] -> (length c < 4)%nat ->
  closed sock s = false ->
  inbox s !! sock = Some (Chunk c :: rest) ->
  _receive_from_client env sock s =
    (Ret None, set_inbox (<[sock := rest]> (inbox s)) s).
Proof.
  intros Hc Hlen Hopen Hin. unfold _receive_from_client, bind.
  rewrite (recv_chunk sock 4 c [] rest s) by done.
  rewrite take_ge by lia.
  destruct (Nat.ltb_spec (length c) 4) as [_|?]; [|lia].
  unfold after_read. rewrite drop_ge by lia. done.
Qed.

(** The peer stops after the header and a part of the body. *)
Lemma receive_cut_in_body sock s h size header part first others rest :
  to_bytes (Z.of_nat size) = Ok header ->
  concat (first :: others) = header ++ part ->
  (length part < size)%nat ->
  (4 <= length first)%nat ->
  Forall (fun c => c <> []) others ->
  closed sock s = false ->
  inbox s !! sock = Some ((Chunk <$> (first :: others)) ++ rx_of h :: rest) ->
  _receive_from_client env sock s =
    (match h with
     | Quiet => Raise SocketTimeout
     | Ended => Ret None
     | Broken => Raise ConnectionError
     end,
     set_inbox (<[sock := (recv_at h rest).2]> (inbox s)) s).
Proof.
  intros Hhdr Hcat Hpart Hfirst Hne Hopen Hin.
  apply from_to_bytes in Hhdr as [Hsize Hlen].
  assert (Hc : first <> []) by (destruct first; simpl in *; [lia|done]).
  assert (Htake : take 4 first = header).
  { simpl in Hcat. apply (f_equal (take 4)) in Hcat.
    rewrite take_app_le in Hcat by lia.
    by rewrite take_app_length' in Hcat by done. }
  assert (Hdrop : drop 4 first ++ concat others = part).
  { simpl in Hcat. apply (f_equal (drop 4)) in Hcat.
    rewrite drop_app_le in Hcat by lia.
    by rewrite drop_app_length' in Hcat by done. }
  unfold _receive_from_client, bind.
  rewrite (recv_chunk sock 4 first others (rx_of h :: rest) s) by done.
  rewrite Htake, Hlen. change (4 <? 4)%nat with false. cbv beta iota.
  set (s' := set_inbox _ s).
  rewrite (recv_loop_cut_short sock h rest (length part)
             (after_read 4 first others) [] s').
  - subst s'. rewrite set_inbox_twice. by destruct h.
  - by rewrite concat_after_read, Hdrop.
  - by apply Forall_after_read.
  - done.
  - subst s'. simpl. by rewrite lookup_insert_eq.
  - rewrite Hsize. simpl. lia.
Qed.

Lemma handle_client_continue n player_id sock s s1 :
  running s = true ->
  handle_client_step env player_id sock s = (Ret Continue, s1) ->
  _handle_client env (S n) player_id sock s = _handle_client env n player_id sock s1.
Proof.
  intros Hrun Hstep. unfold _handle_client. simpl handle_client_loop.
  unfold bind at 1. unfold bind at 1. unfold gets at 1. rewrite Hrun.
  unfold bind at 1. rewrite Hstep. done.
Qed.

Lemma handle_client_break n player_id sock s s1 :
  running s = true ->
  handle_client_step env player_id sock s = (Ret Break, s1) ->
  _handle_client env (S n) player_id sock s =
    (let! _ := _remove_client env player_id in ret Finished) s1.
Proof.
  intros Hrun Hstep. unfold _handle_client. simpl handle_client_loop.
  unfold bind at 1. unfold bind at 1. unfold gets at 1. rewrite Hrun.
  unfold bind at 1. rewrite Hstep. done.
Qed.

Lemma handle_client_removes player_id s1 :
  lock s1 = false ->
  let r := (let! _ := _remove_client env player_id in ret Finished) s1 in
  r.1 <> Ret Looping /\ OrdDict.lookup (clients r.2) player_id = None.
Proof.
  intros Hl. cbv zeta.
  pose proof (remove_client_upto_gone env (length (clients s1)) player_id s1 Hl) as Hgone.
  unfold bind. fold (_remove_client env player_id s1) in Hgone.
  destruct (_remove_client env player_id s1) as [[[]|e|] s2]; simpl in *; done.
Qed.


(** X5. A session ends, and is removed from the registry, when its
    peer closes or breaks the connection, before a frame or in the
    middle of one, and also when the first [recv] of a frame returns
    fewer than the four bytes of the header, although the peer is
    still there and the rest is on its way. *)
Theorem session_ends_when_stream_stops (n : nat) (player_id : Z)
  (sock : socket) (s : GameServer) (rest : list rx) :
  closed sock s = false ->
  running s = true ->
  lock s = false ->
  let r := _handle_client env (S n) player_id sock s in
  let gone := r.1 <> Ret Looping /\ OrdDict.lookup (clients r.2) player_id = None in
  (forall h, h <> Quiet -> inbox s !! sock = Some (rx_of h :: rest) -> gone) /\
  (forall h size header part first others,
     h <> Quiet ->
     to_bytes (Z.of_nat size) = Ok header ->
     concat (first :: others) = header ++ part ->
     (length part < size)%nat ->
     (4 <= length first)%nat ->
     Forall (fun c => c <> []) others ->
     inbox s !! sock = Some ((Chunk <$> (first :: others)) ++ rx_of h :: rest) ->
     gone) /\
  (forall c,
     c <> [] -> (length c < 4)%nat ->
     inbox s !! sock = Some (Chunk c :: rest) ->
     gone /\
     handle_client_step env player_id sock s =
       (Ret Break, set_inbox (<[sock := rest]> (inbox s)) s)).
Proof.
  intros Hopen Hrun Hl. cbv zeta. split_and!.
  - intros h Hh Hin.
    assert (Hstep : handle_client_step env player_id sock s =
              (Ret Break, set_inbox (<[sock := (recv_at h rest).2]> (inbox s)) s)).
    { unfold handle_client_step, try_except, bind.
      rewrite (receive_nothing sock h rest s) by done. by destruct h. }
    rewrite (handle_client_break n _ _ _ _ Hrun Hstep).
    by apply handle_client_removes.
  - intros h size header part first others Hh Hhdr Hcat Hpart Hfirst Hne Hin.
    assert (Hstep : handle_client_step env player_id sock s =
              (Ret Break, set_inbox (<[sock := (recv_at h rest).2]> (inbox s)) s)).
    { unfold handle_client_step, try_except, bind.
      rewrite (receive_cut_in_body sock s h size header part first others rest) by done.
      by destruct h. }
    rewrite (handle_client_break n _ _ _ _ Hrun Hstep).
    by apply handle_client_removes.
  - intros c Hc Hlen Hin.
    assert (Hstep : handle_client_step env player_id sock s =
              (Ret Break, set_inbox (<[sock := rest]> (inbox s)) s)).
    { unfold handle_client_step, try_except, bind.
      by rewrite (receive_header_fragment sock c rest s). }
    split; [|done].
    rewrite (handle_client_break n _ _ _ _ Hrun Hstep).
    by apply handle_client_removes.
Qed.
End cut_short.

Section malformed.
Context (env : environment).

Lemma getitem_not_timeout c k e : Py.getitem c k = Err e -> e <> SocketTimeout.
Proof.
  unfold Py.getitem, Py.to_key. intros H Heq. subst e.
  repeat case_match; simplify_eq.
Qed.

(** A message that lacks a key that the router reads: the [KeyError]
    (or [TypeError], when the payload is no dictionary) leaves the
    [with] block, which releases the lock; nothing was changed. *)
Lemma process_message_missing_key player_id message e s :
  lock s = false ->
  (type message = "enemy_damage" /\
   Py.getitem (data message) (VStr "enemy_id") = Err e) \/
  (type message = "enemy_damage" /\
   (exists enemy_id, Py.getitem (data message) (VStr "enemy_id") = Ok enemy_id) /\
   Py.getitem (data message) (VStr "damage") = Err e) \/
  (type message = "pickup_item" /\
   Py.getitem (data message) (VStr "item_id") = Err e) ->
  _process_message env player_id message s = (Raise e, add_events [ELock; EUnlock] s).
Proof.
  intros Hl H. unfold _process_message. rewrite with_lock_free by done.
  destruct H as [[Ht He] | [(Ht & [enemy_id Hid] & He) | [Ht He]]]; rewrite Ht; simpl.
  - rewrite He, bind_lift_Err. simpl. by rewrite unlock_lock.
  - rewrite Hid, bind_lift_Ok, He, bind_lift_Err. simpl. by rewrite unlock_lock.
  - rewrite He, bind_lift_Err. simpl. by rewrite unlock_lock.
Qed.

(** X6. A well-framed message that lacks a key that the router reads
    ([enemy_id] or [damage] of [enemy_damage], [item_id] of
    [pickup_item]) changes nothing in the snapshot, and costs its
    sender the session: the exception leaves the loop of
    [_handle_client], and the session is removed. *)
Theorem malformed_message_ends_session (n : nat) (player_id : Z) (sock : socket)
  (s : GameServer) (header payload first : list Byte.byte)
  (others : list (list Byte.byte)) (rest : list rx) (message : NetworkMessage) (e : exn) :
  to_bytes (Z.of_nat (length payload)) = Ok header ->
  pickle_loads env payload = Some message ->
  concat (first :: others) = header ++ payload ->
  (4 <= length first)%nat ->
  Forall (fun c => c <> []) others ->
  closed sock s = false ->
  inbox s !! sock = Some ((Chunk <$> (first :: others)) ++ rest) ->
  running s = true ->
  lock s = false ->
  (type message = "enemy_damage" /\
   Py.getitem (data message) (VStr "enemy_id") = Err e) \/
  (type message = "enemy_damage" /\
   (exists enemy_id, Py.getitem (data message) (VStr "enemy_id") = Ok enemy_id) /\
   Py.getitem (data message) (VStr "damage") = Err e) \/
  (type message = "pickup_item" /\
   Py.getitem (data message) (VStr "item_id") = Err e) ->
  let s1 := set_inbox (<[sock := rest]> (inbox s)) s in
  let r := _handle_client env (S n) player_id sock s in
  _process_message env player_id message s1 = (Raise e, add_events [ELock; EUnlock] s1) /\
  handle_client_step env player_id sock s = (Ret Break, add_events [ELock; EUnlock] s1) /\
  r.1 <> Ret Looping /\
  OrdDict.lookup (clients r.2) player_id = None.
Proof.
  intros Hhdr Hloads Hcat Hfirst Hne Hopen Hin Hrun Hl Hbad. cbv zeta.
  set (s1 := set_inbox (<[sock := rest]> (inbox s)) s).
  assert (Hproc : _process_message env player_id message s1 =
                  (Raise e, add_events [ELock; EUnlock] s1))
    by by apply process_message_missing_key.
  assert (He : e <> SocketTimeout).
  { destruct Hbad as [[_ H] | [(_ & _ & H) | [_ H]]];
      by apply getitem_not_timeout in H. }
  assert (Hstep : handle_client_step env player_id sock s =
                  (Ret Break, add_events [ELock; EUnlock] s1)).
  { unfold handle_client_step, try_except. unfold bind at 1.
    rewrite (receive_frame env sock s header payload first others rest) by done.
    rewrite Hloads. fold s1. unfold bind. rewrite Hproc.
    by rewrite bool_decide_eq_false_2. }
  split_and!; [done|done|..];
    rewrite (handle_client_break env n _ _ _ _ Hrun Hstep);
    by apply handle_client_removes.
Qed.

(** One turn of the loop of [_handle_client] on a whole frame. *)
Lemma handle_step_processes player_id sock s header payload first others rest message :
  to_bytes (Z.of_nat (length payload)) = Ok header ->
  pickle_loads env payload = Some message ->
  concat (first :: others) = header ++ payload ->
  (4 <= length first)%nat ->
  Forall (fun c => c <> []) others ->
  closed sock s = false ->
  inbox s !! sock = Some ((Chunk <$> (first :: others)) ++ rest) ->
  let s1 := set_inbox (<[sock := rest]> (inbox s)) s in
  handle_client_step env player_id sock s =
    (match (_process_message env player_id message s1).1 with
     | Ret _ => Ret Continue
     | Raise e => Ret (if bool_decide (e = SocketTimeout) then Continue else Break)
     | Block => Block
     end, (_process_message env player_id message s1).2).
Proof.
  intros Hhdr Hloads Hcat Hfirst Hne Hopen Hin. cbv zeta.
  unfold handle_client_step, try_except. unfold bind at 1.
  rewrite (receive_frame env sock s header payload first others rest) by done.
  rewrite Hloads. unfold bind.
  destruct (_process_message env player_id message _) as [[[]|e|] s2]; simpl; try done.
  by case_bool_decide.
Qed.

(** X7. A frame that arrives on the socket of a session is decoded
    and routed under the id of that session, whatever the message
    says, and the loop goes on to the next frame.  So a
    [player_update] that arrives on the socket of session [player_id]
    sets the entry of [player_id] among the players of the snapshot,
    and no other. *)
Theorem session_routes_frame_under_its_own_id (n : nat) (player_id : Z) (sock : socket)
  (s : GameServer) (header payload first : list Byte.byte)
  (others : list (list Byte.byte)) (rest : list rx) (message : NetworkMessage)
  (players : gmap pykey pyval) :
  to_bytes (Z.of_nat (length payload)) = Ok header ->
  pickle_loads env payload = Some message ->
  concat (first :: others) = header ++ payload ->
  (4 <= length first)%nat ->
  Forall (fun c => c <> []) others ->
  closed sock s = false ->
  inbox s !! sock = Some ((Chunk <$> (first :: others)) ++ rest) ->
  running s = true ->
  lock s = false ->
  type message = "player_update" ->
  default (VDict ∅) (game_state s !! KStr "players") = VDict players ->
  let s2 :=
    add_events [ELock; EUnlock]
      (set_game_state
         (<[KStr "players" := VDict (<[KInt player_id := data message]> players)]>
            (game_state s))
         (set_inbox (<[sock := rest]> (inbox s)) s)) in
  handle_client_step env player_id sock s = (Ret Continue, s2) /\
  _handle_client env (S n) player_id sock s = _handle_client env n player_id sock s2 /\
  inbox s2 !! sock = Some rest.
Proof.
  intros Hhdr Hloads Hcat Hfirst Hne Hopen Hin Hrun Hl Ht Hp. cbv zeta.
  assert (Hstep : handle_client_step env player_id sock s =
    (Ret Continue,
     add_events [ELock; EUnlock]
       (set_game_state
          (<[KStr "players" := VDict (<[KInt player_id := data message]> players)]>
             (game_state s))
          (set_inbox (<[sock := rest]> (inbox s)) s)))).
  { rewrite (handle_step_processes player_id sock s header payload first others rest
               message) by done.
    by rewrite (process_player_update env player_id message _ players). }
  split_and!; [done| |].
  - by apply handle_client_continue.
  - simpl. by rewrite lookup_insert_eq.
Qed.
End malformed.

(** ** Failing sends *)

Section failing.
Context (env : environment).

Lemma unreachable_add_sends sock evs s :
  Forall is_send evs -> unreachable env sock s -> unreachable env sock (add_events evs s).
Proof.
  intros Hall [Hc|Hd]; [left|by right].
  unfold closed in *. apply bool_decide_eq_true. apply bool_decide_eq_true in Hc.
  simpl. apply elem_of_app. by left.
Qed.

Lemma send_to_unreachable sock m s :
  unreachable env sock s ->
  exists e, _send_to_client env sock m s = (Raise e, log (ESend sock m (Failed e)) s).
Proof.
  intros Hu. unfold _send_to_client. destruct (frame env m) as [bytes|e]; [|by eauto].
  assert ((negb (closed sock s) && sendall_ok env (trace s) sock) = false) as ->.
  { destruct Hu as [-> | ->]; [done|]. apply andb_false_r. }
  by eauto.
Qed.

(** The first loop of [_broadcast], with the ids it collects: none when
    every send went through, and in any case those of the sessions that
    cannot be reached. *)
Lemma send_all_dead items m exclude s :
  exists dead evs,
    send_all env items m exclude s = (Ret dead, add_events evs s) /\
    sends evs = (fun c => (c.2, m)) <$> filter (fun c => exclude <> Some c.1) items /\
    Forall is_send evs /\
    (dead = [] <-> Forall (fun e => failed_send e = false) evs) /\
    (forall p sock, (p, sock) ∈ items -> exclude <> Some p ->
                    unreachable env sock s -> p ∈ dead).
Proof.
  revert s. induction items as [|[p sock] items IH]; intros s; simpl.
  - exists [], []. rewrite add_events_nil. split_and!; [done..| |].
    + done.
    + intros ? ? Hin. by apply elem_of_nil in Hin.
  - case_bool_decide as Hex.
    + rewrite filter_cons_False by (simpl; tauto).
      destruct (IH s) as (dead & evs & Hrun & Hsends & Hall & Hnil & Hin).
      exists dead, evs. split_and!; [done..|].
      intros q sock' Hq Hne Hu. apply elem_of_cons in Hq as [[= -> ->]|Hq]; [done|].
      by eapply Hin.
    + rewrite filter_cons_True by done. unfold bind at 1, try_except, bind at 1.
      destruct (send_to_client_cases env sock m s) as (res & Hsend).
      destruct (IH (log (ESend sock m res) s))
        as (dead & evs & Hrun & Hsends & Hall & Hnil & Hin).
      assert (Hadd : add_events evs (log (ESend sock m res) s) =
                     add_events (ESend sock m res :: evs) s)
        by apply add_events_app.
      assert (Hlater : forall q sock', (q, sock') ∈ items -> exclude <> Some q ->
                 unreachable env sock' s -> q ∈ dead).
      { intros q sock' Hq Hne Hu. eapply Hin; [done..|].
        apply (unreachable_add_sends sock' [ESend sock m res] s); [|done].
        by repeat constructor. }
      destruct res as [|e].
      * rewrite Hsend. simpl. unfold bind. rewrite Hrun. simpl. rewrite Hadd.
        exists dead, (ESend sock m Delivered :: evs). simpl.
        rewrite Hsends. split_and!; [done|done|by constructor| |].
        -- rewrite Hnil. split; [by constructor|]. by intros [_ ?]%Forall_cons.
        -- intros q sock' Hq Hne Hu. apply elem_of_cons in Hq as [[= -> ->]|Hq].
           ++ destruct (send_to_unreachable sock m s Hu) as (e & He).
              rewrite He in Hsend. done.
           ++ by eapply Hlater.
      * rewrite Hsend. simpl. unfold bind. rewrite Hrun. simpl. rewrite Hadd.
        exists (p :: dead), (ESend sock m (Failed e) :: evs). simpl.
        rewrite Hsends. split_and!; [done|done|by constructor| |].
        -- split; [done|]. by intros [? _]%Forall_cons.
        -- intros q sock' Hq Hne Hu. apply elem_of_cons in Hq as [[= -> ->]|Hq].
           ++ by left.
           ++ right. by eapply Hlater.
Qed.

(** A broadcast to every session made with the lock held: it returns
    when every send went through, and waits for the lock, for ever,
    when one did not. *)
Lemma broadcast_locked_dead (f : Z -> M unit) m s :
  lock s = true ->
  (forall p s', lock s' = true -> f p s' = (Block, s')) ->
  exists evs,
    Forall is_send evs /\
    sends evs = (fun c => (c.2, m)) <$> clients s /\
    broadcast_with env f m None s =
      (if bool_decide (Forall (fun e => failed_send e = false) evs) then Ret tt else Block,
       add_events evs s) /\
    (forall p sock, (p, sock) ∈ clients s -> unreachable env sock s ->
                    ~ Forall (fun e => failed_send e = false) evs).
Proof.
  intros Hl Hf. unfold broadcast_with. rewrite bind_gets.
  destruct (send_all_dead (clients s) m None s)
    as (dead & evs & Hrun & Hsends & Hall & Hnil & Hin).
  rewrite filter_all in Hsends by done.
  exists evs. split_and!; [done|done| |].
  - unfold bind. rewrite Hrun. destruct dead as [|p dead].
    + rewrite bool_decide_eq_true_2 by by apply Hnil. done.
    + rewrite bool_decide_eq_false_2 by (intros H; by apply Hnil in H).
      simpl. unfold bind. by rewrite Hf.
  - intros p sock Hp Hu H. apply Hnil in H. subst dead.
    specialize (Hin p sock Hp ltac:(done) Hu). by apply elem_of_nil in Hin.
Qed.

Lemma no_failed_send evs :
  filter (fun e => failed_send e = true) evs = [] <->
  Forall (fun e => failed_send e = false) evs.
Proof.
  induction evs as [|e evs IH]; [done|].
  destruct (failed_send e) eqn:He.
  - rewrite filter_cons_True by done. split; [done|].
    intros [? _]%Forall_cons. congruence.
  - rewrite filter_cons_False by congruence. rewrite IH.
    split; [by constructor|]. by intros [_ ?]%Forall_cons.
Qed.

(** X8. One iteration of [_update_loop] sends one [game_state]
    message, carrying the snapshot as it is, to every session in the
    order of the registry; it changes neither snapshot nor registry.
    It returns, the lock released, when every send went through; when
    one did not, the thread is left waiting for the lock that it
    holds. *)
Theorem tick_sends_snapshot_to_every_session (s : GameServer) :
  lock s = false ->
  let r := _update_loop env s in
  let m := {| type := "game_state"; data := VDict (game_state s);
              timestamp := time_time env (trace s ++ [ELock]) |} in
  let failed := filter (fun e => failed_send e = true) (emitted s r.2) in
  sends (emitted s r.2) = (fun c => (c.2, m)) <$> clients s /\
  game_state r.2 = game_state s /\
  clients r.2 = clients s /\
  (failed = [] -> r.1 = Ret tt /\ lock r.2 = false) /\
  (failed <> [] -> r.1 = Block /\ lock r.2 = true).
Proof.
  intros Hl. cbv zeta. unfold _update_loop. rewrite with_lock_free by done.
  set (s0 := log ELock (set_lock true s)).
  rewrite bind_gets, bind_new_message.
  change (game_state s0) with (game_state s).
  change (trace s0) with (trace s ++ [ELock]).
  set (m := {| type := "game_state"; data := _; timestamp := _ |}).
  unfold _broadcast.
  destruct (broadcast_locked_dead (_remove_client env) m s0 eq_refl)
    as (evs & Hall & Hsends & -> & _).
  { intros p s' Hl'. by apply remove_client_locked. }
  assert (Hfilter : forall tail, Forall (fun e => failed_send e = false) tail ->
            filter (fun e => failed_send e = true) (ELock :: evs ++ tail) = [] <->
            Forall (fun e => failed_send e = false) evs).
  { intros tail Htail. rewrite no_failed_send, Forall_cons, Forall_app. tauto. }
  case_bool_decide as Hok; simpl.
  - rewrite (emitted_app _ _ (ELock :: evs ++ [EUnlock]))
      by (subst s0; unfold log, add_events, set_lock; simpl; by rewrite <- !app_assoc).
    split_and!; [by rewrite sends_locked_block|done|done|done|].
    intros Hne. exfalso. apply Hne. apply Hfilter; [by repeat constructor|done].
  - rewrite (emitted_app _ _ (ELock :: evs ++ []))
      by (subst s0; unfold log, add_events, set_lock; simpl;
          by rewrite app_nil_r, <- !app_assoc).
    split_and!; [|done|done| |done].
    + rewrite app_nil_r. done.
    + intros Hnil. exfalso. apply Hok. by apply (Hfilter []).
Qed.
End failing.

(** ** A lock that is never released *)

Global Instance keeps_lock_frame : Frame locked keeps_lock.
Proof.
  split; unfold keeps_lock, locked; try done.
  - intros s1 s2 s3 [? ?] [? ?]. split; congruence.
  - intros s s' [? ?] ?. congruence.
Qed.

Lemma held_of_quiet {A} (m : M A) s :
  ok locked only_sends m s -> ok locked keeps_lock m s.
Proof. intros H Hl. by destruct (H Hl). Qed.

Lemma keeps_lock_modify f s :
  lock (f s) = lock s -> clients (f s) = clients s ->
  ok locked keeps_lock (modify f) s.
Proof. intros ? ?. by apply ok_modify. Qed.

Ltac held_special :=
  idtac;
  lazymatch goal with
  | |- ok _ _ (with_lock _) _ => apply held_of_quiet, quiet_with_lock
  | |- ok _ _ (_broadcast _ _ _) _ => apply held_of_quiet, quiet_broadcast
  | |- ok _ _ (_remove_client _ _) _ => apply held_of_quiet, quiet_remove_client
  | |- ok _ _ (_send_to_client _ _ _) _ => apply held_of_quiet, quiet_send_to_client
  | |- ok _ _ (modify _) _ => apply keeps_lock_modify; reflexivity
  end.

Section wedged.
Context (env : environment).

#[local] Abbreviation held := (ok locked keeps_lock).

Lemma held_process_message player_id message s :
  held (_process_message env player_id message) s.
Proof. apply held_of_quiet, quiet_with_lock. Qed.

Lemma held_handle_client_step player_id sock s :
  held (handle_client_step env player_id sock) s.
Proof.
  unfold handle_client_step. apply ok_try_except.
  - apply ok_bind; [apply ok_receive_from_client|].
    intros [message|] _; [|apply ok_ret].
    apply ok_bind; [apply held_process_message|]. intros; apply ok_ret.
  - intros e _. case_bool_decide; apply ok_ret.
Qed.

Lemma held_handle_client_loop n player_id sock s :
  held (handle_client_loop env n player_id sock) s.
Proof.
  revert s. induction n as [|n IH]; intros s; simpl; [apply ok_ret|].
  apply ok_bind; [apply ok_gets|]. intros go _. destruct go; [|apply ok_ret].
  apply ok_bind; [apply held_handle_client_step|].
  intros [] _; [apply IH | apply ok_ret].
Qed.

Lemma held_handle_client n player_id sock s :
  held (_handle_client env n player_id sock) s.
Proof.
  unfold _handle_client. apply ok_bind; [apply held_handle_client_loop|].
  intros [] _; [|apply ok_ret].
  apply ok_bind; [held_special|]. intros; apply ok_ret.
Qed.

Lemma held_accept_connections conn s : held (_accept_connections env conn) s.
Proof.
  unfold _accept_connections. apply ok_try_except; [|intros; apply ok_ret].
  destruct conn as [[sock addr]|]; [|apply ok_raise].
  apply ok_bind.
  - unfold accept_register. repeat ok_step held_special.
  - intros [p|] _; [|apply ok_ret]. unfold accept_greet.
    repeat ok_step held_special.
Qed.

Lemma held_stop s : held stop s.
Proof.
  unfold stop. apply ok_bind; [by apply keeps_lock_modify|]. intros _ _.
  apply ok_bind; [apply ok_gets|]. intros items _.
  apply ok_for_each. intros; by apply keeps_lock_modify.
Qed.

Lemma step_keeps_held_lock o s : lock s = true -> keeps_lock s (step env o s).
Proof.
  intros Hl. destruct o; simpl.
  - by apply (ok_start (P := locked) (R := keeps_lock)).
  - by apply held_stop.
  - by apply held_accept_connections.
  - exact (held_of_quiet _ s (quiet_remove_client env player_id s) Hl).
  - by apply held_process_message.
  - exact (held_of_quiet _ s (quiet_with_lock _ s) Hl).
  - exact (held_of_quiet _ s (quiet_with_lock _ s) Hl).
  - by apply held_handle_client.
Qed.

Lemma run_keeps_held_lock ops s : lock s = true -> keeps_lock s (run env ops s).
Proof.
  revert s. induction ops as [|o ops IH]; intros s Hl; [done|].
  simpl. destruct (step_keeps_held_lock o s Hl) as [Hl1 Hc1].
  destruct (IH (step env o s)) as [Hl2 Hc2]; [congruence|].
  split; congruence.
Qed.

(** A tick that cannot reach one of the sessions ends in the wait for
    the lock. *)
Lemma tick_blocks (s : GameServer) (p : Z) (sock : socket) :
  lock s = false ->
  (p, sock) ∈ clients s ->
  unreachable env sock s ->
  (_update_loop env s).1 = Block /\ lock (_update_loop env s).2 = true /\
  clients (_update_loop env s).2 = clients s.
Proof.
  intros Hl Hin Hu.
  unfold _update_loop. rewrite with_lock_free by done.
  set (s0 := log ELock (set_lock true s)).
  rewrite bind_gets, bind_new_message. unfold _broadcast.
  match goal with
  | |- context [broadcast_with env _ ?m None s0] =>
      destruct (broadcast_locked_dead env (_remove_client env) m s0 eq_refl)
        as (evs & Hall & Hsends & -> & Hsome)
  end.
  { intros q s' Hl'. by apply remove_client_locked. }
  rewrite bool_decide_eq_false_2; [done|].
  apply (Hsome p sock); [done|].
  destruct Hu as [Hc|Hd]; [left|by right].
  unfold closed in *. apply bool_decide_eq_true. apply bool_decide_eq_true in Hc.
  subst s0. unfold log, add_events, set_lock. simpl. apply elem_of_app. by left.
Qed.

(** X9. A tick that cannot reach one of the sessions leaves the update
    thread waiting for the lock that it holds, and from then on the
    lock is never free again: whatever the other threads do, every
    later message, tick, removal and [update_game_state] waits for the
    lock too, and no new session is registered. *)
Theorem failed_send_in_tick_wedges_server (s : GameServer) (p : Z) (sock : socket) :
  lock s = false ->
  (p, sock) ∈ clients s ->
  unreachable env sock s ->
  let r := _update_loop env s in
  r.1 = Block /\
  lock r.2 = true /\
  forall ops,
    let s' := run env ops r.2 in
    lock s' = true /\
    (forall q message, _process_message env q message s' = (Block, s')) /\
    _update_loop env s' = (Block, s') /\
    (forall q, _remove_client env q s' = (Block, s')) /\
    (forall state_update, update_game_state state_update s' = (Block, s')) /\
    clients s' = clients s.
Proof.
  intros Hl Hin Hu. cbv zeta.
  destruct (tick_blocks s p sock Hl Hin Hu) as (Hb & Hl1 & Hc1). split_and!; [done..|].
  intros ops.
  destruct (run_keeps_held_lock ops _ Hl1) as [Hl' Hc'].
  rewrite Hl1 in Hl'.
  split_and!; [done|..].
  - intros q message. unfold _process_message. by rewrite with_lock_held.
  - unfold _update_loop. by rewrite with_lock_held.
  - intros q. by apply remove_client_locked.
  - intros u. unfold update_game_state. by rewrite with_lock_held.
  - congruence.
Qed.
End wedged.

(** ** Leaving *)

Section leaving.
Context (env : environment).

Lemma del_absent {V} (d : OrdDict.t V) k : OrdDict.mem d k = false -> OrdDict.del d k = d.
Proof.
  unfold OrdDict.mem, OrdDict.del. intros H. apply filter_Forall.
  apply Forall_forall. intros [k' v] Hin Heq. simpl in Heq. subst k'.
  destruct (OrdDict.lookup d k) eqn:Hlk; [done|].
  apply lookup_None_keys in Hlk. apply Hlk. apply list_elem_of_fmap. by exists (k, v).
Qed.

(** X10. [_remove_client] for a registered id closes the session's
    socket, deletes the id from the registry, from the addresses and
    from the players of the snapshot, and sends [player_left] with the
    id to every session that remains, and not to the one removed.  It
    returns when all these sends went through; when one did not, the
    thread is left waiting for the lock that it holds. *)
Theorem remove_client_registered (player_id : Z) (sock : socket) (s : GameServer)
  (players : gmap pykey pyval) :
  lock s = false ->
  OrdDict.lookup (clients s) player_id = Some sock ->
  default (VDict ∅) (game_state s !! KStr "players") = VDict players ->
  let r := _remove_client env player_id s in
  let m := {| type := "player_left"; data := id_payload player_id;
              timestamp := time_time env (trace s ++ [ELock; EClose sock]) |} in
  let failed := filter (fun e => failed_send e = true) (emitted s r.2) in
  clients r.2 = OrdDict.del (clients s) player_id /\
  client_addresses r.2 = OrdDict.del (client_addresses s) player_id /\
  game_state r.2 =
    (if bool_decide (is_Some (players !! KInt player_id))
     then <[KStr "players" := VDict (delete (KInt player_id) players)]> (game_state s)
     else game_state s) /\
  closed sock r.2 = true /\
  sends (emitted s r.2) = (fun c => (c.2, m)) <$> OrdDict.del (clients s) player_id /\
  (failed = [] -> r.1 = Ret tt /\ lock r.2 = false) /\
  (failed <> [] -> r.1 = Block /\ lock r.2 = true).
Proof.
  intros Hl Hlk Hp. cbv zeta. rewrite remove_client_unfold. simpl remove_client_upto.
  rewrite with_lock_free by done.
  set (s0 := log ELock (set_lock true s)). rewrite bind_gets.
  change (clients s0) with (clients s). rewrite Hlk. rewrite !bind_modify, bind_gets.
  set (s1 := set_clients _ _).
  set (s2 := (if OrdDict.mem (client_addresses s1) player_id
              then set_client_addresses (OrdDict.del (client_addresses s1) player_id) s1
              else s1)).
  assert (Hwhen : forall B (k : unit -> M B),
            bind (when (OrdDict.mem (client_addresses s1) player_id)
                    (modify (set_client_addresses
                               (OrdDict.del (client_addresses s1) player_id)))) k s1 =
            k tt s2).
  { intros B k. subst s2. unfold bind, when, modify, ret.
    by destruct (OrdDict.mem _ _). }
  rewrite Hwhen. clear Hwhen.
  assert (Hs2 : clients s2 = OrdDict.del (clients s) player_id /\
                client_addresses s2 = OrdDict.del (client_addresses s) player_id /\
                game_state s2 = game_state s /\ lock s2 = true /\
                trace s2 = trace s ++ [ELock; EClose sock]).
  { subst s2. destruct (OrdDict.mem (client_addresses s1) player_id) eqn:Hmem.
    - split_and!; try done. subst s1 s0. unfold log, add_events, set_lock. simpl.
      by rewrite <- app_assoc.
    - split_and!; try done.
      + symmetry. by apply del_absent.
      + subst s1 s0. unfold log, add_events, set_lock. simpl.
        by rewrite <- app_assoc. }
  destruct Hs2 as (Hc2 & Ha2 & Hg2 & Hl2 & Ht2). clearbody s2. clear s1.
  rewrite bind_state_get_default. rewrite Hg2, Hp. simpl.
  set (known := bool_decide (is_Some (players !! KInt player_id))).
  set (s3 := if known
             then set_game_state
                    (<[KStr "players" := VDict (delete (KInt player_id) players)]>
                       (game_state s)) s2
             else s2).
  assert (Hwhen : forall B (k : unit -> M B),
            bind (when known
                    (let! players := state_get "players" in
                     let! players' := lift (Py.delitem players (VInt player_id)) in
                     state_set "players" players')) k s2 = k tt s3).
  { intros B k. subst s3 known. case_bool_decide as Hk; simpl; [|done].
    destruct Hk as [v Hv].
    assert (Hget : game_state s2 !! KStr "players" = Some (VDict players)).
    { rewrite Hg2. destruct (game_state s !! KStr "players") as [w|]; simpl in Hp.
      - by subst w.
      - injection Hp as <-. by rewrite lookup_empty in Hv. }
    unfold bind at 1. rewrite (bind_state_get _ _ _ _ Hget). simpl. rewrite Hv. simpl.
    unfold state_set, modify. by rewrite Hg2. }
  rewrite bind_ret, Hwhen. clear Hwhen.
  assert (Hs3 : clients s3 = OrdDict.del (clients s) player_id /\
                client_addresses s3 = OrdDict.del (client_addresses s) player_id /\
                game_state s3 =
                  (if known
                   then <[KStr "players" := VDict (delete (KInt player_id) players)]>
                          (game_state s)
                   else game_state s) /\
                lock s3 = true /\
                trace s3 = trace s ++ [ELock; EClose sock]).
  { subst s3. by destruct known. }
  destruct Hs3 as (Hc3 & Ha3 & Hg3 & Hl3 & Ht3). clearbody s3.
  rewrite bind_new_message. rewrite Ht3.
  set (m := {| type := "player_left"; data := _; timestamp := _ |}).
  destruct (broadcast_locked_dead env (fun _ => with_lock (ret tt)) m s3 Hl3)
    as (evs & Hall & Hsends & -> & _).
  { intros p s' Hl'. by rewrite with_lock_held. }
  rewrite Hc3 in Hsends.
  assert (Hclosed : forall tail, EClose sock ∈ trace s ++ [ELock; EClose sock] ++ tail).
  { intros tail. rewrite !elem_of_app. right. left.
    apply elem_of_cons. right. apply elem_of_cons. by left. }
  assert (Hfilter : forall tail, Forall (fun e => failed_send e = false) tail ->
            filter (fun e => failed_send e = true)
              ([ELock; EClose sock] ++ evs ++ tail) = [] <->
            Forall (fun e => failed_send e = false) evs).
  { intros tail Htail. rewrite no_failed_send, Forall_app, Forall_app.
    split; [tauto|]. intros ?. split_and!; [by repeat constructor|done|done]. }
  case_bool_decide as Hok; simpl.
  - assert (Htr : trace (log EUnlock (set_lock false (add_events evs s3))) =
                  trace s ++ [ELock; EClose sock] ++ evs ++ [EUnlock]).
    { unfold log, add_events, set_lock. simpl. rewrite Ht3.
      by rewrite <- !app_assoc. }
    rewrite (emitted_app _ _ _ Htr).
    split_and!; [done|done|done| | |done|].
    + unfold closed. rewrite Htr. by apply bool_decide_eq_true.
    + rewrite !sends_app. simpl. rewrite Hsends. by rewrite app_nil_r.
    + intros Hne. exfalso. apply Hne. apply Hfilter; [by repeat constructor|done].
  - assert (Htr : trace (add_events evs s3) =
                  trace s ++ [ELock; EClose sock] ++ evs ++ []).
    { unfold add_events. simpl. rewrite Ht3. by rewrite app_nil_r, <- !app_assoc. }
    rewrite (emitted_app _ _ _ Htr).
    split_and!; [done|done|done| | | |done].
    + unfold closed. rewrite Htr. by apply bool_decide_eq_true.
    + rewrite !sends_app. simpl. rewrite Hsends. by rewrite app_nil_r.
    + intros Hnil. exfalso. apply Hok. by apply (Hfilter []).
Qed.
End leaving.

(** ** Stopping, and joining a server that cannot answer *)

Section stopping.
Context (env : environment).

Lemma close_all socks s :
  for_each socks (fun client => modify (log (EClose client))) s =
    (Ret tt, add_events (EClose <$> socks) s).
Proof.
  revert s. induction socks as [|c socks IH]; intros s; simpl.
  - by rewrite add_events_nil.
  - unfold bind, modify. rewrite IH. unfold log. by rewrite add_events_app.
Qed.

(** X11. [stop] clears [running] and closes the socket of every
    session, without taking the lock and without touching the
    registry: the sessions stay registered, and every later send to one
    of them fails. *)
Theorem stop_closes_sockets_keeps_registry (s : GameServer) :
  let r := stop s in
  r.1 = Ret tt /\
  running r.2 = false /\
  clients r.2 = clients s /\
  lock r.2 = lock s /\
  game_state r.2 = game_state s /\
  emitted s r.2 = EClose <$> (clients s).*2 /\
  (forall p sock m, (p, sock) ∈ clients s ->
     closed sock r.2 = true /\
     exists e, (_send_to_client env sock m r.2).1 = Raise e).
Proof.
  cbv zeta. unfold stop. rewrite bind_modify, bind_gets.
  unfold OrdDict.values. simpl clients. rewrite close_all. simpl.
  split_and!; [done..| |].
  - by rewrite (emitted_app _ _ (EClose <$> (clients s).*2)).
  - intros p sock m Hin.
    assert (Hc : closed sock (add_events (EClose <$> (clients s).*2) (set_running false s))
                 = true).
    { unfold closed. apply bool_decide_eq_true. simpl. apply elem_of_app. right.
      apply list_elem_of_fmap. exists sock. split; [done|].
      apply list_elem_of_fmap. by exists (p, sock). }
    split; [done|].
    destruct (send_to_unreachable env sock m _ (or_introl Hc)) as (e & ->). by exists e.
Qed.

(** X12. When the welcome cannot be sent, the exception ends the
    iteration of [_accept_connections] there: the session stays
    registered under the id it was given, no [player_joined] is sent
    and no thread is started for it; nothing will ever remove it for
    reading, and the next tick, which cannot reach it either, leaves
    the update thread waiting for the lock that it holds. *)
Theorem failed_welcome_leaves_session_registered (s : GameServer) (sock : socket)
  (addr : address) :
  registry_ok s ->
  Z.of_nat (length (clients s)) < MAX_PLAYERS ->
  lock s = false ->
  (forall tr, sendall_ok env tr sock = false) ->
  let n := next_player_id s in
  let r := _accept_connections env (Some (sock, addr)) s in
  let welcome :=
    {| type := "welcome";
       data := VDict {[ KStr "player_id" := VInt n;
                        KStr "game_state" := VDict (game_state s) ]};
       timestamp := time_time env (trace s ++ [ELock; EUnlock]) |} in
  r.1 = Ret tt /\
  clients r.2 = clients s ++ [(n, sock)] /\
  next_player_id r.2 = n + 1 /\
  lock r.2 = false /\
  (exists e, emitted s r.2 = [ELock; EUnlock; ESend sock welcome (Failed e)]) /\
  (_update_loop env r.2).1 = Block.
Proof.
  intros Hok Hroom Hl Hdown. cbv zeta.
  assert (Hu : forall s', unreachable env sock s') by (intros s'; by right).
  destruct (_accept_connections env (Some (sock, addr)) s) as [out st] eqn:Hr.
  unfold _accept_connections, try_except in Hr. unfold bind at 1 in Hr.
  rewrite accept_register_free in Hr by done.
  set (s1 := registered sock addr s) in Hr.
  assert (Hc1 : clients s1 = clients s ++ [(next_player_id s, sock)])
    by by apply registered_clients.
  unfold accept_greet in Hr. rewrite bind_gets, bind_new_message in Hr.
  change (game_state s1) with (game_state s) in Hr.
  change (trace s1) with (trace s ++ [ELock; EUnlock]) in Hr.
  set (welcome := {| type := "welcome"; data := _; timestamp := _ |}) in *.
  unfold bind at 1 in Hr.
  destruct (send_to_unreachable env sock welcome s1 (Hu s1)) as (e & Hsend).
  rewrite Hsend in Hr. injection Hr as <- <-. simpl.
  split_and!; [done|done|done|done| |].
  - exists e. apply emitted_app. unfold log, add_events. simpl.
    by rewrite <- app_assoc.
  - set (s2 := log _ s1).
    destruct (tick_blocks env s2 (next_player_id s) sock) as [H _].
    + done.
    + change ((next_player_id s, sock) ∈ clients s1). rewrite Hc1.
      apply elem_of_app. right. by left.
    + apply Hu.
    + done.
Qed.
End stopping.

(** ** Broadcasts made without the lock *)

Section cleanup.
Context (env : environment).

Lemma held_broadcast_cut m exclude s :
  ok locked keeps_lock (broadcast_with env (fun _ => with_lock (ret tt)) m exclude) s.
Proof.
  unfold broadcast_with. apply ok_bind; [apply ok_gets|]. intros items _.
  apply ok_bind; [apply held_of_quiet, quiet_send_all|]. intros dead _.
  apply ok_for_each. intros; apply held_of_quiet, quiet_with_lock.
Qed.

(** Whatever becomes of the call, [_remove_client] that got the lock
    leaves the registry without the id, and as it was otherwise. *)
Lemma remove_client_clients player_id s :
  lock s = false ->
  let r := _remove_client env player_id s in
  clients r.2 = OrdDict.del (clients s) player_id /\
  (r.1 <> Block -> lock r.2 = false).
Proof.
  intros Hl. cbv zeta. rewrite remove_client_unfold. simpl remove_client_upto.
  rewrite with_lock_free by done.
  set (s0 := log ELock (set_lock true s)). rewrite bind_gets.
  change (clients s0) with (clients s).
  destruct (OrdDict.lookup (clients s) player_id) as [sock|] eqn:Hlk.
  - rewrite !bind_modify.
    set (s1 := set_clients _ _).
    match goal with
    | |- context [bind (gets client_addresses) ?k s1] =>
        set (tail := bind (gets client_addresses) k)
    end.
    assert (Hheld : ok locked keeps_lock tail s1).
    { subst tail. repeat ok_step ltac:(first [held_special | apply held_broadcast_cut]). }
    destruct (Hheld eq_refl) as [Hl1 Hc1].
    destruct (tail s1) as [[[]|e|] s2]; simpl in *; by rewrite ?Hc1.
  - simpl. split; [|done]. symmetry. apply del_absent.
    unfold OrdDict.mem. by rewrite Hlk.
Qed.

Lemma filter_del (dead : list Z) p (cs : OrdDict.t socket) :
  filter (fun c => c.1 ∉ dead) (OrdDict.del cs p) =
  filter (fun c => c.1 ∉ p :: dead) cs.
Proof.
  unfold OrdDict.del. induction cs as [|[q sock] cs IH]; [done|].
  destruct (decide (q = p)) as [->|Hne].
  - rewrite (filter_cons_False _ (p, sock)) by (simpl; tauto).
    rewrite (filter_cons_False _ (p, sock)); [done|].
    simpl. intros H. apply H. by left.
  - rewrite (filter_cons_True _ (q, sock)) by done.
    destruct (decide (q ∈ dead)) as [Hin|Hout].
    + rewrite !filter_cons_False; [done|..]; simpl.
      * intros H. apply H. by right.
      * tauto.
    + rewrite !filter_cons_True; [by rewrite IH|..]; simpl.
      * intros [?|?]%elem_of_cons; done.
      * done.
Qed.

(** The second loop of [_broadcast], when it comes to its end. *)
Lemma remove_all dead s s' :
  lock s = false ->
  for_each dead (_remove_client env) s = (Ret tt, s') ->
  clients s' = filter (fun c => c.1 ∉ dead) (clients s) /\ lock s' = false.
Proof.
  revert s. induction dead as [|p dead IH]; intros s Hl Hrun.
  - injection Hrun as <-. split; [|done]. symmetry. apply filter_Forall.
    apply Forall_forall. intros c _ Hin. by apply elem_of_nil in Hin.
  - simpl in Hrun. unfold bind in Hrun.
    destruct (remove_client_clients p s Hl) as [Hc Hfree].
    destruct (_remove_client env p s) as [[[]|e|] s1]; [|done..].
    simpl in *. destruct (IH s1 (Hfree ltac:(done)) Hrun) as [Hc' Hl'].
    split; [|done]. by rewrite Hc', Hc, filter_del.
Qed.

(** X13. A broadcast made without the lock (the [player_joined] of the
    accept thread) that comes to its end has removed every session that
    it could not reach, and no other; when every send went through the
    registry is as it was. *)
Theorem broadcast_drops_sessions_it_cannot_reach (message : NetworkMessage)
  (exclude : option Z) (s : GameServer) :
  lock s = false ->
  let r := _broadcast env message exclude s in
  r.1 = Ret tt ->
  lock r.2 = false /\
  sublist (clients r.2) (clients s) /\
  (forall p sock, (p, sock) ∈ clients s -> exclude <> Some p ->
     unreachable env sock s -> OrdDict.lookup (clients r.2) p = None) /\
  (filter (fun e => failed_send e = true) (emitted s r.2) = [] ->
   clients r.2 = clients s).
Proof.
  intros Hl. cbv zeta. unfold _broadcast, broadcast_with. rewrite bind_gets.
  destruct (send_all_dead env (clients s) message exclude s)
    as (dead & evs & Hrun & Hsends & Hall & Hnil & Hin).
  unfold bind. rewrite Hrun.
  destruct (for_each dead (_remove_client env) (add_events evs s)) as [out s'] eqn:Hfor.
  simpl. intros ->.
  destruct (remove_all dead (add_events evs s) s' Hl Hfor) as [Hc Hl'].
  change (clients (add_events evs s)) with (clients s) in Hc.
  split_and!; [done|..].
  - rewrite Hc. apply sublist_filter.
  - intros p sock Hp Hne Hu. apply lookup_None_keys. rewrite Hc.
    intros ([q sock'] & Heq & Hq)%list_elem_of_fmap. simpl in Heq. subst q.
    apply list_elem_of_filter in Hq as [Hq _]. simpl in Hq. apply Hq.
    by eapply Hin.
  - intros Hnone.
    assert (Hext : exists tail, trace s' = trace s ++ evs ++ tail).
    { destruct (ok_for_each (P := in_registry (clients s)) (R := within (clients s))
                  dead (_remove_client env) (add_events evs s)) as [_ _ (tail & Ht & _)].
      - intros; apply reg_remove_client.
      - unfold in_registry. done.
      - rewrite Hfor in Ht. simpl in Ht. exists tail. rewrite Ht.
        unfold add_events. simpl. by rewrite <- app_assoc. }
    destruct Hext as (tail & Htr).
    rewrite (emitted_app _ _ _ Htr) in Hnone.
    apply no_failed_send in Hnone. apply Forall_app in Hnone as [Hnone _].
    apply Hnil in Hnone. subst dead. rewrite Hc. apply filter_Forall.
    apply Forall_forall. intros c _ H. by apply elem_of_nil in H.
Qed.

(** X14. The bytes of a message on the wire are its pickle preceded by
    four bytes that read, as a big-endian number, the length of the
    pickle.  A pickle of 2^32 bytes or more has no such header: the
    send raises [OverflowError] and nothing reaches the peer. *)
Theorem frame_is_length_header_and_pickle (message : NetworkMessage) :
  match pickle_dumps env message with
  | None => frame env message = Err PicklingError
  | Some payload =>
      if Z.of_nat (length payload) <? 2 ^ 32 then
        exists header,
          frame env message = Ok (header ++ payload) /\
          length header = 4%nat /\
          from_bytes header = Z.of_nat (length payload)
      else
        frame env message = Err OverflowError /\
        forall sock s,
          _send_to_client env sock message s =
            (Raise OverflowError, log (ESend sock message (Failed OverflowError)) s)
  end.
Proof.
  unfold frame, _send_to_client. destruct (pickle_dumps env message) as [payload|] eqn:Hd;
    [|done].
  destruct (Z.ltb_spec (Z.of_nat (length payload)) (2 ^ 32)) as [Hlt|Hge].
  - destruct (to_bytes (Z.of_nat (length payload))) as [header|e] eqn:Hh.
    + exists header. apply from_to_bytes in Hh as [? ?]. done.
    + unfold to_bytes in Hh.
      destruct (Z.leb_spec 0 (Z.of_nat (length payload))); [|lia].
      destruct (Z.ltb_spec (Z.of_nat (length payload)) (2 ^ 32)); [done|lia].
  - rewrite to_bytes_overflow by done.
    split; [done|]. intros sock s. unfold frame. rewrite Hd.
    by rewrite to_bytes_overflow by done.
Qed.
End cleanup.

(** ** What the host sends *)

Lemma sends_catalog_same s s' : trace s' = trace s -> sends_catalog s s'.
Proof. intros H. exists []. by rewrite app_nil_r. Qed.

Lemma sends_catalog_log e s : in_catalog e -> sends_catalog s (log e s).
Proof. intros H. exists [e]. split; [done|]. by constructor. Qed.

Lemma sends_catalog_trans s1 s2 s3 :
  sends_catalog s1 s2 -> sends_catalog s2 s3 -> sends_catalog s1 s3.
Proof.
  intros (evs1 & H1 & Hf1) (evs2 & H2 & Hf2). exists (evs1 ++ evs2).
  rewrite H2, H1, app_assoc. split; [done|]. by apply Forall_app.
Qed.

Global Instance sends_catalog_frame : Frame anyhow sends_catalog.
Proof.
  split; try done.
  - intros s. by apply sends_catalog_same.
  - apply sends_catalog_trans.
  - intros. by apply sends_catalog_same.
  - intros. by apply sends_catalog_same.
  - intros. by apply sends_catalog_same.
  - intros. by apply sends_catalog_same.
Qed.

Lemma catalog_modify f s :
  trace (f s) = trace s -> ok anyhow sends_catalog (modify f) s.
Proof. intros H. by apply ok_modify, sends_catalog_same. Qed.

Lemma catalog_with_lock {A} (body : M A) s :
  (forall s1, ok anyhow sends_catalog body s1) ->
  ok anyhow sends_catalog (with_lock body) s.
Proof.
  intros Hb _. unfold with_lock. destruct (lock s); [by apply sends_catalog_same|].
  set (s1 := log ELock (set_lock true s)).
  assert (H1 : sends_catalog s s1) by (exists [ELock]; by repeat constructor).
  specialize (Hb s1 I).
  assert (Hun : forall s2, sends_catalog s2 (log EUnlock (set_lock false s2)))
    by (intros s2; exists [EUnlock]; by repeat constructor).
  destruct (body s1) as [[a|e|] s2]; simpl in *.
  - eapply sends_catalog_trans; [done|]. by eapply sends_catalog_trans.
  - eapply sends_catalog_trans; [done|]. by eapply sends_catalog_trans.
  - by eapply sends_catalog_trans.
Qed.

Section catalogue.
Context (env : environment).

#[local] Abbreviation listed := (ok anyhow sends_catalog).

Lemma catalog_send_to_client sock m s :
  type m ∈ catalog -> listed (_send_to_client env sock m) s.
Proof.
  intros Hm _. unfold _send_to_client.
  destruct (frame env m); [|by apply sends_catalog_log].
  destruct (_ && _); by apply sends_catalog_log.
Qed.

Lemma catalog_send_all items m exclude s :
  type m ∈ catalog -> listed (send_all env items m exclude) s.
Proof.
  intros Hm. revert s. induction items as [|[p sock] items IH]; intros s; simpl.
  - apply ok_ret.
  - case_bool_decide; [by apply IH|].
    apply ok_bind.
    + apply ok_try_except.
      * apply ok_bind; [|intros; apply ok_ret]. by apply catalog_send_to_client.
      * intros; apply ok_ret.
    + intros dead _. apply ok_bind; [by apply IH|]. intros; apply ok_ret.
Qed.

Lemma catalog_broadcast_with (f : Z -> M unit) m exclude s :
  type m ∈ catalog -> (forall p s', listed (f p) s') ->
  listed (broadcast_with env f m exclude) s.
Proof.
  intros Hm Hf. unfold broadcast_with.
  apply ok_bind; [apply ok_gets|]. intros items _.
  apply ok_bind; [by apply catalog_send_all|].
  intros dead _. apply ok_for_each. auto.
Qed.

Lemma catalog_remove_client_upto depth player_id s :
  listed (remove_client_upto env depth player_id) s.
Proof.
  revert player_id s. induction depth as [|depth IH]; intros player_id s.
  all: simpl; apply catalog_with_lock; intros s1.
  all: apply ok_bind; [apply ok_gets|]; intros items _.
  all: destruct (OrdDict.lookup items player_id) as [sock|]; [|apply ok_ret].
  all: apply ok_bind; [apply ok_modify; by apply sends_catalog_log|]; intros _ _.
  all: apply ok_bind; [by apply catalog_modify|]; intros _ _.
  all: apply ok_bind; [apply ok_gets|]; intros ? _.
  all: apply ok_bind;
    [apply ok_when; intros _; by apply catalog_modify|]; intros _ _.
  all: apply ok_bind; [apply ok_state_get_default|]; intros ? _.
  all: apply ok_bind; [apply ok_lift|]; intros ? _.
  all: apply ok_bind;
    [apply ok_when; intros _; apply ok_bind; [apply ok_state_get|];
     intros ? _; apply ok_bind; [apply ok_lift|]; intros ? _;
     apply ok_state_set|]; intros _ _.
  all: apply ok_bind_new_message; intros m Ht _.
  all: apply catalog_broadcast_with;
    [rewrite Ht; unfold catalog; set_solver|].
  - intros p s'. apply catalog_with_lock. intros; apply ok_ret.
  - intros p s'. apply IH.
Qed.

Lemma catalog_remove_client player_id s : listed (_remove_client env player_id) s.
Proof. apply catalog_remove_client_upto. Qed.

Lemma catalog_broadcast m exclude s :
  type m ∈ catalog -> listed (_broadcast env m exclude) s.
Proof.
  intros Hm. apply catalog_broadcast_with; [done|]. intros; apply catalog_remove_client.
Qed.

Ltac catalog_special :=
  idtac;
  lazymatch goal with
  | |- ok _ _ (with_lock _) _ => apply catalog_with_lock; intros ?
  | |- ok _ _ (_broadcast _ ?m _) _ =>
      apply catalog_broadcast;
      match goal with H : type m = _ |- _ => rewrite H end;
      unfold catalog; set_solver
  | |- ok _ _ (_send_to_client _ _ ?m) _ =>
      apply catalog_send_to_client;
      match goal with H : type m = _ |- _ => rewrite H end;
      unfold catalog; set_solver
  | |- ok _ _ (_remove_client _ _) _ => apply catalog_remove_client
  | |- ok _ _ (modify (log ?e)) _ => apply ok_modify; by apply sends_catalog_log
  | |- ok _ _ (modify _) _ => by apply catalog_modify
  end.

Lemma catalog_process_message player_id message s :
  listed (_process_message env player_id message) s.
Proof. unfold _process_message. repeat ok_step catalog_special. Qed.

Lemma catalog_update_loop s : listed (_update_loop env) s.
Proof. unfold _update_loop. repeat ok_step catalog_special. Qed.

Lemma catalog_accept_connections conn s : listed (_accept_connections env conn) s.
Proof.
  unfold _accept_connections. apply ok_try_except; [|intros; apply ok_ret].
  destruct conn as [[sock addr]|]; [|apply ok_raise].
  apply ok_bind.
  - unfold accept_register. repeat ok_step catalog_special.
  - intros [p|] _; [|apply ok_ret]. unfold accept_greet.
    repeat ok_step catalog_special.
Qed.

Lemma catalog_handle_client_step player_id sock s :
  listed (handle_client_step env player_id sock) s.
Proof.
  unfold handle_client_step. apply ok_try_except.
  - apply ok_bind; [apply ok_receive_from_client|].
    intros [message|] _; [|apply ok_ret].
    apply ok_bind; [apply catalog_process_message|]. intros; apply ok_ret.
  - intros e _. case_bool_decide; apply ok_ret.
Qed.

Lemma catalog_handle_client_loop n player_id sock s :
  listed (handle_client_loop env n player_id sock) s.
Proof.
  revert s. induction n as [|n IH]; intros s; simpl; [apply ok_ret|].
  apply ok_bind; [apply ok_gets|]. intros go _. destruct go; [|apply ok_ret].
  apply ok_bind; [apply catalog_handle_client_step|].
  intros [] _; [apply IH | apply ok_ret].
Qed.

Lemma catalog_handle_client n player_id sock s :
  listed (_handle_client env n player_id sock) s.
Proof.
  unfold _handle_client. apply ok_bind; [apply catalog_handle_client_loop|].
  intros [] _; [|apply ok_ret].
  apply ok_bind; [apply catalog_remove_client|]. intros; apply ok_ret.
Qed.

Lemma catalog_stop s : listed stop s.
Proof.
  unfold stop. apply ok_bind; [by apply catalog_modify|]. intros _ _.
  apply ok_bind; [apply ok_gets|]. intros items _.
  apply ok_for_each. intros; apply ok_modify; by apply sends_catalog_log.
Qed.

Lemma catalog_step o s : sends_catalog s (step env o s).
Proof.
  destruct o; simpl.
  - by apply (ok_start (P := anyhow) (R := sends_catalog)).
  - by apply catalog_stop.
  - by apply catalog_accept_connections.
  - by apply catalog_remove_client.
  - by apply catalog_process_message.
  - by apply catalog_update_loop.
  - apply (catalog_with_lock _ s); [|done]. intros s1. by apply catalog_modify.
  - by apply catalog_handle_client.
Qed.

(** X15. Whatever the threads of the host do, and whatever the clients
    send, every message that the host sends has one of eight types:
    [welcome], [player_joined], [player_left], [player_attack],
    [enemy_died], [enemy_damaged], [item_picked_up] and [game_state].
    The type of a client's message is never passed on. *)
Theorem host_sends_only_its_own_types (ops : list op) (s : GameServer) :
  Forall (fun x => type x.2 ∈ catalog) (sends (emitted s (run env ops s))).
Proof.
  assert (H : sends_catalog s (run env ops s)).
  { revert s. induction ops as [|o ops IH]; intros s; simpl.
    - by apply sends_catalog_same.
    - eapply sends_catalog_trans; [apply catalog_step|apply IH]. }
  destruct H as (evs & Ht & Hall). rewrite (emitted_app _ _ _ Ht).
  clear Ht. induction Hall as [|e evs He _ IH]; [constructor|].
  destruct e; simpl in *; try done. by constructor.
Qed.
End catalogue.

(** ** The client *)

Module ClientFacts.
Import Client.
#[local] Open Scope client_scope.
#[local] Arguments log : simpl never.
#[local] Arguments set_lock : simpl never.
#[local] Arguments add_events : simpl never.

Lemma client_bind_ret {A B} (a : A) (k : A -> M B) : bind (ret a) k = k a.
Proof. done. Qed.

Lemma client_bind_gets {A B} (f : GameClient -> A) (k : A -> M B) c :
  bind (gets f) k c = k (f c) c.
Proof. done. Qed.

Lemma client_bind_modify {B} f (k : unit -> M B) c : bind (modify f) k c = k tt (f c).
Proof. done. Qed.

Lemma client_bind_lift_Ok {A B} (a : A) (k : A -> M B) : bind (lift (Ok a)) k = k a.
Proof. done. Qed.

Lemma client_bind_lift_Err {A B} e (k : A -> M B) : bind (lift (Err e)) k = raise e.
Proof. done. Qed.

Lemma client_with_lock_held {A} (body : M A) c :
  lock c = true -> with_lock body c = (Block, c).
Proof. intros H. unfold with_lock. by rewrite H. Qed.

Lemma client_with_lock_free {A} (body : M A) c :
  lock c = false ->
  with_lock body c =
    (let '(r, c') := body (log ELock (set_lock true c)) in
     match r with
     | Block => (Block, c')
     | _ => (r, log EUnlock (set_lock false c'))
     end).
Proof.
  intros H. unfold with_lock. rewrite H.
  by destruct (body _) as [[a|e|] c'].
Qed.

Lemma client_add_events_nil c : add_events [] c = c.
Proof. destruct c; unfold add_events; simpl. by rewrite app_nil_r. Qed.

Lemma client_add_events_app evs1 evs2 c :
  add_events evs2 (add_events evs1 c) = add_events (evs1 ++ evs2) c.
Proof. unfold add_events; simpl. by rewrite app_assoc. Qed.

Lemma client_emitted_app c c' evs : trace c' = trace c ++ evs -> emitted c c' = evs.
Proof. intros H. unfold emitted. rewrite H. apply drop_app_length. Qed.


Lemma client_recv_loop_step size payload c :
  recv_loop size payload c =
    if decide (length payload < size)%nat then
      match recv (Nat.min (size - length payload) 4096) c with
      | (Ret [], c') => (Ret None, c')
      | (Ret (b :: bs), c') => recv_loop size (payload ++ b :: bs) c'
      | (Raise e, c') => (Raise e, c')
      | (Block, c') => (Block, c')
      end
    else (Ret (Some payload), c).
Proof.
  rewrite recv_loop_equation_1.
  destruct (lt_dec (length payload) size) as [Hlt|Hge]; simpl.
  - rewrite decide_True by done.
    destruct (recv _ c) as [[[|b bs]|e|] c']; simpl; try done.
  - by rewrite decide_False by done.
Qed.

Lemma client_set_inbox_id c sock script :
  inbox c !! sock = Some script -> set_inbox (<[sock := script]> (inbox c)) c = c.
Proof. intros H. rewrite insert_id by done. by destruct c. Qed.

Lemma client_set_inbox_twice sock script1 script2 c :
  set_inbox (<[sock := script2]> (inbox (set_inbox (<[sock := script1]> (inbox c)) c)))
    (set_inbox (<[sock := script1]> (inbox c)) c) =
  set_inbox (<[sock := script2]> (inbox c)) c.
Proof. unfold set_inbox; simpl. by rewrite insert_insert_eq. Qed.

Lemma client_recv_chunk sock n chunk chunks rest c :
  chunk <> [] -> socket c = Some sock -> closed sock c = false ->
  inbox c !! sock = Some ((Chunk <$> (chunk :: chunks)) ++ rest) ->
  recv n c =
    (Ret (take n chunk),
     set_inbox (<[sock := (Chunk <$> after_read n chunk chunks) ++ rest]> (inbox c)) c).
Proof.
  intros Hc Hs Hopen Hin. unfold recv. rewrite Hs, Hopen, Hin.
  unfold default. cbn [from_option id]. by rewrite take_rx_chunk.
Qed.

Lemma client_recv_stop sock n h rest c :
  socket c = Some sock -> closed sock c = false ->
  inbox c !! sock = Some (rx_of h :: rest) ->
  recv n c =
    ((recv_at h rest).1, set_inbox (<[sock := (recv_at h rest).2]> (inbox c)) c).
Proof.
  intros Hs Hopen Hin. unfold recv. rewrite Hs, Hopen, Hin.
  unfold default. cbn [from_option id]. by destruct h.
Qed.

Lemma client_recv_loop_delivers sock rest k :
  forall chunks payload c size,
    length (concat chunks) = k ->
    Forall (fun chunk => chunk <> []) chunks ->
    socket c = Some sock ->
    closed sock c = false ->
    inbox c !! sock = Some ((Chunk <$> chunks) ++ rest) ->
    size = (length payload + k)%nat ->
    recv_loop size payload c =
      (Ret (Some (payload ++ concat chunks)),
       set_inbox (<[sock := rest]> (inbox c)) c).
Proof.
  induction k as [k IH] using lt_wf_ind.
  intros chunks payload c size Hk Hne Hs Hopen Hin Hsize.
  rewrite client_recv_loop_step. destruct chunks as [|chunk chunks].
  - simpl in *. subst k. rewrite decide_False by lia.
    rewrite app_nil_r. by rewrite client_set_inbox_id.
  - apply Forall_cons in Hne as [Hc Hne]. simpl in Hk. rewrite length_app in Hk.
    assert (0 < length chunk)%nat by (destruct chunk; simpl; [done|lia]).
    rewrite decide_True by lia.
    set (n := Nat.min (size - length payload) 4096).
    assert (Hn : (0 < n)%nat) by (subst n; lia).
    rewrite (client_recv_chunk sock n chunk chunks rest c) by done.
    assert (Htake : (0 < length (take n chunk))%nat) by (rewrite length_take; lia).
    destruct (take n chunk) as [|b bs] eqn:Etake; [simpl in Htake; lia|].
    rewrite <- Etake. clear Htake Etake b bs.
    set (c' := set_inbox _ c).
    rewrite (IH (length (concat (after_read n chunk chunks)))
               ltac:(rewrite concat_after_read, length_app, length_drop; lia)
               (after_read n chunk chunks) (payload ++ take n chunk) c' size).
    + rewrite concat_after_read. subst c'. rewrite client_set_inbox_twice.
      f_equal. f_equal. f_equal. simpl.
      rewrite <- (take_drop n chunk) at 3. by rewrite <- !app_assoc.
    + done.
    + by apply Forall_after_read.
    + done.
    + done.
    + subst c'. simpl. by rewrite lookup_insert_eq.
    + rewrite concat_after_read, !length_app, length_take, length_drop. lia.
Qed.

Lemma calls_of_run payload (cbs : list callback) :
  calls ((fun cb => ECall cb payload) <$> cbs) = (fun cb => (cb, payload)) <$> cbs.
Proof.
  induction cbs as [|cb cbs IH]; [done|].
  rewrite !fmap_cons.
  change (calls (ECall cb payload :: ((fun cb => ECall cb payload) <$> cbs)))
    with ((cb, payload) :: calls ((fun cb => ECall cb payload) <$> cbs)).
  by rewrite IH.
Qed.

Lemma calls_locked evs : calls (ELock :: evs ++ [EUnlock]) = calls evs.
Proof. unfold calls. simpl. rewrite omap_app. simpl. by rewrite app_nil_r. Qed.

Section peer_facts.
Context (env : environment).

(** A whole frame from the host, its header not cut. *)
Lemma client_receive_frame sock c header payload first others rest :
  to_bytes (Z.of_nat (length payload)) = Ok header ->
  concat (first :: others) = header ++ payload ->
  (4 <= length first)%nat ->
  Forall (fun chunk => chunk <> []) others ->
  socket c = Some sock ->
  closed sock c = false ->
  inbox c !! sock = Some ((Chunk <$> (first :: others)) ++ rest) ->
  _receive_message env c =
    (match pickle_loads (wire env) payload with
     | Some message => Ret (Some message)
     | None => Raise UnpicklingError
     end,
     set_inbox (<[sock := rest]> (inbox c)) c).
Proof.
  intros Hhdr Hcat Hfirst Hne Hs Hopen Hin.
  apply from_to_bytes in Hhdr as [Hsize Hlen].
  assert (Hc : first <> []) by (destruct first; simpl in *; [lia|done]).
  assert (Htake : take 4 first = header).
  { simpl in Hcat. apply (f_equal (take 4)) in Hcat.
    rewrite take_app_le in Hcat by lia.
    by rewrite take_app_length' in Hcat by done. }
  assert (Hdrop : drop 4 first ++ concat others = payload).
  { simpl in Hcat. apply (f_equal (drop 4)) in Hcat.
    rewrite drop_app_le in Hcat by lia.
    by rewrite drop_app_length' in Hcat by done. }
  unfold _receive_message, bind.
  rewrite (client_recv_chunk sock 4 first others rest c) by done.
  rewrite Htake, Hlen. change (4 <? 4)%nat with false. cbv beta iota.
  set (c' := set_inbox _ c).
  rewrite (client_recv_loop_delivers sock rest (length payload)
             (after_read 4 first others) [] c').
  - rewrite concat_after_read, Hdrop. simpl app. subst c'.
    rewrite client_set_inbox_twice. rewrite app_nil_l.
    by destruct (pickle_loads (wire env) payload).
  - by rewrite concat_after_read, Hdrop.
  - by apply Forall_after_read.
  - done.
  - done.
  - subst c'. simpl. by rewrite lookup_insert_eq.
  - rewrite Hsize. simpl. lia.
Qed.

(** X16. [send_message] never raises.  It does nothing when the client
    is not connected or has no socket.  When it is connected, either
    the frame of the message goes out, or the failure (of the pickling,
    of the framing or of the send) is swallowed and the client marks
    itself disconnected; from then on [send_message] does nothing, and
    nothing ever sets [connected] back but a new [connect]. *)
Theorem send_message_never_raises (message : NetworkMessage) (c : GameClient) :
  let r := send_message env message c in
  r.1 = Ret tt /\
  (connected c = false \/ socket c = None -> r.2 = c) /\
  (forall sock,
     connected c = true -> socket c = Some sock ->
     (exists bytes,
        frame (wire env) message = Ok bytes /\
        r.2 = log (ESendall sock bytes true) c) \/
     (connected r.2 = false /\ sent (emitted c r.2) = [])) /\
  (connected r.2 = false ->
   forall later, send_message env later r.2 = (Ret tt, r.2)).
Proof.
  cbv zeta.
  assert (Hoff : forall m c', connected c' = false -> send_message env m c' = (Ret tt, c')).
  { intros m c' Hc. unfold send_message. rewrite !client_bind_gets, Hc.
    by destruct (socket c'). }
  split_and!; [..|intros Hd later; by apply Hoff].
  all: unfold send_message; rewrite !client_bind_gets.
  all: destruct (socket c) as [sock|] eqn:Hs; [|done].
  all: destruct (connected c) eqn:Hc; [|done].
  all: unfold try_except, bind.
  all: destruct (frame (wire env) message) as [bytes|e] eqn:Hf; simpl.
  all: try (unfold sendall;
            destruct (negb (closed sock c) && sendall_ok env (trace c) sock) eqn:Hok;
            simpl).
  all: try done.
  all: try (intros [?|?]; discriminate).
  all: intros ? _ [= <-].
  all: first
    [ left; by exists bytes
    | right; (split; [done|]);
      first [ by rewrite (client_emitted_app _ _ [ESendall sock bytes false])
            | by rewrite (client_emitted_app _ _ []) by (simpl; by rewrite app_nil_r) ] ].
Qed.

Lemma run_callbacks payload cbs c :
  Forall (fun cb => callback_raises env cb payload = None) cbs ->
  for_each cbs (call env payload) c =
    (Ret tt, add_events ((fun cb => ECall cb payload) <$> cbs) c).
Proof.
  revert c. induction cbs as [|cb cbs IH]; intros c Hall; simpl.
  - by rewrite client_add_events_nil.
  - apply Forall_cons in Hall as [Hcb Hall]. unfold bind, call at 1. rewrite Hcb.
    rewrite IH by done. unfold log. by rewrite client_add_events_app.
Qed.

Lemma run_callbacks_raise payload before cb after e c :
  Forall (fun cb => callback_raises env cb payload = None) before ->
  callback_raises env cb payload = Some e ->
  for_each (before ++ cb :: after) (call env payload) c =
    (Raise e, add_events ((fun cb => ECall cb payload) <$> (before ++ [cb])) c).
Proof.
  revert c. induction before as [|cb' before IH]; intros c Hall Hcb; simpl.
  - unfold bind, call at 1. by rewrite Hcb.
  - apply Forall_cons in Hall as [Hcb' Hall]. unfold bind, call at 1. rewrite Hcb'.
    rewrite IH by done. unfold log. by rewrite client_add_events_app.
Qed.

Lemma client_unlock evs pid gs c :
  lock c = false ->
  log EUnlock
    (set_lock false
       (add_events evs
          (set_game_state gs (set_player_id pid (log ELock (set_lock true c)))))) =
  add_events (ELock :: evs ++ [EUnlock]) (set_game_state gs (set_player_id pid c)).
Proof.
  intros Hl. destruct c; simpl in *. subst.
  unfold log, add_events, set_lock, set_game_state, set_player_id; simpl.
  by rewrite <- !app_assoc.
Qed.

Lemma client_same_cache c : set_game_state (game_state c) (set_player_id (player_id c) c) = c.
Proof. by destruct c. Qed.

(** The body of [_process_message] up to the callbacks, when it does
    not raise. *)
Lemma process_message_cache message c pid gs (k : unit -> M unit) :
  (type message = "welcome" /\
   Py.getitem (data message) (VStr "player_id") = Ok pid /\
   Py.getitem (data message) (VStr "game_state") = Ok gs) \/
  (type message = "game_state" /\ pid = player_id c /\ gs = data message) \/
  (type message <> "welcome" /\ type message <> "game_state" /\
   pid = player_id c /\ gs = game_state c) ->
  bind (if bool_decide (type message = "welcome") then
          let! pid := lift (Py.getitem (data message) (VStr "player_id")) in
          let! _ := modify (set_player_id pid) in
          let! gs := lift (Py.getitem (data message) (VStr "game_state")) in
          modify (set_game_state gs)
        else if bool_decide (type message = "game_state") then
          modify (set_game_state (data message))
        else ret tt) k c =
  k tt (set_game_state gs (set_player_id pid c)).
Proof.
  intros [(Ht & Hpid & Hgs) | [(Ht & -> & ->) | (Hw & Hg & -> & ->)]].
  - rewrite Ht. simpl. by rewrite Hpid, Hgs.
  - rewrite Ht. simpl. by destruct c.
  - rewrite !bool_decide_eq_false_2 by done. by rewrite client_same_cache.
Qed.

(** [_process_message] when no callback raises. *)
Lemma process_message_returns (message : NetworkMessage) (c : GameClient) (pid gs : pyval) :
  lock c = false ->
  (type message = "welcome" /\
   Py.getitem (data message) (VStr "player_id") = Ok pid /\
   Py.getitem (data message) (VStr "game_state") = Ok gs) \/
  (type message = "game_state" /\ pid = player_id c /\ gs = data message) \/
  (type message <> "welcome" /\ type message <> "game_state" /\
   pid = player_id c /\ gs = game_state c) ->
  Forall (fun cb => callback_raises env cb (data message) = None)
    (default [] (message_callbacks c !! type message)) ->
  _process_message env message c =
    (Ret tt,
     add_events
       (ELock :: ((fun cb => ECall cb (data message)) <$>
                    default [] (message_callbacks c !! type message)) ++ [EUnlock])
       (set_game_state gs (set_player_id pid c))).
Proof.
  intros Hl Hcase Hall.
  assert (Hcase0 :
    (type message = "welcome" /\
     Py.getitem (data message) (VStr "player_id") = Ok pid /\
     Py.getitem (data message) (VStr "game_state") = Ok gs) \/
    (type message = "game_state" /\
     pid = player_id (log ELock (set_lock true c)) /\ gs = data message) \/
    (type message <> "welcome" /\ type message <> "game_state" /\
     pid = player_id (log ELock (set_lock true c)) /\
     gs = game_state (log ELock (set_lock true c)))) by done.
  unfold _process_message. rewrite client_with_lock_free by done.
  rewrite (process_message_cache _ _ pid gs) by done.
  rewrite client_bind_gets. simpl message_callbacks.
  destruct (message_callbacks c !! type message) as [cbs|] eqn:Hcbs; simpl in *.
  + rewrite Hcbs, run_callbacks by done. by rewrite client_unlock.
  + rewrite Hcbs. unfold ret.
    rewrite <- (client_add_events_nil
                  (set_game_state gs (set_player_id pid (log ELock (set_lock true c))))).
    by rewrite client_unlock.
Qed.

(** One turn of the receive loop on a whole frame: the message is
    decoded and handled. *)
Lemma receive_step_processes sock c header payload first others rest message :
  to_bytes (Z.of_nat (length payload)) = Ok header ->
  pickle_loads (wire env) payload = Some message ->
  concat (first :: others) = header ++ payload ->
  (4 <= length first)%nat ->
  Forall (fun chunk => chunk <> []) others ->
  socket c = Some sock ->
  closed sock c = false ->
  inbox c !! sock = Some ((Chunk <$> (first :: others)) ++ rest) ->
  let c1 := set_inbox (<[sock := rest]> (inbox c)) c in
  receive_loop_step env c =
    (match (_process_message env message c1).1 with
     | Ret _ => Ret Continue
     | Raise e => Ret (if bool_decide (e = SocketTimeout) then Continue else Break)
     | Block => Block
     end, (_process_message env message c1).2).
Proof.
  intros Hhdr Hloads Hcat Hfirst Hne Hs Hopen Hin. cbv zeta.
  unfold receive_loop_step, try_except. unfold bind at 1.
  rewrite (client_receive_frame sock c header payload first others rest) by done.
  rewrite Hloads. unfold bind.
  destruct (_process_message env message _) as [[[]|e|] c2]; simpl; try done.
  by case_bool_decide.
Qed.

(** X17. A message from the host is handled with the client's lock
    held from start to end: first the cache is updated ([welcome] sets
    the id and replaces the snapshot, [game_state] replaces the
    snapshot as a whole, any other type leaves both), then the
    callbacks registered for the type run, in the order of their
    registration, each on the payload.  A callback that raises ends the
    call: the callbacks after it do not run, the cache stays updated,
    and the lock is released. *)
Theorem message_updates_cache_then_runs_callbacks (message : NetworkMessage)
  (c : GameClient) (pid gs : pyval) :
  lock c = false ->
  (type message = "welcome" /\
   Py.getitem (data message) (VStr "player_id") = Ok pid /\
   Py.getitem (data message) (VStr "game_state") = Ok gs) \/
  (type message = "game_state" /\ pid = player_id c /\ gs = data message) \/
  (type message <> "welcome" /\ type message <> "game_state" /\
   pid = player_id c /\ gs = game_state c) ->
  let cbs := default [] (message_callbacks c !! type message) in
  let c1 := set_game_state gs (set_player_id pid c) in
  let ran cbs := (fun cb => ECall cb (data message)) <$> cbs in
  (Forall (fun cb => callback_raises env cb (data message) = None) cbs ->
   _process_message env message c =
     (Ret tt, add_events (ELock :: ran cbs ++ [EUnlock]) c1)) /\
  (forall before cb after e,
     cbs = before ++ cb :: after ->
     Forall (fun cb => callback_raises env cb (data message) = None) before ->
     callback_raises env cb (data message) = Some e ->
     _process_message env message c =
       (Raise e, add_events (ELock :: ran (before ++ [cb]) ++ [EUnlock]) c1)).
Proof.
  intros Hl Hcase. cbv zeta.
  assert (Hcase0 :
    (type message = "welcome" /\
     Py.getitem (data message) (VStr "player_id") = Ok pid /\
     Py.getitem (data message) (VStr "game_state") = Ok gs) \/
    (type message = "game_state" /\
     pid = player_id (log ELock (set_lock true c)) /\ gs = data message) \/
    (type message <> "welcome" /\ type message <> "game_state" /\
     pid = player_id (log ELock (set_lock true c)) /\
     gs = game_state (log ELock (set_lock true c)))) by done.
  split.
  - intros Hall. by apply process_message_returns.
  - intros before cb after e Hsplit Hall Hcb.
    unfold _process_message. rewrite client_with_lock_free by done.
    rewrite (process_message_cache _ _ pid gs) by done.
    rewrite client_bind_gets. simpl message_callbacks.
    destruct (message_callbacks c !! type message) as [cbs|] eqn:Hcbs; simpl in *.
    + subst cbs. rewrite Hcbs, (run_callbacks_raise _ _ _ _ e) by done.
      by rewrite client_unlock.
    + by destruct before.
Qed.

Lemma receive_loop_continue n c c1 :
  connected c = true ->
  receive_loop_step env c = (Ret Continue, c1) ->
  _receive_loop env (S n) c = _receive_loop env n c1.
Proof.
  intros Hup Hstep. unfold _receive_loop. simpl receive_loop.
  unfold bind at 1. unfold bind at 1. unfold gets at 1. rewrite Hup.
  unfold bind at 1. by rewrite Hstep.
Qed.

Lemma receive_loop_break n c c1 :
  connected c = true ->
  receive_loop_step env c = (Ret Break, c1) ->
  _receive_loop env (S n) c = (Ret Finished, set_connected false c1).
Proof.
  intros Hup Hstep. unfold _receive_loop. simpl receive_loop.
  unfold bind at 1. unfold bind at 1. unfold gets at 1. rewrite Hup.
  unfold bind at 1. by rewrite Hstep.
Qed.

Lemma send_message_off message c :
  connected c = false -> send_message env message c = (Ret tt, c).
Proof.
  intros Hc. unfold send_message. rewrite !client_bind_gets, Hc.
  by destruct (socket c).
Qed.

(** X18. A message from the host on which [_process_message] raises
    (a [welcome] without its keys, a callback that raises) ends the
    receive loop: the client marks itself disconnected, reads nothing
    more, and its later [send_message] calls do nothing. *)
Theorem failing_message_disconnects_client (n : nat) (sock : handle) (c : GameClient)
  (header payload first : list Byte.byte) (others : list (list Byte.byte))
  (rest : list rx) (message : NetworkMessage) (e : exn) :
  to_bytes (Z.of_nat (length payload)) = Ok header ->
  pickle_loads (wire env) payload = Some message ->
  concat (first :: others) = header ++ payload ->
  (4 <= length first)%nat ->
  Forall (fun chunk => chunk <> []) others ->
  socket c = Some sock ->
  closed sock c = false ->
  inbox c !! sock = Some ((Chunk <$> (first :: others)) ++ rest) ->
  connected c = true ->
  let c1 := set_inbox (<[sock := rest]> (inbox c)) c in
  (_process_message env message c1).1 = Raise e ->
  e <> SocketTimeout ->
  let r := _receive_loop env (S n) c in
  r = (Ret Finished, set_connected false (_process_message env message c1).2) /\
  connected r.2 = false /\
  (forall later, send_message env later r.2 = (Ret tt, r.2)).
Proof.
  intros Hhdr Hloads Hcat Hfirst Hne Hs Hopen Hin Hup. cbv zeta. intros Hraise He.
  set (c1 := set_inbox (<[sock := rest]> (inbox c)) c) in *.
  assert (Hstep : receive_loop_step env c =
                  (Ret Break, (_process_message env message c1).2)).
  { unfold receive_loop_step, try_except. unfold bind at 1.
    rewrite (client_receive_frame sock c header payload first others rest) by done.
    rewrite Hloads. fold c1. unfold bind.
    destruct (_process_message env message c1) as [[[]|e'|] c2]; simpl in *; try done.
    injection Hraise as ->. by rewrite bool_decide_eq_false_2. }
  rewrite (receive_loop_break n _ _ Hup Hstep).
  split_and!; [done..|]. intros later. by apply send_message_off.
Qed.

(** X19. A [welcome] whose payload lacks [player_id] changes nothing;
    one that has [player_id] but lacks [game_state] sets the id and
    leaves the snapshot as it was.  Either way the exception leaves the
    call with the lock released and no callback run. *)
Theorem welcome_without_its_keys (message : NetworkMessage) (c : GameClient) (e : exn) :
  lock c = false ->
  type message = "welcome" ->
  (Py.getitem (data message) (VStr "player_id") = Err e ->
   _process_message env message c = (Raise e, add_events [ELock; EUnlock] c)) /\
  (forall pid,
     Py.getitem (data message) (VStr "player_id") = Ok pid ->
     Py.getitem (data message) (VStr "game_state") = Err e ->
     _process_message env message c =
       (Raise e, add_events [ELock; EUnlock] (set_player_id pid c))).
Proof.
  intros Hl Ht. split.
  - intros Hpid. unfold _process_message. rewrite client_with_lock_free by done.
    rewrite Ht. simpl. rewrite Hpid. simpl.
    destruct c; simpl in *; subst.
    unfold log, add_events, set_lock; simpl. by rewrite <- app_assoc.
  - intros pid Hpid Hgs. unfold _process_message. rewrite client_with_lock_free by done.
    rewrite Ht. simpl. rewrite Hpid, Hgs. simpl.
    destruct c; simpl in *; subst.
    unfold log, add_events, set_lock, set_player_id; simpl. by rewrite <- app_assoc.
Qed.

(** X20. What the host frames, the client reads back: a message that
    encodes to a frame is returned by [_receive_message] as it was,
    whatever the chunks in which the frame arrives after its header;
    [pickle.loads] is taken to invert [pickle.dumps] on the message. *)
Theorem client_reads_what_host_frames (message : NetworkMessage)
  (bytes : list Byte.byte) (sock : handle) (c : GameClient) (first : list Byte.byte)
  (others : list (list Byte.byte)) (rest : list rx) :
  frame (wire env) message = Ok bytes ->
  (forall payload, pickle_dumps (wire env) message = Some payload ->
                   pickle_loads (wire env) payload = Some message) ->
  concat (first :: others) = bytes ->
  (4 <= length first)%nat ->
  Forall (fun chunk => chunk <> []) others ->
  socket c = Some sock ->
  closed sock c = false ->
  inbox c !! sock = Some ((Chunk <$> (first :: others)) ++ rest) ->
  _receive_message env c =
    (Ret (Some message), set_inbox (<[sock := rest]> (inbox c)) c).
Proof.
  intros Hframe Hpickle Hcat Hfirst Hne Hs Hopen Hin. unfold frame in Hframe.
  destruct (pickle_dumps (wire env) message) as [payload|] eqn:Hdumps; [|done].
  destruct (to_bytes (Z.of_nat (length payload))) as [header|] eqn:Hhdr; [|done].
  injection Hframe as <-.
  rewrite (client_receive_frame sock c header payload first others rest) by done.
  by rewrite (Hpickle payload eq_refl).
Qed.

Lemma client_receive_nothing sock h rest c :
  socket c = Some sock ->
  closed sock c = false ->
  inbox c !! sock = Some (rx_of h :: rest) ->
  _receive_message env c =
    (match h with
     | Quiet => Raise SocketTimeout
     | Ended => Ret None
     | Broken => Raise ConnectionError
     end,
     set_inbox (<[sock := (recv_at h rest).2]> (inbox c)) c).
Proof.
  intros Hs Hopen Hin. unfold _receive_message, bind.
  rewrite (client_recv_stop sock 4 h rest c) by done. by destruct h.
Qed.

(** X21. The receive loop goes on through the silences of the host,
    and ends when the host closes or breaks the connection, or when it
    finds the client disconnected; when it has ended the client is
    marked disconnected.  The loop does not close the socket. *)
Theorem receive_loop_ends_disconnected (n : nat) (sock : handle) (c : GameClient)
  (rest : list rx) :
  socket c = Some sock ->
  closed sock c = false ->
  (connected c = false -> _receive_loop env (S n) c = (Ret Finished, c)) /\
  (connected c = true ->
   inbox c !! sock = Some (Silence :: rest) ->
   _receive_loop env (S n) c =
     _receive_loop env n (set_inbox (<[sock := rest]> (inbox c)) c)) /\
  (forall h,
     h <> Quiet ->
     connected c = true ->
     inbox c !! sock = Some (rx_of h :: rest) ->
     _receive_loop env (S n) c = (Ret Finished, set_connected false c)).
Proof.
  intros Hs Hopen. split_and!.
  - intros Hoff. unfold _receive_loop. simpl receive_loop.
    unfold bind at 1. unfold bind at 1. unfold gets at 1. rewrite Hoff. simpl.
    unfold bind, modify, ret. f_equal. destruct c; simpl in *. by subst.
  - intros Hup Hin. apply receive_loop_continue; [done|].
    unfold receive_loop_step, try_except, bind.
    by rewrite (client_receive_nothing sock Quiet rest c).
  - intros h Hh Hup Hin.
    assert (Hstep : receive_loop_step env c = (Ret Break, c)).
    { unfold receive_loop_step, try_except, bind.
      rewrite (client_receive_nothing sock h rest c) by done.
      destruct h; [done|..]; simpl; by rewrite client_set_inbox_id. }
    by rewrite (receive_loop_break n _ _ Hup Hstep).
Qed.

(** X22. [disconnect] marks the client disconnected and closes its
    socket, if it has one; the socket object stays in place.  After it
    [send_message] does nothing and the receive loop ends at its next
    turn without reading. *)
Theorem disconnect_closes_and_silences (c : GameClient) :
  let r := disconnect c in
  r.1 = Ret tt /\
  connected r.2 = false /\
  socket r.2 = socket c /\
  emitted c r.2 = match socket c with Some sock => [EClose sock] | None => [] end /\
  (forall sock, socket c = Some sock -> closed sock r.2 = true) /\
  (forall message, send_message env message r.2 = (Ret tt, r.2)) /\
  (forall n, _receive_loop env (S n) r.2 = (Ret Finished, r.2)).
Proof.
  cbv zeta. unfold disconnect. rewrite client_bind_modify, client_bind_gets.
  simpl socket.
  assert (Hloop : forall c', connected c' = false ->
            forall n, _receive_loop env (S n) c' = (Ret Finished, c')).
  { intros c' Hoff n. unfold _receive_loop. simpl receive_loop.
    unfold bind at 1. unfold bind at 1. unfold gets at 1. rewrite Hoff. simpl.
    unfold bind, modify, ret. f_equal. destruct c'; simpl in *. by subst. }
  destruct (socket c) as [sock|] eqn:Hs; simpl; rewrite ?Hs; simpl.
  - split_and!; [done|done|done| | | |].
    + by rewrite (client_emitted_app _ _ [EClose sock]).
    + intros ? [= <-]. unfold closed. apply bool_decide_eq_true. simpl.
      apply elem_of_app. right. by left.
    + intros message. by apply send_message_off.
    + by apply Hloop.
  - split_and!; [done|done|done| | | |].
    + by rewrite (client_emitted_app _ _ []) by (simpl; by rewrite app_nil_r).
    + done.
    + intros message. by apply send_message_off.
    + by apply Hloop.
Qed.

(** Callbacks touch nothing of the client but its trace, and never
    wait. *)
Lemma run_callbacks_any payload cbs c :
  exists res evs,
    for_each cbs (call env payload) c = (res, add_events evs c) /\ res <> Block.
Proof.
  revert c. induction cbs as [|cb cbs IH]; intros c; simpl.
  - exists (Ret tt), []. by rewrite client_add_events_nil.
  - unfold bind, call at 1.
    destruct (callback_raises env cb payload) as [e|].
    + by exists (Raise e), [ECall cb payload].
    + destruct (IH (log (ECall cb payload) c)) as (res & evs & -> & Hres).
      exists res, (ECall cb payload :: evs). unfold log.
      by rewrite client_add_events_app.
Qed.

(** X23. [register_callback] appends: the callbacks of a type are kept
    in the order of their registration, a callback registered twice is
    there twice, and the other types are not touched.  A message of the
    type then runs them all, the new one last. *)
Theorem registered_callbacks_run_in_order (message_type : string) (cb : callback)
  (c : GameClient) :
  let r := register_callback message_type cb c in
  let all := default [] (message_callbacks c !! message_type) ++ [cb] in
  r = (Ret tt,
       set_message_callbacks (<[message_type := all]> (message_callbacks c)) c) /\
  message_callbacks r.2 !! message_type = Some all /\
  (forall other, other <> message_type ->
     message_callbacks r.2 !! other = message_callbacks c !! other) /\
  (forall message,
     type message = message_type ->
     message_type <> "welcome" -> message_type <> "game_state" ->
     lock c = false ->
     Forall (fun cb => callback_raises env cb (data message) = None) all ->
     calls (emitted r.2 (_process_message env message r.2).2) =
       (fun cb => (cb, data message)) <$> all).
Proof.
  cbv zeta.
  assert (Hrun : register_callback message_type cb c =
    (Ret tt,
     set_message_callbacks
       (<[message_type := default [] (message_callbacks c !! message_type) ++ [cb]]>
          (message_callbacks c)) c)).
  { unfold register_callback. rewrite client_bind_gets.
    destruct (message_callbacks c !! message_type) as [old|] eqn:Hold.
    - rewrite bool_decide_eq_true_2 by eauto. simpl.
      rewrite client_bind_ret, client_bind_gets, Hold. done.
    - rewrite bool_decide_eq_false_2 by (intros [? ?]; done). simpl.
      rewrite client_bind_modify, client_bind_gets. simpl.
      rewrite lookup_insert_eq. unfold modify. simpl.
      unfold set_message_callbacks. simpl. by rewrite insert_insert_eq. }
  rewrite Hrun. simpl. split_and!; [done|by rewrite lookup_insert_eq| |].
  - intros other Hne. by rewrite lookup_insert_ne.
  - intros message Ht Hw Hg Hl Hall.
    set (c1 := set_message_callbacks _ c).
    assert (Hcbs : message_callbacks c1 !! type message =
              Some (default [] (message_callbacks c !! message_type) ++ [cb])).
    { subst c1. simpl. rewrite Ht. by rewrite lookup_insert_eq. }
    unfold _process_message. rewrite client_with_lock_free by done.
    rewrite (process_message_cache _ _ (player_id c1) (game_state c1))
      by (right; right; rewrite Ht; done).
    rewrite client_bind_gets.
    change (message_callbacks
              (set_game_state _ (set_player_id _ (log ELock (set_lock true c1)))))
      with (message_callbacks c1).
    rewrite Hcbs.
    rewrite run_callbacks by done. simpl.
    rewrite (client_emitted_app _ _
               (ELock :: ((fun cb0 => ECall cb0 (data message)) <$>
                            default [] (message_callbacks c !! message_type) ++ [cb])
                  ++ [EUnlock])).
    + by rewrite calls_locked, calls_of_run.
    + unfold log, add_events, set_lock. simpl. by rewrite <- !app_assoc.
Qed.

(** X24. After a [game_state] message the snapshot of the client is
    the payload of that message, whatever it was before and whatever
    the callbacks did: [get_game_state] returns it when it is a
    dictionary (or a list), and raises [AttributeError] when it is
    anything else, since it calls the payload's [copy]. *)
Theorem snapshot_is_last_game_state (message : NetworkMessage) (c : GameClient) :
  lock c = false ->
  type message = "game_state" ->
  let c' := (_process_message env message c).2 in
  game_state c' = data message /\
  player_id c' = player_id c /\
  lock c' = false /\
  get_game_state c' =
    (match data message with
     | VDict d => Ret (VDict d)
     | VList l => Ret (VList l)
     | _ => Raise AttributeError
     end, add_events [ELock; EUnlock] c').
Proof.
  intros Hl Ht. cbv zeta.
  assert (H : game_state (_process_message env message c).2 = data message /\
              player_id (_process_message env message c).2 = player_id c /\
              lock (_process_message env message c).2 = false).
  { unfold _process_message. rewrite client_with_lock_free by done.
    rewrite (process_message_cache _ _ (player_id c) (data message))
      by (right; left; done).
    rewrite client_bind_gets.
    match goal with
    | |- context [match ?o with Some l => for_each l ?f | None => ret tt end ?st] =>
        assert (exists res evs,
                  match o with Some l => for_each l f | None => ret tt end st =
                    (res, add_events evs st) /\ res <> Block) as (res & evs & -> & Hres)
    end.
    { destruct (_ !! type message) as [cbs|].
      - apply run_callbacks_any.
      - exists (Ret tt), []. by rewrite client_add_events_nil. }
    by destruct res. }
  destruct H as (Hg & Hp & Hl'). split_and!; [done..|].
  set (c' := (_process_message env message c).2) in *.
  unfold get_game_state. rewrite client_with_lock_free by done.
  rewrite client_bind_gets.
  change (game_state (log ELock (set_lock true c'))) with (game_state c').
  rewrite Hg.
  assert (Hunlock : log EUnlock (set_lock false (log ELock (set_lock true c'))) =
                    add_events [ELock; EUnlock] c').
  { destruct c'; simpl in *. subst.
    unfold log, add_events, set_lock; simpl. by rewrite <- app_assoc. }
  destruct (data message); simpl; by rewrite Hunlock.
Qed.

(** X25. [connect] never raises, and returns whether the connection
    was made.  It installs a new socket in either case and does not
    close the one that it replaces.  When the connection is made the
    client is connected and a receive thread is started, whether or not
    one is running already; when it is not, [connected] is left as it
    was. *)
Theorem connect_installs_new_socket (host : string) (port : Z) (c : GameClient) :
  let r := connect env host port c in
  let made_it := connect_ok env (trace c) host port in
  r.1 = Ret made_it /\
  socket r.2 = Some (made c) /\
  made r.2 = S (made c) /\
  connected r.2 = made_it || connected c /\
  emitted c r.2 =
    EConnect (made c) host port made_it :: (if made_it then [EThread] else []) /\
  (forall sock, closed sock r.2 = closed sock c).
Proof.
  cbv zeta.
  set (c0 := set_socket (Some (made c)) (set_made (S (made c)) c)).
  assert (Hrun : connect env host port c =
    if connect_ok env (trace c) host port
    then (Ret true, add_events [EConnect (made c) host port true; EThread]
                      (set_connected true c0))
    else (Ret false, add_events [EConnect (made c) host port false] c0)).
  { unfold connect, try_except, bind, gets, modify. simpl.
    destruct (connect_ok env (trace c) host port); [|done].
    f_equal. unfold log, add_events. simpl. by rewrite <- app_assoc. }
  rewrite Hrun. clear Hrun.
  destruct (connect_ok env (trace c) host port) eqn:Hok; simpl.
  - split_and!; [done..| |].
    + by rewrite (client_emitted_app _ _ [EConnect (made c) host port true; EThread]).
    + intros sock. unfold closed. apply bool_decide_ext. simpl.
      rewrite !elem_of_app, !elem_of_cons, elem_of_nil.
      split; [|by left]. intros [?|H]; [done|].
      repeat (destruct H as [H|H]; [discriminate|]). done.
  - split_and!; [done..| |].
    + by rewrite (client_emitted_app _ _ [EConnect (made c) host port false]).
    + intros sock. unfold closed. apply bool_decide_ext. simpl.
      rewrite !elem_of_app, !elem_of_cons, elem_of_nil.
      split; [|by left]. intros [?|H]; [done|].
      repeat (destruct H as [H|H]; [discriminate|]). done.
Qed.
End peer_facts.

End ClientFacts.

(** ** Host and client together *)

Section together.
Context (env : Client.environment).

(** X26. Joining, end to end: when the welcome that
    [_accept_connections] sends to a new session arrives at the client,
    one turn of the client's receive loop leaves the client with the id
    that the host allocated and with the snapshot of the host as its
    own. *)
Theorem join_gives_client_its_id_and_snapshot (s : GameServer) (sock : socket)
  (addr : address) (welcome : NetworkMessage) (more : list NetworkMessage)
  (c : Client.GameClient) (csock : Client.handle) (bytes first : list Byte.byte)
  (others : list (list Byte.byte)) (rest : list rx) :
  registry_ok s ->
  Z.of_nat (length (clients s)) < MAX_PLAYERS ->
  lock s = false ->
  let r := _accept_connections (Client.wire env) (Some (sock, addr)) s in
  delivered_to sock (emitted s r.2) = welcome :: more ->
  frame (Client.wire env) welcome = Ok bytes ->
  (forall payload, pickle_dumps (Client.wire env) welcome = Some payload ->
                   pickle_loads (Client.wire env) payload = Some welcome) ->
  concat (first :: others) = bytes ->
  (4 <= length first)%nat ->
  Forall (fun chunk => chunk <> []) others ->
  Client.socket c = Some csock ->
  Client.closed csock c = false ->
  Client.inbox c !! csock = Some ((Chunk <$> (first :: others)) ++ rest) ->
  Client.lock c = false ->
  Forall (fun cb => Client.callback_raises env cb (data welcome) = None)
    (default [] (Client.message_callbacks c !! "welcome")) ->
  let step := Client.receive_loop_step env c in
  step.1 = Ret Continue /\
  Client.player_id step.2 = VInt (next_player_id s) /\
  Client.game_state step.2 = VDict (game_state s) /\
  Client.inbox step.2 !! csock = Some rest.
Proof.
  intros Hok Hroom Hl. cbv zeta.
  intros Hdel Hframe Hpickle Hcat Hfirst Hne Hs Hopen Hin Hcl Hcbs.
  destruct (accept_in_sequence (Client.wire env) s sock addr Hok Hroom Hl)
    as (res & tail & Hem & Hfail & Hsent).
  cbv zeta in Hem.
  assert (Hw : type welcome = "welcome" /\
               data welcome = VDict {[ KStr "player_id" := VInt (next_player_id s);
                                       KStr "game_state" := VDict (game_state s) ]}).
  { rewrite Hem in Hdel. destruct (decide (res = Delivered)) as [->|Hne'].
    - simpl in Hdel. rewrite decide_True in Hdel by done.
      injection Hdel as <- _. done.
    - destruct (Hfail Hne') as [-> _]. simpl in Hdel. by destruct res. }
  destruct Hw as [Ht Hd].
  unfold frame in Hframe.
  destruct (pickle_dumps (Client.wire env) welcome) as [payload|] eqn:Hdumps; [|done].
  destruct (to_bytes (Z.of_nat (length payload))) as [header|] eqn:Hhdr; [|done].
  injection Hframe as <-.
  rewrite (ClientFacts.receive_step_processes env csock c header payload first others
             rest welcome Hhdr (Hpickle payload eq_refl) Hcat Hfirst Hne Hs Hopen Hin).
  set (c1 := Client.set_inbox _ c).
  rewrite (ClientFacts.process_message_returns env welcome c1
             (VInt (next_player_id s)) (VDict (game_state s))).
  - simpl. split_and!; [done..|]. by rewrite lookup_insert_eq.
  - done.
  - left. split; [done|]. rewrite Hd. simpl. split.
    + by rewrite lookup_insert_eq.
    + rewrite lookup_insert_ne by done. by rewrite lookup_singleton_eq.
  - by rewrite Ht.
Qed.

(** X27. What the client sends, the host reads: when [send_message]
    got its bytes out, and these bytes arrive on the session's socket
    in whatever chunks after the header, [_receive_from_client] returns
    the message as it was; [pickle.loads] is taken to invert
    [pickle.dumps] on the message. *)
Theorem host_reads_what_client_sends (message : NetworkMessage) (c : Client.GameClient)
  (csock : Client.handle) (bytes : list Byte.byte) (s : GameServer) (sock : socket)
  (first : list Byte.byte) (others : list (list Byte.byte)) (rest : list rx) :
  Client.connected c = true ->
  Client.socket c = Some csock ->
  Client.sent (Client.emitted c (Client.send_message env message c).2) = [bytes] ->
  (forall payload, pickle_dumps (Client.wire env) message = Some payload ->
                   pickle_loads (Client.wire env) payload = Some message) ->
  concat (first :: others) = bytes ->
  (4 <= length first)%nat ->
  Forall (fun chunk => chunk <> []) others ->
  closed sock s = false ->
  inbox s !! sock = Some ((Chunk <$> (first :: others)) ++ rest) ->
  _receive_from_client (Client.wire env) sock s =
    (Ret (Some message), set_inbox (<[sock := rest]> (inbox s)) s).
Proof.
  intros Hup Hs Hsent Hpickle Hcat Hfirst Hne Hopen Hin.
  assert (Hframe : frame (Client.wire env) message = Ok bytes).
  { unfold Client.send_message in Hsent.
    rewrite !ClientFacts.client_bind_gets, Hs, Hup in Hsent.
    unfold Client.try_except, Client.bind in Hsent.
    destruct (frame (Client.wire env) message) as [bytes'|e]; simpl in Hsent.
    - unfold Client.sendall in Hsent.
      destruct (negb _ && _); simpl in Hsent.
      + rewrite (ClientFacts.client_emitted_app _ _ [Client.ESendall csock bytes' true])
          in Hsent by done.
        simpl in Hsent. by injection Hsent as ->.
      + rewrite (ClientFacts.client_emitted_app _ _ [Client.ESendall csock bytes' false])
          in Hsent by done.
        done.
    - rewrite (ClientFacts.client_emitted_app _ _ []) in Hsent
        by (simpl; by rewrite app_nil_r).
      done. }
  unfold frame in Hframe.
  destruct (pickle_dumps (Client.wire env) message) as [payload|] eqn:Hdumps; [|done].
  destruct (to_bytes (Z.of_nat (length payload))) as [header|] eqn:Hhdr; [|done].
  injection Hframe as <-.
  rewrite (receive_frame (Client.wire env) sock s header payload first others rest)
    by done.
  by rewrite (Hpickle payload eq_refl).
Qed.
End together.

(** ** The callbacks of the game on what the host announces *)

Section announcements.
Context (env : environment) {Player WorldItem : Type}.

Lemma game_same (g : Game.Game Player WorldItem) :
  {| Game.players := Game.players g; Game.world_items := Game.world_items g |} = g.
Proof. by destruct g. Qed.

Lemma on_player_left_departure p (g : Game.Game Player WorldItem) :
  Game._on_player_left (id_payload p) g =
    Ok {| Game.players := delete (KInt p) (Game.players g);
          Game.world_items := Game.world_items g |}.
Proof.
  unfold Game._on_player_left, id_payload. simpl. rewrite lookup_singleton_eq. simpl.
  case_bool_decide as Hin; [done|].
  rewrite delete_id; [by rewrite game_same|].
  destruct (Game.players g !! KInt p) eqn:E; [|done]. destruct Hin. eauto.
Qed.

(** X28. The callback of the game on [player_left] understands every
    departure that the host announces: in any run of a host, each
    [player_left] message sent names an id in the form that
    [_on_player_left] reads, and the callback returns, having removed
    the player of that id and no other; run once more on the same
    message it changes nothing. *)
Theorem game_understands_departures (ops : list op) (s : GameServer) (sock : socket)
  (m : NetworkMessage) (g : Game.Game Player WorldItem) :
  registry_ok s ->
  (sock, m) ∈ sends (emitted s (run env ops s)) ->
  type m = "player_left" ->
  exists p,
    data m = id_payload p /\
    let g' := {| Game.players := delete (KInt p) (Game.players g);
                 Game.world_items := Game.world_items g |} in
    Game._on_player_left (data m) g = Ok g' /\
    Game._on_player_left (data m) g' = Ok g'.
Proof.
  intros Hok Hin Ht.
  destruct (run_summary env ops s Hok) as (_ & _ & _ & _ & _ & evs & Htr & Hall).
  rewrite (emitted_app _ _ _ Htr) in Hin.
  apply list_elem_of_omap in Hin as (e & He & Hsend).
  rewrite Forall_forall in Hall. specialize (Hall e He).
  destruct e as [| |sock' m' res| |]; simpl in Hsend; try done.
  injection Hsend as <- <-. destruct Hall as [_ Hleft].
  destruct (Hleft Ht) as (p & Hd & _). exists p. split; [done|].
  cbv zeta. rewrite Hd. split; [apply on_player_left_departure|].
  rewrite on_player_left_departure. simpl. by rewrite delete_delete_eq.
Qed.

(** X29. The callback of the game on [item_picked_up] understands the
    pickups that the host grants: each message that [_process_message]
    sends for a [pickup_item] on an item of the snapshot names the item
    in the form that [_on_item_picked_up] reads, and the callback
    returns, having removed that item from the world and nothing
    else. *)
Theorem game_understands_pickups (player_id : Z) (message : NetworkMessage)
  (s : GameServer) (payload : gmap pykey pyval) (item_id : pyval) (k : pykey)
  (items : gmap pykey pyval) (sock : socket) (m : NetworkMessage)
  (g : Game.Game Player WorldItem) :
  lock s = false ->
  type message = "pickup_item" ->
  data message = VDict payload ->
  payload !! KStr "item_id" = Some item_id ->
  Py.to_key item_id = Ok k ->
  game_state s !! KStr "items" = Some (VDict items) ->
  is_Some (items !! k) ->
  (sock, m) ∈ sends (emitted s (_process_message env player_id message s).2) ->
  type m = "item_picked_up" /\
  Game._on_item_picked_up (data m) g =
    Ok {| Game.players := Game.players g;
          Game.world_items := delete k (Game.world_items g) |}.
Proof.
  intros Hl Ht Hd Hid Hk Hitems Hv Hin.
  destruct (process_pickup_item env player_id message s payload item_id k items
              Hl Ht Hd Hid Hk Hitems Hv) as (_ & _ & _ & _ & Hsends).
  rewrite Hsends in Hin. apply list_elem_of_fmap in Hin as (c & [= _ ->] & _).
  split; [done|]. unfold Game._on_item_picked_up. simpl.
  rewrite lookup_insert_eq. simpl. rewrite Hk.
  case_bool_decide as Hhas; [done|].
  rewrite delete_id; [by rewrite game_same|].
  destruct (Game.world_items g !! k) eqn:E; [|done]. destruct Hhas. eauto.
Qed.
End announcements.

(** ** The properties above, on the examples *)

(** [hello] from session 0 on the example server. *)
Lemma player_update_witness :
  lock Example.server = false /\
  type Example.hello = "player_update" /\
  default (VDict ∅) (game_state Example.server !! KStr "players") = VDict ∅ /\
  game_state (_process_message Example.env 0 Example.hello Example.server).2
    !! KStr "players" = Some (VDict {[ KInt 0 := data Example.hello ]}).
Proof.
  assert (H3 : default (VDict ∅) (game_state Example.server !! KStr "players") = VDict ∅)
    by (vm_compute; reflexivity).
  destruct (player_update_overwrites_own_entry Example.env 0 Example.hello
              Example.server ∅ eq_refl eq_refl H3) as (Hrun & _).
  split_and!; [reflexivity|reflexivity|exact H3|].
  rewrite Hrun. simpl. by rewrite lookup_insert_eq.
Defined.




(** The first [recv] on socket 10 returns only two bytes of a
    header. *)
Lemma session_ends_witness :
  closed 10%nat Example.receiving = false /\
  running Example.receiving = true /\
  lock Example.receiving = false /\
  let s := set_inbox {[ 10%nat := [Chunk (take 2 (Example.frame_of Example.hello));
                                   Chunk (drop 2 (Example.frame_of Example.hello))] ]}
             Example.server in
  OrdDict.lookup (clients (_handle_client Example.env 1 0 10%nat s).2) 0 = None.
Proof.
  assert (H1 : closed 10%nat Example.receiving = false) by (vm_compute; reflexivity).
  split_and!; [exact H1|reflexivity|reflexivity|]. cbv zeta.
  set (s := set_inbox _ Example.server).
  assert (Hc : closed 10%nat s = false) by (vm_compute; reflexivity).
  destruct (session_ends_when_stream_stops Example.env 0 0 10%nat s
              [Chunk (drop 2 (Example.frame_of Example.hello))] Hc eq_refl eq_refl)
    as (_ & _ & Hfrag).
  destruct (Hfrag (take 2 (Example.frame_of Example.hello))) as ((_ & Hgone) & _).
  - vm_compute. discriminate.
  - vm_compute. lia.
  - vm_compute. reflexivity.
  - exact Hgone.
Defined.

(** Damage without [enemy_id], sent by session 0. *)
Lemma malformed_message_witness :
  to_bytes (Z.of_nat (length (Cases.payload_of Cases.blind))) =
    Ok (Cases.header_of Cases.blind) /\
  pickle_loads Cases.env (Cases.payload_of Cases.blind) = Some Cases.blind /\
  concat [Example.frame_of Cases.blind] =
    Cases.header_of Cases.blind ++ Cases.payload_of Cases.blind /\
  (4 <= length (Example.frame_of Cases.blind))%nat /\
  closed 10%nat Cases.misled = false /\
  inbox Cases.misled !! 10%nat = Some ((Chunk <$> [Example.frame_of Cases.blind]) ++ []) /\
  running Cases.misled = true /\
  lock Cases.misled = false /\
  type Cases.blind = "enemy_damage" /\
  Py.getitem (data Cases.blind) (VStr "enemy_id") = Err KeyError /\
  OrdDict.lookup (clients (_handle_client Cases.env 1 0 10%nat Cases.misled).2) 0 = None.
Proof.
  assert (H1 : to_bytes (Z.of_nat (length (Cases.payload_of Cases.blind))) =
               Ok (Cases.header_of Cases.blind)) by (vm_compute; reflexivity).
  assert (H2 : pickle_loads Cases.env (Cases.payload_of Cases.blind) = Some Cases.blind)
    by (vm_compute; reflexivity).
  assert (H3 : concat [Example.frame_of Cases.blind] =
               Cases.header_of Cases.blind ++ Cases.payload_of Cases.blind)
    by (vm_compute; reflexivity).
  assert (H4 : (4 <= length (Example.frame_of Cases.blind))%nat) by (vm_compute; lia).
  assert (H5 : closed 10%nat Cases.misled = false) by (vm_compute; reflexivity).
  assert (H6 : inbox Cases.misled !! 10%nat =
               Some ((Chunk <$> [Example.frame_of Cases.blind]) ++ []))
    by (vm_compute; reflexivity).
  assert (H10 : Py.getitem (data Cases.blind) (VStr "enemy_id") = Err KeyError)
    by (vm_compute; reflexivity).
  destruct (malformed_message_ends_session Cases.env 0 0 10%nat Cases.misled
              (Cases.header_of Cases.blind) (Cases.payload_of Cases.blind)
              (Example.frame_of Cases.blind) [] [] Cases.blind KeyError
              H1 H2 H3 H4 (Forall_nil_2 _) H5 H6 eq_refl eq_refl
              (or_introl (conj eq_refl H10)))
    as (_ & _ & _ & Hgone).
  split_and!; [exact H1|exact H2|exact H3|exact H4|exact H5|exact H6|reflexivity|
               reflexivity|reflexivity|exact H10|exact Hgone].
Defined.

(** [hello] arrives on socket 10, the socket of session 0, cut in two. *)
Lemma session_routes_witness :
  to_bytes (Z.of_nat (length (Cases.payload_of Example.hello))) =
    Ok (Cases.header_of Example.hello) /\
  pickle_loads Example.env (Cases.payload_of Example.hello) = Some Example.hello /\
  closed 10%nat Example.receiving = false /\
  running Example.receiving = true /\
  lock Example.receiving = false /\
  type Example.hello = "player_update" /\
  (handle_client_step Example.env 0 10%nat Example.receiving).1 = Ret Continue /\
  game_state (handle_client_step Example.env 0 10%nat Example.receiving).2
    !! KStr "players" = Some (VDict {[ KInt 0 := data Example.hello ]}).
Proof.
  assert (H1 : to_bytes (Z.of_nat (length (Cases.payload_of Example.hello))) =
               Ok (Cases.header_of Example.hello)) by (vm_compute; reflexivity).
  assert (H2 : pickle_loads Example.env (Cases.payload_of Example.hello) =
               Some Example.hello) by (vm_compute; reflexivity).
  assert (H3 : closed 10%nat Example.receiving = false) by (vm_compute; reflexivity).
  destruct (session_routes_frame_under_its_own_id Example.env 0 0 10%nat
              Example.receiving (Cases.header_of Example.hello)
              (Cases.payload_of Example.hello)
              (take 6 (Example.frame_of Example.hello))
              [drop 6 (Example.frame_of Example.hello)] [] Example.hello ∅ H1 H2)
    as (Hstep & _).
  - vm_compute; reflexivity.
  - vm_compute; lia.
  - repeat constructor. vm_compute. discriminate.
  - exact H3.
  - vm_compute; reflexivity.
  - reflexivity.
  - reflexivity.
  - reflexivity.
  - vm_compute; reflexivity.
  - split_and!; [exact H1|exact H2|exact H3|reflexivity|reflexivity|reflexivity|..].
    + by rewrite Hstep.
    + rewrite Hstep. simpl. by rewrite lookup_insert_eq.
Defined.

(** A tick of the example server, all sends going through. *)
Lemma tick_witness :
  lock Example.server = false /\
  (fun x => (x.1, type x.2)) <$>
    sends (emitted Example.server (_update_loop Example.env Example.server).2) =
    [(10%nat, "game_state"); (11%nat, "game_state")].
Proof.
  destruct (tick_sends_snapshot_to_every_session Example.env Example.server eq_refl)
    as (Hsends & _).
  split; [reflexivity|]. rewrite Hsends. reflexivity.
Defined.

(** A tick with the peers gone, and what comes after it. *)
Lemma wedged_witness :
  lock Example.server = false /\
  (0, 10%nat) ∈ clients Example.server /\
  unreachable Example.env_down 10%nat Example.server /\
  (_update_loop Example.env_down Example.server).1 = Block /\
  lock (run Example.env_down [Update ∅; Process 1 Example.hello; Remove 0]
          (_update_loop Example.env_down Example.server).2) = true.
Proof.
  assert (H2 : (0, 10%nat) ∈ clients Example.server) by (simpl; left).
  assert (H3 : unreachable Example.env_down 10%nat Example.server)
    by (right; intros; reflexivity).
  destruct (failed_send_in_tick_wedges_server Example.env_down Example.server 0 10%nat
              eq_refl H2 H3) as (Hb & _ & Hlater).
  destruct (Hlater [Update ∅; Process 1 Example.hello; Remove 0]) as (Hl & _).
  split_and!; [reflexivity|exact H2|exact H3|exact Hb|exact Hl].
Defined.

(** Session 0 of the example server is removed. *)
Lemma remove_client_witness :
  lock Example.server = false /\
  OrdDict.lookup (clients Example.server) 0 = Some 10%nat /\
  default (VDict ∅) (game_state Example.server !! KStr "players") = VDict ∅ /\
  clients (_remove_client Example.env 0 Example.server).2 = [(1, 11%nat)] /\
  (fun x => (x.1, type x.2)) <$>
    sends (emitted Example.server (_remove_client Example.env 0 Example.server).2) =
    [(11%nat, "player_left")].
Proof.
  assert (H3 : default (VDict ∅) (game_state Example.server !! KStr "players") = VDict ∅)
    by (vm_compute; reflexivity).
  destruct (remove_client_registered Example.env 0 10%nat Example.server ∅
              eq_refl eq_refl H3) as (Hc & _ & _ & _ & Hsends & _).
  split_and!; [reflexivity|reflexivity|exact H3|..].
  - rewrite Hc. reflexivity.
  - rewrite Hsends. reflexivity.
Defined.

(** A connection on socket 12 that is gone before the welcome. *)
Lemma failed_welcome_witness :
  registry_ok Example.server /\
  Z.of_nat (length (clients Example.server)) < MAX_PLAYERS /\
  lock Example.server = false /\
  (forall tr, sendall_ok Example.env_down tr 12%nat = false) /\
  let r := _accept_connections Example.env_down (Some (12%nat, ("10.0.0.3", 5555)))
             Example.server in
  clients r.2 = [(0, 10%nat); (1, 11%nat); (2, 12%nat)] /\
  (_update_loop Example.env_down r.2).1 = Block.
Proof.
  assert (H2 : Z.of_nat (length (clients Example.server)) < MAX_PLAYERS)
    by (vm_compute; reflexivity).
  assert (H4 : forall tr, sendall_ok Example.env_down tr 12%nat = false)
    by (intros; reflexivity).
  destruct (failed_welcome_leaves_session_registered Example.env_down Example.server
              12%nat ("10.0.0.3", 5555) registry_ok_server H2 eq_refl H4)
    as (_ & Hc & _ & _ & _ & Hb).
  split_and!; [exact registry_ok_server|exact H2|reflexivity|exact H4|].
  cbv zeta. split.
  - etransitivity; [exact Hc|reflexivity].
  - exact Hb.
Defined.

(** A broadcast of the example server with the peer of socket 11 gone. *)
Lemma broadcast_cleanup_witness :
  lock Example.server = false /\
  (_broadcast Cases.env_one_down Cases.left1 None Example.server).1 = Ret tt /\
  (1, 11%nat) ∈ clients Example.server /\
  unreachable Cases.env_one_down 11%nat Example.server /\
  OrdDict.lookup
    (clients (_broadcast Cases.env_one_down Cases.left1 None Example.server).2) 1 = None.
Proof.
  assert (H2 : (_broadcast Cases.env_one_down Cases.left1 None Example.server).1 = Ret tt)
    by (vm_compute; reflexivity).
  assert (H3 : (1, 11%nat) ∈ clients Example.server) by (simpl; right; left).
  assert (H4 : unreachable Cases.env_one_down 11%nat Example.server)
    by (right; intros; reflexivity).
  destruct (broadcast_drops_sessions_it_cannot_reach Cases.env_one_down Cases.left1 None
              Example.server eq_refl H2) as (_ & _ & Hgone & _).
  split_and!; [reflexivity|exact H2|exact H3|exact H4|].
  exact (Hgone 1 11%nat H3 ltac:(done) H4).
Defined.

(** [player_left] at the example client: callback 7 runs, callback 9
    raises. *)
Lemma client_callbacks_witness :
  Client.lock Cases.peer = false /\
  type Cases.left1 <> "welcome" /\
  type Cases.left1 <> "game_state" /\
  Client._process_message Cases.peer_env Cases.left1 Cases.peer =
    (Raise KeyError,
     Client.add_events
       [Client.ELock; Client.ECall 7%nat (id_payload 1); Client.ECall 9%nat (id_payload 1);
        Client.EUnlock] Cases.peer).
Proof.
  destruct (ClientFacts.message_updates_cache_then_runs_callbacks Cases.peer_env
              Cases.left1 Cases.peer (Client.player_id Cases.peer)
              (Client.game_state Cases.peer) eq_refl) as (_ & Hraise).
  - right. right. split_and!; [discriminate|discriminate|reflexivity|reflexivity].
  - split_and!; [reflexivity|discriminate|discriminate|].
    rewrite (Hraise [7%nat] 9%nat [] KeyError).
    + reflexivity.
    + vm_compute. reflexivity.
    + repeat constructor.
    + reflexivity.
Defined.

(** A frame on which a callback raises. *)
Lemma client_failing_message_witness :
  to_bytes (Z.of_nat (length (Cases.payload_of Cases.blind))) =
    Ok (Cases.header_of Cases.blind) /\
  pickle_loads (Client.wire Cases.peer_env) (Cases.payload_of Cases.blind) =
    Some Cases.blind /\
  Client.socket (Cases.hearing Cases.blind) = Some 0%nat /\
  Client.closed 0%nat (Cases.hearing Cases.blind) = false /\
  Client.connected (Cases.hearing Cases.blind) = true /\
  (Client._receive_loop Cases.peer_env 3 (Cases.hearing Cases.blind)).1 = Ret Finished /\
  Client.connected
    (Client._receive_loop Cases.peer_env 3 (Cases.hearing Cases.blind)).2 = false.
Proof.
  assert (H1 : to_bytes (Z.of_nat (length (Cases.payload_of Cases.blind))) =
               Ok (Cases.header_of Cases.blind)) by (vm_compute; reflexivity).
  assert (H2 : pickle_loads (Client.wire Cases.peer_env) (Cases.payload_of Cases.blind) =
               Some Cases.blind) by (vm_compute; reflexivity).
  assert (H4 : Client.closed 0%nat (Cases.hearing Cases.blind) = false)
    by (vm_compute; reflexivity).
  destruct (ClientFacts.failing_message_disconnects_client Cases.peer_env 2 0%nat
              (Cases.hearing Cases.blind) (Cases.header_of Cases.blind)
              (Cases.payload_of Cases.blind)
              (take 6 (Example.frame_of Cases.blind))
              [drop 6 (Example.frame_of Cases.blind)] [] Cases.blind KeyError H1 H2)
    as (Hr & Hoff & _).
  - vm_compute; reflexivity.
  - vm_compute; lia.
  - repeat constructor. vm_compute. discriminate.
  - reflexivity.
  - exact H4.
  - vm_compute; reflexivity.
  - reflexivity.
  - vm_compute; reflexivity.
  - discriminate.
  - split_and!; [exact H1|exact H2|reflexivity|exact H4|reflexivity| |exact Hoff].
    by rewrite Hr.
Defined.

(** A welcome without the snapshot. *)
Lemma bare_welcome_witness :
  Client.lock Cases.peer = false /\
  type Cases.bare_welcome = "welcome" /\
  Py.getitem (data Cases.bare_welcome) (VStr "player_id") = Ok (VInt 2) /\
  Py.getitem (data Cases.bare_welcome) (VStr "game_state") = Err KeyError /\
  Client._process_message Cases.peer_env Cases.bare_welcome Cases.peer =
    (Raise KeyError,
     Client.add_events [Client.ELock; Client.EUnlock]
       (Client.set_player_id (VInt 2) Cases.peer)).
Proof.
  assert (H3 : Py.getitem (data Cases.bare_welcome) (VStr "player_id") = Ok (VInt 2))
    by (vm_compute; reflexivity).
  assert (H4 : Py.getitem (data Cases.bare_welcome) (VStr "game_state") = Err KeyError)
    by (vm_compute; reflexivity).
  destruct (ClientFacts.welcome_without_its_keys Cases.peer_env Cases.bare_welcome
              Cases.peer KeyError eq_refl eq_refl) as (_ & Hpart).
  split_and!; [reflexivity|reflexivity|exact H3|exact H4|].
  exact (Hpart (VInt 2) H3 H4).
Defined.

Lemma loads_inverts_dumps (m : NetworkMessage) :
  Cases.loads (Example.tag_bytes (type m)) = Some m ->
  forall payload, pickle_dumps Cases.env m = Some payload ->
                  pickle_loads Cases.env payload = Some m.
Proof. intros H payload [= <-]. exact H. Qed.

(** The welcome of the example server, read by the example client. *)
Lemma client_reads_witness :
  frame (Client.wire Cases.peer_env) Cases.welcome2 = Ok (Example.frame_of Cases.welcome2) /\
  Client.socket (Cases.hearing Cases.welcome2) = Some 0%nat /\
  Client.closed 0%nat (Cases.hearing Cases.welcome2) = false /\
  (Client._receive_message Cases.peer_env (Cases.hearing Cases.welcome2)).1 =
    Ret (Some Cases.welcome2).
Proof.
  assert (H1 : frame (Client.wire Cases.peer_env) Cases.welcome2 =
               Ok (Example.frame_of Cases.welcome2)) by (vm_compute; reflexivity).
  assert (H3 : Client.closed 0%nat (Cases.hearing Cases.welcome2) = false)
    by (vm_compute; reflexivity).
  split_and!; [exact H1|reflexivity|exact H3|].
  rewrite (ClientFacts.client_reads_what_host_frames Cases.peer_env Cases.welcome2
             (Example.frame_of Cases.welcome2) 0%nat (Cases.hearing Cases.welcome2)
             (take 6 (Example.frame_of Cases.welcome2))
             [drop 6 (Example.frame_of Cases.welcome2)] [] H1).
  - reflexivity.
  - apply loads_inverts_dumps. vm_compute. reflexivity.
  - vm_compute; reflexivity.
  - vm_compute; lia.
  - repeat constructor. vm_compute. discriminate.
  - reflexivity.
  - exact H3.
  - vm_compute; reflexivity.
Defined.

(** The host closes the connection of the example client. *)
Lemma receive_loop_witness :
  Client.socket Cases.parting = Some 0%nat /\
  Client.closed 0%nat Cases.parting = false /\
  Client.connected Cases.parting = true /\
  Client.inbox Cases.parting !! 0%nat = Some [Eof] /\
  Client._receive_loop Cases.peer_env 1 Cases.parting =
    (Ret Finished, Client.set_connected false Cases.parting).
Proof.
  assert (H2 : Client.closed 0%nat Cases.parting = false) by (vm_compute; reflexivity).
  assert (H4 : Client.inbox Cases.parting !! 0%nat = Some [Eof])
    by (vm_compute; reflexivity).
  destruct (ClientFacts.receive_loop_ends_disconnected Cases.peer_env 0 0%nat
              Cases.parting [] eq_refl H2) as (_ & _ & Hend).
  split_and!; [reflexivity|exact H2|reflexivity|exact H4|].
  exact (Hend Ended ltac:(discriminate) eq_refl H4).
Defined.

(** A [game_state] message at the example client. *)
Lemma snapshot_witness :
  Client.lock Cases.peer = false /\
  type Cases.state_message = "game_state" /\
  (Client.get_game_state
     (Client._process_message Cases.peer_env Cases.state_message Cases.peer).2).1 =
    Ret (VDict (game_state Example.server)).
Proof.
  destruct (ClientFacts.snapshot_is_last_game_state Cases.peer_env Cases.state_message
              Cases.peer eq_refl eq_refl) as (_ & _ & _ & Hget).
  split_and!; [reflexivity|reflexivity|]. by rewrite Hget.
Defined.

(** A third session joins the example server, and the example client
    is its peer. *)
Lemma join_witness :
  registry_ok Example.server /\
  Z.of_nat (length (clients Example.server)) < MAX_PLAYERS /\
  lock Example.server = false /\
  delivered_to 12%nat
    (emitted Example.server
       (_accept_connections (Client.wire Cases.peer_env)
          (Some (12%nat, ("10.0.0.3", 5555))) Example.server).2) = [Cases.welcome2] /\
  frame (Client.wire Cases.peer_env) Cases.welcome2 = Ok (Example.frame_of Cases.welcome2) /\
  Client.socket (Cases.hearing Cases.welcome2) = Some 0%nat /\
  Client.closed 0%nat (Cases.hearing Cases.welcome2) = false /\
  Client.lock (Cases.hearing Cases.welcome2) = false /\
  let step := Client.receive_loop_step Cases.peer_env (Cases.hearing Cases.welcome2) in
  Client.player_id step.2 = VInt 2 /\
  Client.game_state step.2 = VDict (game_state Example.server).
Proof.
  assert (H2 : Z.of_nat (length (clients Example.server)) < MAX_PLAYERS)
    by (vm_compute; reflexivity).
  assert (H4 : delivered_to 12%nat
    (emitted Example.server
       (_accept_connections (Client.wire Cases.peer_env)
          (Some (12%nat, ("10.0.0.3", 5555))) Example.server).2) = [Cases.welcome2])
    by (vm_compute; reflexivity).
  assert (H5 : frame (Client.wire Cases.peer_env) Cases.welcome2 =
               Ok (Example.frame_of Cases.welcome2)) by (vm_compute; reflexivity).
  assert (H7 : Client.closed 0%nat (Cases.hearing Cases.welcome2) = false)
    by (vm_compute; reflexivity).
  destruct (join_gives_client_its_id_and_snapshot Cases.peer_env Example.server 12%nat
              ("10.0.0.3", 5555) Cases.welcome2 [] (Cases.hearing Cases.welcome2) 0%nat
              (Example.frame_of Cases.welcome2)
              (take 6 (Example.frame_of Cases.welcome2))
              [drop 6 (Example.frame_of Cases.welcome2)] []
              registry_ok_server H2 eq_refl H4 H5) as (_ & Hid & Hgs & _).
  - apply loads_inverts_dumps. vm_compute. reflexivity.
  - vm_compute; reflexivity.
  - vm_compute; lia.
  - repeat constructor. vm_compute. discriminate.
  - reflexivity.
  - exact H7.
  - vm_compute; reflexivity.
  - reflexivity.
  - vm_compute. repeat constructor.
  - split_and!; [exact registry_ok_server|exact H2|reflexivity|exact H4|exact H5|
                 reflexivity|exact H7|reflexivity|].
    cbv zeta. split; [exact Hid|exact Hgs].
Defined.

(** The example client sends [hello]; session 0 of the example server
    reads it. *)
Lemma host_reads_witness :
  Client.connected Cases.peer = true /\
  Client.socket Cases.peer = Some 0%nat /\
  Client.sent (Client.emitted Cases.peer
                 (Client.send_message Cases.peer_env Example.hello Cases.peer).2) =
    [Example.frame_of Example.hello] /\
  closed 10%nat Example.receiving = false /\
  (_receive_from_client (Client.wire Cases.peer_env) 10%nat Example.receiving).1 =
    Ret (Some Example.hello).
Proof.
  assert (H3 : Client.sent (Client.emitted Cases.peer
                 (Client.send_message Cases.peer_env Example.hello Cases.peer).2) =
               [Example.frame_of Example.hello]) by (vm_compute; reflexivity).
  assert (H4 : closed 10%nat Example.receiving = false) by (vm_compute; reflexivity).
  split_and!; [reflexivity|reflexivity|exact H3|exact H4|].
  rewrite (host_reads_what_client_sends Cases.peer_env Example.hello Cases.peer 0%nat
             (Example.frame_of Example.hello) Example.receiving 10%nat
             (take 6 (Example.frame_of Example.hello))
             [drop 6 (Example.frame_of Example.hello)] [] eq_refl eq_refl H3).
  - reflexivity.
  - apply loads_inverts_dumps. vm_compute. reflexivity.
  - vm_compute; reflexivity.
  - vm_compute; lia.
  - repeat constructor. vm_compute. discriminate.
  - exact H4.
  - vm_compute; reflexivity.
Defined.

(** Session 0 leaves the example server; the example game hears of it. *)
Lemma departure_witness :
  registry_ok Example.server /\
  (11%nat, Cases.left0) ∈
    sends (emitted Example.server (run Example.env [Remove 0] Example.server)) /\
  type Cases.left0 = "player_left" /\
  Game._on_player_left (data Cases.left0) Cases.game =
    Ok {| Game.players := delete (KInt 0) (Game.players Cases.game);
          Game.world_items := Game.world_items Cases.game |}.
Proof.
  assert (H2 : (11%nat, Cases.left0) ∈
    sends (emitted Example.server (run Example.env [Remove 0] Example.server)))
    by (apply (bool_decide_unpack _); vm_compute; reflexivity).
  destruct (game_understands_departures Example.env [Remove 0] Example.server 11%nat
              Cases.left0 Cases.game registry_ok_server H2 eq_refl)
    as (p & Hd & Hleft & _).
  apply id_payload_inj in Hd. subst p.
  split_and!; [exact registry_ok_server|exact H2|reflexivity|exact Hleft].
Defined.

(** Session 0 picks up item 5; the example game hears of it. *)
Lemma pickup_heard_witness :
  lock Cases.stocked = false /\
  type Cases.pickup = "pickup_item" /\
  game_state Cases.stocked !! KStr "items" = Some (VDict {[ KInt 5 := VStr "potion" ]}) /\
  (10%nat, Cases.picked5) ∈
    sends (emitted Cases.stocked
             (_process_message Example.env 0 Cases.pickup Cases.stocked).2) /\
  Game._on_item_picked_up (data Cases.picked5) Cases.game =
    Ok {| Game.players := Game.players Cases.game;
          Game.world_items := delete (KInt 5) (Game.world_items Cases.game) |}.
Proof.
  assert (H4 : ({[ KStr "item_id" := VInt 5 ]} : gmap pykey pyval) !! KStr "item_id"
               = Some (VInt 5)) by (vm_compute; reflexivity).
  assert (H6 : game_state Cases.stocked !! KStr "items" =
               Some (VDict {[ KInt 5 := VStr "potion" ]})) by (vm_compute; reflexivity).
  assert (H7 : is_Some (({[ KInt 5 := VStr "potion" ]} : gmap pykey pyval) !! KInt 5))
    by (exists (VStr "potion"); vm_compute; reflexivity).
  assert (H8 : (10%nat, Cases.picked5) ∈
    sends (emitted Cases.stocked
             (_process_message Example.env 0 Cases.pickup Cases.stocked).2))
    by (apply (bool_decide_unpack _); vm_compute; reflexivity).
  destruct (game_understands_pickups Example.env 0 Cases.pickup Cases.stocked
              {[ KStr "item_id" := VInt 5 ]} (VInt 5) (KInt 5)
              {[ KInt 5 := VStr "potion" ]} 10%nat Cases.picked5 Cases.game
              eq_refl eq_refl eq_refl H4 eq_refl H6 H7 H8) as (_ & Hgone).
  split_and!; [reflexivity|reflexivity|exact H6|exact H8|exact Hgone].
Defined.

